(** * Directory-structure visualizer: parser and tree-state engine

    A shallow embedding of [src/lib/parser.ts] and [src/hooks/useTreeState.ts],
    and the properties of the specification proved, or refuted, on it.

    - JavaScript strings are sequences of UTF-16 code units; they are
      modelled as [list N], so that [length], [substring] and the
      regular-expression classes count exactly what the source counts.  The
      four box-drawing glyphs of the ASCII grammar are single code units.
    - Numbers ([depth], [indent], [level]) are integers, in [Z].
    - The parsers build their forest by mutation through a stack of node
      references; the forest is the store, and a reference is a position in
      it (see "Tree construction").
    - [generateId] is not a function of its arguments; the parsers take the
      sequence of ids it returns as a parameter.

    The definitions come first, the source's and then those the statements
    need; the proofs follow. *)

From Stdlib Require Import List ZArith NArith Bool Lia.
From Stdlib Require String Ascii.
Import ListNotations String.StringSyntax.

(* ================================================================== *)
(** * JavaScript strings *)
(* ================================================================== *)

Definition char := N.
Definition str := list char.

(** Decoding of a UTF-8 literal (code points below U+10000) into code units;
    only used to write string constants legibly. *)
Fixpoint utf8_decode (bs : list N) : str :=
  match bs with
  | [] => []
  | b0 :: r0 =>
      if (b0 <? 128)%N then b0 :: utf8_decode r0
      else if (b0 <? 224)%N then
        match r0 with
        | b1 :: r1 => ((b0 - 192) * 64 + (b1 - 128))%N :: utf8_decode r1
        | [] => []
        end
      else
        match r0 with
        | b1 :: b2 :: r2 =>
            ((b0 - 224) * 4096 + (b1 - 128) * 64 + (b2 - 128))%N :: utf8_decode r2
        | _ => []
        end
  end.

Definition lit (s : String.string) : str :=
  utf8_decode (map Ascii.N_of_ascii (String.list_ascii_of_string s)).

Arguments lit s%_string_scope.

Definition LF : char := 10%N.
Definition HASH : char := 35%N.
Definition DASH : char := 45%N.
Definition SLASH : char := 47%N.

(** [a === b] on strings. *)
Fixpoint str_eqb (a b : str) : bool :=
  match a, b with
  | [], [] => true
  | x :: a', y :: b' => (x =? y)%N && str_eqb a' b'
  | _, _ => false
  end.

(** ECMAScript [WhiteSpace] and [LineTerminator]: the characters removed by
    [String.prototype.trim] and matched by the class [\s]. *)
Definition isLineTerminator (c : char) : bool :=
  ((c =? 10) || (c =? 13) || (c =? 8232) || (c =? 8233))%N.

Definition isSpace (c : char) : bool :=
  ((c =? 9) || (c =? 10) || (c =? 11) || (c =? 12) || (c =? 13) || (c =? 32)
   || (c =? 160) || (c =? 5760) || ((8192 <=? c) && (c <=? 8202))
   || (c =? 8232) || (c =? 8233) || (c =? 8239) || (c =? 8287)
   || (c =? 12288) || (c =? 65279))%N.

Fixpoint dropWhile (p : char -> bool) (s : str) : str :=
  match s with
  | [] => []
  | c :: r => if p c then dropWhile p r else s
  end.

Fixpoint takeWhile (p : char -> bool) (s : str) : str :=
  match s with
  | [] => []
  | c :: r => if p c then c :: takeWhile p r else []
  end.

Definition trimStart (s : str) : str := dropWhile isSpace s.
Definition trimEnd (s : str) : str := rev (dropWhile isSpace (rev s)).
Definition trim (s : str) : str := trimEnd (trimStart s).

(** [s.split(sep)] for a one-character separator: never returns the empty
    array; [split sep ""] is [[""]]. *)
Fixpoint split (sep : char) (s : str) : list str :=
  match s with
  | [] => [[]]
  | c :: r =>
      if (c =? sep)%N then [] :: split sep r
      else match split sep r with
           | l :: ls => (c :: l) :: ls
           | [] => [[c]]
           end
  end.

(** [lines.join(sep)] for a one-character separator. *)
Fixpoint join (sep : char) (ls : list str) : str :=
  match ls with
  | [] => []
  | [l] => l
  | l :: rest => l ++ sep :: join sep rest
  end.

Fixpoint startsWith (s prefix : str) {struct prefix} : bool :=
  match prefix, s with
  | [], _ => true
  | p :: prefix', c :: s' => (c =? p)%N && startsWith s' prefix'
  | _ :: _, [] => false
  end.

Definition endsWith (s suffix : str) : bool := startsWith (rev s) (rev suffix).

(** [s.includes(needle)]: [needle] occurs as a contiguous substring. *)
Fixpoint includes (s needle : str) : bool :=
  startsWith s needle ||
  match s with
  | [] => false
  | _ :: r => includes r needle
  end.

(** [s.substring(from, to)] with [from <= to], and [s.substring(from)]. *)
Definition substring (s : str) (from to : nat) : str :=
  firstn (to - from) (skipn from s).
Definition substringFrom (s : str) (from : nat) : str := skipn from s.

(** [s.slice(0, -1)]. *)
Definition dropLast (s : str) : str := removelast s.

(** [s.indexOf(c)] for a single character; [None] stands for [-1]. *)
Fixpoint indexOf (s : str) (c : char) : option nat :=
  match s with
  | [] => None
  | x :: r => if (x =? c)%N then Some 0%nat
              else option_map S (indexOf r c)
  end.

(* ================================================================== *)
(** * The tree model ([lib/types]) *)
(* ================================================================== *)

Inductive NodeType : Type := file | folder.

Definition NodeType_eqb (a b : NodeType) : bool :=
  match a, b with
  | file, file | folder, folder => true
  | _, _ => false
  end.

(** Modelled from the spec: the declaration of [TreeNode] (in [lib/types]) is
    not among the sources.  The fields are those the parser writes and the
    reducer reads; [isExpanded] and [children] are optional, as the object
    literals of the test-suite (which omit them) show. *)
#[warnings="-register-all"]
Inductive TreeNode : Type := mkNode {
  id : str;
  name : str;
  type : NodeType;
  depth : Z;
  isExpanded : option bool;
  children : option (list TreeNode)
}.

(** JavaScript truthiness of an optional boolean ([undefined] is falsy). *)
Definition truthy (b : option bool) : bool :=
  match b with Some true => true | _ => false end.

(** The child list of a node, empty for a node without [children]. *)
Definition kids (n : TreeNode) : list TreeNode :=
  match children n with Some cs => cs | None => [] end.

(** All the nodes of a subtree / of a forest, in depth-first order. *)
Fixpoint subtree (n : TreeNode) : list TreeNode :=
  match n with
  | mkNode _ _ _ _ _ c =>
      n :: match c with
           | Some cs => flat_map subtree cs
           | None => []
           end
  end.

Definition forest_nodes (f : list TreeNode) : list TreeNode :=
  flat_map subtree f.

Definition ids (f : list TreeNode) : list str := map id (forest_nodes f).

(** A position in a forest: the child indices to follow from the root list. *)
Fixpoint node_at (p : list nat) (f : list TreeNode) : option TreeNode :=
  match p with
  | [] => None
  | i :: p' =>
      match nth_error f i with
      | None => None
      | Some n =>
          match p' with
          | [] => Some n
          | _ :: _ => node_at p' (kids n)
          end
      end
  end.

(** Replace the node at position [p] by its image under [g]; every other
    position keeps its node.  A position outside the forest changes nothing. *)
Fixpoint list_alter {A : Type} (g : A -> A) (i : nat) (l : list A) : list A :=
  match l, i with
  | [], _ => []
  | x :: r, O => g x :: r
  | x :: r, S i' => x :: list_alter g i' r
  end.

Definition with_children (n : TreeNode) (cs : option (list TreeNode)) : TreeNode :=
  mkNode (id n) (name n) (type n) (depth n) (isExpanded n) cs.

Fixpoint alter_at (g : TreeNode -> TreeNode) (p : list nat) (f : list TreeNode)
  : list TreeNode :=
  match p with
  | [] => f
  | [i] => list_alter g i f
  | i :: p' =>
      list_alter
        (fun n => match children n with
                  | Some cs => with_children n (Some (alter_at g p' cs))
                  | None => n
                  end) i f
  end.

(* ================================================================== *)
(** * The tree-state engine ([hooks/useTreeState.ts]) *)
(* ================================================================== *)

Record TreeState : Type := mkState {
  nodes : list TreeNode;
  selectedNodeId : option str
}.

(** Modelled from the spec: the declaration of [TreeAction] (in [lib/types])
    is not among the sources.  The five tags are those the reducer switches
    on; [ADD_NODE] is the reserved tag that falls to the [default] branch. *)
Inductive TreeAction : Type :=
| SET_TREE (payload : list TreeNode)
| TOGGLE_EXPAND (payload : str)
| RENAME_NODE (payload_id payload_name : str)
| DELETE_NODE (payload : str)
| SELECT_NODE (payload : option str)
| ADD_NODE.

Definition initialState : TreeState := mkState [] None.

(** The callback of [nodes.map] in [toggleNodeExpand]. *)
Fixpoint toggleNode (targetId : str) (node : TreeNode) : TreeNode :=
  match node with
  | mkNode i n t d e c =>
      if str_eqb i targetId && NodeType_eqb t folder
      then mkNode i n t d (Some (negb (truthy e))) c
      else match c with
           | Some cs => mkNode i n t d e (Some (map (toggleNode targetId) cs))
           | None => node
           end
  end.

Definition toggleNodeExpand (nodes : list TreeNode) (targetId : str)
  : list TreeNode :=
  map (toggleNode targetId) nodes.

(** The callback of [nodes.map] in [renameNode]. *)
Fixpoint renameOne (targetId newName : str) (node : TreeNode) : TreeNode :=
  match node with
  | mkNode i n t d e c =>
      if str_eqb i targetId
      then mkNode i newName t d e c
      else match c with
           | Some cs =>
               mkNode i n t d e (Some (map (renameOne targetId newName) cs))
           | None => node
           end
  end.

Definition renameNode (nodes : list TreeNode) (targetId newName : str)
  : list TreeNode :=
  map (renameOne targetId newName) nodes.

(** The callback of [.map] in [deleteNode]; the inner loop is
    [deleteNode(node.children, targetId)], that is a filter followed by a map
    (see [deleteNode_children] below). *)
Fixpoint deleteIn (targetId : str) (node : TreeNode) : TreeNode :=
  match node with
  | mkNode i n t d e c =>
      match c with
      | Some cs =>
          mkNode i n t d e
            (Some ((fix go (l : list TreeNode) : list TreeNode :=
                      match l with
                      | [] => []
                      | x :: r =>
                          if negb (str_eqb (id x) targetId)
                          then deleteIn targetId x :: go r
                          else go r
                      end) cs))
      | None => node
      end
  end.

Definition deleteNode (nodes : list TreeNode) (targetId : str) : list TreeNode :=
  map (deleteIn targetId)
      (filter (fun node => negb (str_eqb (id node) targetId)) nodes).

(** [findNodeById]: the first match in depth-first order. *)
Fixpoint findIn (targetId : str) (node : TreeNode) : option TreeNode :=
  match node with
  | mkNode i _ _ _ _ c =>
      if str_eqb i targetId then Some node
      else match c with
           | Some cs =>
               (fix go (l : list TreeNode) : option TreeNode :=
                  match l with
                  | [] => None
                  | x :: r =>
                      match findIn targetId x with
                      | Some found => Some found
                      | None => go r
                      end
                  end) cs
           | None => None
           end
  end.

Fixpoint findNodeById (nodes : list TreeNode) (targetId : str) : option TreeNode :=
  match nodes with
  | [] => None
  | node :: rest =>
      match findIn targetId node with
      | Some found => Some found
      | None => findNodeById rest targetId
      end
  end.

Definition option_str_eqb (a : option str) (b : str) : bool :=
  match a with Some x => str_eqb x b | None => false end.

Definition treeReducer (state : TreeState) (action : TreeAction) : TreeState :=
  match action with
  | SET_TREE payload => mkState payload None
  | TOGGLE_EXPAND payload =>
      mkState (toggleNodeExpand (nodes state) payload) (selectedNodeId state)
  | RENAME_NODE i n =>
      mkState (renameNode (nodes state) i n) (selectedNodeId state)
  | DELETE_NODE payload =>
      mkState (deleteNode (nodes state) payload)
              (if option_str_eqb (selectedNodeId state) payload
               then None else selectedNodeId state)
  | SELECT_NODE payload => mkState (nodes state) payload
  | ADD_NODE => state
  end.

(* ================================================================== *)
(** * The parser ([lib/parser.ts]) *)
(* ================================================================== *)

Inductive InputFormat : Type := markdown | ascii | unknown.

Inductive ParseResult : Type :=
| Success (nodes : list TreeNode)
| Failure (error : str).

Definition isEmpty (s : str) : bool :=
  match s with [] => true | _ :: _ => false end.

Definition asciiChars : list str :=
  Eval vm_compute in [lit "├"; lit "└"; lit "│"; lit "─"].

Definition detectFormat (input : str) : InputFormat :=
  let hasAsciiChars := existsb (fun c => includes input c) asciiChars in
  if hasAsciiChars then ascii
  else
    let lines :=
      filter (fun line => negb (isEmpty (trim line))) (split LF (trim input)) in
    let hasMarkdownFormat :=
      existsb (fun line => startsWith (trim line) [DASH]) lines in
    if hasMarkdownFormat then markdown
    else if (0 <? length lines)%nat then markdown
    else unknown.

(** ** Regular expressions of the Markdown parser *)

(** [(.+)$]: the rest of the line, which must be non-empty and free of line
    terminators (the dot does not match them). *)
Definition dotPlusToEnd (s : str) : bool :=
  negb (isEmpty s) && forallb (fun c => negb (isLineTerminator c)) s.

(** White space followed by [(.+)$], by backtracking: the greedy white-space
    star first takes [k] characters and gives them back one at a time until
    the rest matches. *)
Fixpoint spacesThenDotPlus (k : nat) (s : str) : option (str * str) :=
  if dotPlusToEnd (skipn k s) then Some (firstn k s, skipn k s)
  else match k with
       | O => None
       | S k' => spacesThenDotPlus k' s
       end.

(** The pattern of [plainMatch]: start of line, a group of white space
    (greedy), a group [.+], end of input.  Returns the two groups. *)
Definition matchPlain (line : str) : option (str * str) :=
  spacesThenDotPlus (length (takeWhile isSpace line)) line.

(** The pattern of [match]: start of line, a group of white space (greedy),
    a dash, white space (greedy), a group [.+], end of input.  Returns the two
    groups.  The dash is not white space, so the first group can only be the
    whole leading white space. *)
Definition matchBullet (line : str) : option (str * str) :=
  match dropWhile isSpace line with
  | c :: rest =>
      if (c =? DASH)%N then
        match spacesThenDotPlus (length (takeWhile isSpace rest)) rest with
        | Some (_, g2) => Some (takeWhile isSpace line, g2)
        | None => None
        end
      else None
  | [] => None
  end.

(** ** Tree construction

    The parsers build the forest in place: [root] owns the top-level nodes,
    every folder owns its [children] array, and the stack holds references to
    the folders that are still open.  A push through a stack reference is
    visible from [root].  The forest itself is the store here, and a reference
    to a node is its position in the forest (arrays only grow at the end, so
    a position, once given, keeps denoting the same node). *)

Record Frame : Type := mkFrame {
  node_ref : list nat;
  indent : Z
}.

Record Builder : Type := mkBuilder {
  root : list TreeNode;
  stack : list Frame;          (* top of the stack first *)
  created : nat                (* number of calls of generateId so far *)
}.

Definition emptyBuilder : Builder := mkBuilder [] [] 0.

(** [while (stack.length > 0 && stack[stack.length - 1].indent >= key)
       stack.pop()] *)
Fixpoint popWhile (key : Z) (stack : list Frame) : list Frame :=
  match stack with
  | [] => []
  | fr :: rest => if (indent fr >=? key)%Z then popWhile key rest else stack
  end.

(** [if (parent.children) parent.children.push(node)] *)
Definition pushChild (node : TreeNode) (parent : TreeNode) : TreeNode :=
  match children parent with
  | Some cs => with_children parent (Some (cs ++ [node]))
  | None => parent
  end.

(** The position [node] gets when pushed under the node at [p].  (When [p]
    denotes no node, or a node without [children], the new node is not in
    the forest and its reference denotes nothing; the invariant [frame_ok]
    shows that the parsers never get there.) *)
Definition child_ref (p : list nat) (root : list TreeNode) : list nat :=
  match node_at p root with
  | Some parent => p ++ [length (kids parent)]
  | None => p ++ [0%nat]
  end.

(** Pop the frames that are not ancestors, attach [node] to the top of the
    stack (or to [root] when the stack is empty) and open it when it is a
    folder. *)
Definition attach (st : Builder) (node : TreeNode) (key : Z) (isFolder : bool)
  : Builder :=
  let stack1 := popWhile key (stack st) in
  let '(root1, ref) :=
    match stack1 with
    | [] => (root st ++ [node], [length (root st)])
    | parent :: _ =>
        (alter_at (pushChild node) (node_ref parent) (root st),
         child_ref (node_ref parent) (root st))
    end in
  mkBuilder root1
            (if isFolder then mkFrame ref key :: stack1 else stack1)
            (S (created st)).

(** [adjustDepth(nodes, increment)] *)
Fixpoint adjustNode (increment : Z) (node : TreeNode) : TreeNode :=
  match node with
  | mkNode i n t d e c =>
      mkNode i n t (d + increment) e
             (match c with
              | Some cs => Some (map (adjustNode increment) cs)
              | None => None
              end)
  end.

Definition adjustDepth (nodes : list TreeNode) (increment : Z) : list TreeNode :=
  map (adjustNode increment) nodes.

Definition NO_STRUCTURE : str :=
  Eval vm_compute in lit "No valid directory structure found in input".

(** The end of both parsers: the emptiness check and the depth adjustment of
    a single root folder with children. *)
Definition finish (root : list TreeNode) : ParseResult :=
  match root with
  | [] => Failure NO_STRUCTURE
  | [r] =>
      match type r, children r with
      | folder, Some (c :: cs) =>
          Success [with_children r (Some (adjustDepth (c :: cs) 1))]
      | _, _ => Success root
      end
  | _ => Success root
  end.

Section Parser.

(** [generateId] reads the clock and a random source; the [k]-th call of a
    parse returns [generateId k]. *)
Variable generateId : nat -> str.

Definition newNode (k : nat) (name : str) (depth : Z) : TreeNode :=
  let isFolder := endsWith name [SLASH] in
  mkNode (generateId k)
         (if isFolder then dropLast name else name)
         (if isFolder then folder else file)
         depth
         (Some true)
         (if isFolder then Some [] else None).

(** ** Markdown *)

Definition addMarkdownNode (st : Builder) (indent : nat) (name : str) : Builder :=
  let depth := (Z.of_nat indent / 2)%Z in
  attach st (newNode (created st) name depth) (Z.of_nat indent)
         (endsWith name [SLASH]).

(** One turn of the loop over the lines: the bullet pattern first, then the
    plain-text fallback; both build the node the same way. *)
Definition markdownLine (st : Builder) (line : str) : Builder :=
  if isEmpty (trim line) then st
  else
    match matchBullet line with
    | None =>
        match matchPlain line with
        | Some (g1, g2) =>
            if negb (isEmpty (trim g2))
            then addMarkdownNode st (length g1) (trim g2)
            else st
        | None => st
        end
    | Some (g1, g2) => addMarkdownNode st (length g1) (trim g2)
    end.

(** Nothing in the body of the source's [try] raises an exception, so the
    [catch] branch has no counterpart here (nor in [parseAscii]). *)
Definition parseMarkdown (input : str) : ParseResult :=
  finish (root (fold_left markdownLine (split LF input) emptyBuilder)).

(** ** ASCII *)

Definition BRANCH : str := Eval vm_compute in lit "├──".
Definition CORNER : str := Eval vm_compute in lit "└──".
Definition treeChars : list str :=
  Eval vm_compute in [lit "├──"; lit "└──"; lit "│   "; lit "    "].

(** The prefix scan of one line: the [while] loop over [pos], with the inner
    [for] loop as [find].  After a connector the line is replaced by its
    trimmed rest while [pos] keeps its value, and the loop goes on.  The
    variable [hasTreeChars] of the source is written and never read.  Each
    turn consumes characters, so the fuel given by [scanPrefix] is never used
    up ([scanPrefix_total]). *)
Fixpoint scanLoop (fuel : nat) (cleanLine : str) (pos : nat) (level : Z)
  (foundTreeChar : bool) : option (str * Z * bool) :=
  match fuel with
  | O => None
  | S fuel' =>
      if (pos <? length cleanLine)%nat then
        match find (fun tok =>
                      str_eqb (substring cleanLine pos (pos + length tok)) tok)
                   treeChars with
        | Some tok =>
            if str_eqb tok BRANCH || str_eqb tok CORNER
            then scanLoop fuel'
                          (trim (substringFrom cleanLine (pos + length tok)))
                          pos level true
            else scanLoop fuel' cleanLine (pos + length tok) (level + 1) true
        | None => Some (trim cleanLine, level, foundTreeChar)
        end
      else Some (cleanLine, level, foundTreeChar)
  end.

Definition scanPrefix (line : str) : option (str * Z * bool) :=
  scanLoop (S (length line)) line 0 0 false.

(** One turn of the loop over the lines; [i] is the index of the line. *)
Definition asciiLine (acc : Builder * nat) (line : str) : Builder * nat :=
  let '(st, i) := acc in
  (if isEmpty (trim line) then st
   else
     match scanPrefix line with
     | None => st
     | Some (cleanLine, level, foundTreeChar) =>
         let name := trim cleanLine in
         if isEmpty name then st
         else
           let isFolder := endsWith name [SLASH] in
           if negb foundTreeChar && (i =? 0)%nat && isFolder then
             mkBuilder
               (root st ++ [mkNode (generateId (created st)) (dropLast name)
                                   folder 0 (Some true) (Some [])])
               (mkFrame [length (root st)] (-1) :: stack st)
               (S (created st))
           else
             attach st (newNode (created st) name level) level isFolder
     end,
   S i).

Definition parseAscii (input : str) : ParseResult :=
  finish (root (fst (fold_left asciiLine (split LF input) (emptyBuilder, 0%nat)))).

(** ** Sanitizer and facade *)

(** The character class of [hasContent]: letters, digits, underscore,
    period, hyphen and slash. *)
Definition isContentChar (c : char) : bool :=
  (((97 <=? c) && (c <=? 122)) || ((65 <=? c) && (c <=? 90))
   || ((48 <=? c) && (c <=? 57)) || (c =? 95) || (c =? 46) || (c =? 45)
   || (c =? 47))%N.

Definition stripComment (line : str) : str :=
  if startsWith (trim line) [HASH] then []
  else match indexOf line HASH with
       | Some commentIndex => substring line 0 commentIndex
       | None => line
       end.

Definition keepLine (line : str) : bool :=
  let trimmed := trim line in
  if (length trimmed =? 0)%nat then false
  else existsb isContentChar trimmed.

Definition sanitizeInput (input : str) : str :=
  join LF (filter keepLine (map stripComment (split LF input))).

Definition INPUT_EMPTY : str :=
  Eval vm_compute in lit "Input is empty. Please provide a directory structure.".
Definition ONLY_COMMENTS : str :=
  Eval vm_compute in
    lit "Input contains only comments or whitespace. Please provide a valid directory structure.".
Definition UNKNOWN_FORMAT : str :=
  Eval vm_compute in
    lit "Unable to detect input format. Please use markdown (- folder/) or ASCII (├── folder/) format.".

Definition parseDirectoryStructure (input : str) : ParseResult :=
  if isEmpty input || isEmpty (trim input) then Failure INPUT_EMPTY
  else
    let sanitizedInput := sanitizeInput input in
    if isEmpty (trim sanitizedInput) then Failure ONLY_COMMENTS
    else
      match detectFormat sanitizedInput with
      | unknown => Failure UNKNOWN_FORMAT
      | markdown => parseMarkdown sanitizedInput
      | ascii => parseAscii sanitizedInput
      end.

End Parser.

(* ================================================================== *)
(** * The formatter ([lib/formatter.ts]) *)
(* ================================================================== *)

Inductive FormatStyle : Type := style_markdown | style_ascii.

(** [FormatOptions]: every field is optional. *)
Record FormatOptions : Type := mkOptions {
  preserveExpandedState : option bool;
  opt_indent : option str;
  opt_style : option FormatStyle
}.

Definition defaultOptions : FormatOptions := mkOptions None None None.

Definition suffixOf (t : NodeType) : str :=
  match t with folder => [SLASH] | file => [] end.

(** [traverse] of [formatAsMarkdown]: the lines it pushes, in order. *)
Fixpoint markdownTraverse (indent : str) (node : TreeNode) (currentIndent : str)
  : list str :=
  match node with
  | mkNode _ nm t _ _ c =>
      let prefix :=
        if isEmpty currentIndent then lit "- " else currentIndent ++ lit "- " in
      (prefix ++ nm ++ suffixOf t)
      :: match c with
         | Some ((_ :: _) as cs) =>
             flat_map (fun child =>
                         markdownTraverse indent child (currentIndent ++ indent))
                      cs
         | _ => []
         end
  end.

Definition formatAsMarkdown (nodes : list TreeNode) (indent : str) : str :=
  join LF (flat_map (fun node => markdownTraverse indent node []) nodes).

(** [traverse] of [formatAsAscii]; the inner loop gives [isLastChild] to the
    last child only. *)
Fixpoint asciiTraverse (node : TreeNode) (prefix : str) (isLast : bool)
  : list str :=
  match node with
  | mkNode _ nm t _ _ c =>
      let connector := if isLast then lit "└── " else lit "├── " in
      (prefix ++ connector ++ nm ++ suffixOf t)
      :: match c with
         | Some ((_ :: _) as cs) =>
             let childPrefix :=
               prefix ++ (if isLast then lit "    " else lit "│   ") in
             (fix loop (l : list TreeNode) : list str :=
                match l with
                | [] => []
                | [child] => asciiTraverse child childPrefix true
                | child :: rest =>
                    asciiTraverse child childPrefix false ++ loop rest
                end) cs
         | _ => []
         end
  end.

(** A loop that calls [traverse(child, prefix, i === length - 1)]. *)
Fixpoint asciiTraverseAll (l : list TreeNode) (prefix : str) : list str :=
  match l with
  | [] => []
  | [child] => asciiTraverse child prefix true
  | child :: rest => asciiTraverse child prefix false ++ asciiTraverseAll rest prefix
  end.

Definition formatAsAscii (nodes : list TreeNode) : str :=
  join LF
    match nodes with
    | [node] =>
        (name node ++ suffixOf (type node))
        :: match children node with
           | Some ((_ :: _) as cs) => asciiTraverseAll cs []
           | _ => []
           end
    | _ => asciiTraverseAll nodes []
    end.

Definition formatTreeToText (nodes : list TreeNode) (options : FormatOptions)
  : str :=
  match nodes with
  | [] => []
  | _ :: _ =>
      let style := match opt_style options with
                   | Some st => st
                   | None => style_markdown
                   end in
      let indent := match opt_indent options with
                    | Some i => i
                    | None => lit "  "
                    end in
      match style with
      | style_ascii => formatAsAscii nodes
      | style_markdown => formatAsMarkdown nodes indent
      end
  end.

(** [filterVisible] of [formatVisibleTree]. *)
Fixpoint filterVisible (node : TreeNode) : TreeNode :=
  match node with
  | mkNode i nm t d e c =>
      mkNode i nm t d e
             (match c with
              | Some cs =>
                  if NodeType_eqb t folder && truthy e
                  then Some (map filterVisible cs)
                  else None
              | None => None
              end)
  end.

Definition formatVisibleTree (nodes : list TreeNode) (options : FormatOptions)
  : str :=
  formatTreeToText (map filterVisible nodes) options.

(** [flattenNodes] of the tree view ([components/TreeView]): the nodes the
    keyboard can reach, in display order. *)
Fixpoint flattenNode (node : TreeNode) : list TreeNode :=
  match node with
  | mkNode _ _ t _ e c =>
      node :: match c with
              | Some cs =>
                  if NodeType_eqb t folder && truthy e
                  then flat_map flattenNode cs
                  else []
              | None => []
              end
  end.

Definition flattenNodes (nodeList : list TreeNode) : list TreeNode :=
  flat_map flattenNode nodeList.

(* ================================================================== *)
(** * Script generation ([lib/export.ts]) *)
(* ================================================================== *)

Inductive ScriptType : Type := powershell | cmd | bash | zsh.

Record Paths : Type := mkPaths {
  folders : list str;
  files : list str
}.

Definition appendPaths (a b : Paths) : Paths :=
  mkPaths (folders a ++ folders b) (files a ++ files b).

(** [collectPaths(node, parentPath)]: the paths it pushes, in order. *)
Fixpoint collectPaths (node : TreeNode) (parentPath : str) : Paths :=
  match node with
  | mkNode _ nm t _ _ c =>
      let currentPath :=
        if isEmpty parentPath then nm else parentPath ++ SLASH :: nm in
      match t with
      | folder =>
          appendPaths
            (mkPaths [currentPath] [])
            match c with
            | Some cs =>
                fold_right (fun child acc =>
                              appendPaths (collectPaths child currentPath) acc)
                           (mkPaths [] []) cs
            | None => mkPaths [] []
            end
      | file => mkPaths [] [currentPath]
      end
  end.

Definition collectAll (nodes : list TreeNode) : Paths :=
  fold_right (fun node acc => appendPaths (collectPaths node []) acc)
             (mkPaths [] []) nodes.

(** [path.replace(/\//g, '\\')] *)
Definition toBackslashes (path : str) : str :=
  map (fun c => if (c =? SLASH)%N then 92%N else c) path.

(** The section of a script for one list of paths: nothing when the list is
    empty, otherwise a heading, one command per path and an empty line. *)
Definition scriptSection (heading : str) (command : str -> str) (paths : list str)
  : list str :=
  match paths with
  | [] => []
  | _ :: _ => heading :: map command paths ++ [[]]
  end.

Definition generatePowerShellScript (paths : Paths) : str :=
  join LF
    ([lit "# PowerShell script to create directory structure";
      lit "# Run this script in PowerShell";
      []]
     ++ scriptSection (lit "# Create directories")
          (fun folder => lit "New-Item -ItemType Directory -Force -Path "
                         ++ [34%N] ++ toBackslashes folder ++ [34%N]
                         ++ lit " | Out-Null")
          (folders paths)
     ++ scriptSection (lit "# Create files")
          (fun file => lit "New-Item -ItemType File -Force -Path "
                       ++ [34%N] ++ toBackslashes file ++ [34%N]
                       ++ lit " | Out-Null")
          (files paths)
     ++ [lit "Write-Host " ++ [34%N]
         ++ lit "Directory structure created successfully!" ++ [34%N]
         ++ lit " -ForegroundColor Green"]).

Definition generateCmdScript (paths : Paths) : str :=
  join LF
    ([lit "@echo off";
      lit "REM Batch script to create directory structure";
      lit "REM Run this script in Command Prompt";
      []]
     ++ scriptSection (lit "REM Create directories")
          (fun folder => lit "mkdir " ++ [34%N] ++ toBackslashes folder
                         ++ [34%N] ++ lit " 2>nul")
          (folders paths)
     ++ scriptSection (lit "REM Create files")
          (fun file => lit "type nul > " ++ [34%N] ++ toBackslashes file
                       ++ [34%N])
          (files paths)
     ++ [lit "echo Directory structure created successfully!"]).

Definition generateBashScript (paths : Paths) : str :=
  join LF
    ([lit "#!/bin/bash";
      lit "# Bash script to create directory structure";
      lit "# Run: chmod +x script.sh && ./script.sh";
      []]
     ++ scriptSection (lit "# Create directories")
          (fun folder => lit "mkdir -p " ++ [34%N] ++ folder ++ [34%N])
          (folders paths)
     ++ scriptSection (lit "# Create files")
          (fun file => lit "touch " ++ [34%N] ++ file ++ [34%N])
          (files paths)
     ++ [lit "echo " ++ [34%N]
         ++ lit "Directory structure created successfully!" ++ [34%N]]).

Definition generateZshScript (paths : Paths) : str :=
  join LF
    ([lit "#!/bin/zsh";
      lit "# Zsh script to create directory structure";
      lit "# Run: chmod +x script.sh && ./script.sh";
      []]
     ++ scriptSection (lit "# Create directories")
          (fun folder => lit "mkdir -p " ++ [34%N] ++ folder ++ [34%N])
          (folders paths)
     ++ scriptSection (lit "# Create files")
          (fun file => lit "touch " ++ [34%N] ++ file ++ [34%N])
          (files paths)
     ++ [lit "print " ++ [34%N]
         ++ lit "Directory structure created successfully!" ++ [34%N]]).

(** [ScriptType] has four values, so the [default] branch that throws is
    never taken. *)
Definition generateScript (nodes : list TreeNode) (scriptType : ScriptType) : str :=
  let paths := collectAll nodes in
  match scriptType with
  | powershell => generatePowerShellScript paths
  | cmd => generateCmdScript paths
  | bash => generateBashScript paths
  | zsh => generateZshScript paths
  end.

(* ================================================================== *)
(** * The handlers of the tree view ([components/TreeView],
      [components/TreeNode]) and their wiring ([app/page]) *)
(* ================================================================== *)

(** [e.key], as far as the handlers tell keys apart. *)
Inductive Key : Type :=
| KeyEnter | KeySpace | KeyF2 | KeyArrowRight | KeyArrowLeft
| KeyArrowDown | KeyArrowUp | KeyHome | KeyEnd | KeyOther.

(** [flatNodes.findIndex(p)]: the first index that satisfies [p], or -1. *)
Fixpoint findIndexFrom (p : TreeNode -> bool) (l : list TreeNode) (i : Z) : Z :=
  match l with
  | [] => (-1)%Z
  | x :: r => if p x then i else findIndexFrom p r (i + 1)%Z
  end.

Definition findIndex (p : TreeNode -> bool) (l : list TreeNode) : Z :=
  findIndexFrom p l 0%Z.

(** What a key press of the tree view does: nothing, a call of [onSelect], or
    the [TypeError] of reading [.id] of [undefined]. *)
Inductive Navigation : Type :=
| NotCalled
| Selected (id : str)
| TypeError.

(** [onSelect?.(flatNodes[index].id)] *)
Definition selectAt (flatNodes : list TreeNode) (index : Z) : Navigation :=
  if (index <? 0)%Z then TypeError
  else match nth_error flatNodes (Z.to_nat index) with
       | Some n => Selected (id n)
       | None => TypeError
       end.

(** [handleKeyDown] of [TreeView]. *)
Definition treeViewKeyDown (nodes : list TreeNode) (selectedNodeId : option str)
  (key : Key) : Navigation :=
  match nodes with
  | [] => NotCalled
  | _ :: _ =>
      let flatNodes := flattenNodes nodes in
      let currentIndex :=
        findIndex (fun n => option_str_eqb selectedNodeId (id n)) flatNodes in
      let len := Z.of_nat (length flatNodes) in
      match key with
      | KeyArrowDown => selectAt flatNodes (Z.min (currentIndex + 1) (len - 1))
      | KeyArrowUp => selectAt flatNodes (Z.max (currentIndex - 1) 0)
      | KeyHome => selectAt flatNodes 0
      | KeyEnd => selectAt flatNodes (len - 1)
      | _ => NotCalled
      end
  end.

(** What a key press on a node does: nothing, a call of [onToggleExpand], or
    the start of an edit of the name (local state of the component). *)
Inductive NodeCall : Type :=
| NoCall
| CallToggle (id : str)
| StartEditing (editValue : str).

(** [handleKeyDown] of [TreeNode]; [isExpanded] is [node.isExpanded ?? false]. *)
Definition nodeKeyDown (isEditing : bool) (node : TreeNode) (key : Key) : NodeCall :=
  if isEditing then NoCall
  else
    let isFolder := NodeType_eqb (type node) folder in
    let expanded := truthy (isExpanded node) in
    match key with
    | KeyEnter | KeySpace => if isFolder then CallToggle (id node) else NoCall
    | KeyF2 => StartEditing (name node)
    | KeyArrowRight =>
        if isFolder && negb expanded then CallToggle (id node) else NoCall
    | KeyArrowLeft =>
        if isFolder && expanded then CallToggle (id node) else NoCall
    | _ => NoCall
    end.

(** [handleEditComplete] of [TreeNode]: the call of [onRename], if any. *)
Definition handleEditComplete (node : TreeNode) (editValue : str)
  : option (str * str) :=
  let trimmedValue := trim editValue in
  if isEmpty trimmedValue then None
  else if negb (str_eqb trimmedValue (name node))
       then Some (id node, trimmedValue)
       else None.

(** The page passes [toggleExpand] and [renameNode] of the hook as
    [onToggleExpand] and [onRename]: the state after a key on a node, and
    after the end of an edit. *)
Definition afterNodeKey (state : TreeState) (node : TreeNode) (key : Key)
  : TreeState :=
  match nodeKeyDown false node key with
  | CallToggle i => treeReducer state (TOGGLE_EXPAND i)
  | _ => state
  end.

Definition afterEdit (state : TreeState) (node : TreeNode) (editValue : str)
  : TreeState :=
  match handleEditComplete node editValue with
  | Some (i, newName) => treeReducer state (RENAME_NODE i newName)
  | None => state
  end.

(* ================================================================== *)
(** * Vocabulary of the statements *)
(* ================================================================== *)

(** ** Edits *)

(** The node with its [isExpanded] flag negated and nothing else changed. *)
Definition flipExpanded (n : TreeNode) : TreeNode :=
  mkNode (id n) (name n) (type n) (depth n)
         (Some (negb (truthy (isExpanded n)))) (children n).

(** The fields of a node other than its children. *)
Definition own_fields (n : TreeNode) : str * str * NodeType * Z * option bool :=
  (id n, name n, type n, depth n, isExpanded n).

(** [q] is [p] or a position above [p]. *)
Fixpoint is_prefix (q p : list nat) : bool :=
  match q, p with
  | [], _ => true
  | j :: q', i :: p' => (j =? i)%nat && is_prefix q' p'
  | _ :: _, [] => false
  end.

(** A small state used to instantiate the statements:
    a folder [src] (id 1) holding the file [index.ts] (id 2), followed by the
    file [README.md] (id 3); the folder is selected. *)
Definition sample_index : TreeNode :=
  mkNode (lit "2") (lit "index.ts") file 1 None None.
Definition sample_src : TreeNode :=
  mkNode (lit "1") (lit "src") folder 0 (Some true) (Some [sample_index]).
Definition sample_readme : TreeNode :=
  mkNode (lit "3") (lit "README.md") file 0 None None.
Definition sample_state : TreeState :=
  mkState [sample_src; sample_readme] (Some (lit "1")).

(** ** Inputs *)

(** The two worked examples of the specification. *)
Definition markdown_example : str := join LF [lit "- src/"; lit "  - index.ts"].

Definition ascii_example : str :=
  join LF [lit "project/"; lit "├── src/"; lit "│   └── index.ts";
           lit "└── package.json"].

(** An input that has a bullet line and a branch connector. *)
Definition mixed_input : str :=
  join LF [lit "- docs/"; lit "├── notes.md"].

(** ** Reasons *)



(** ** The sanitizer as it is described *)

Definition isAsciiAlnum (c : char) : bool :=
  (((97 <=? c) && (c <=? 122)) || ((65 <=? c) && (c <=? 90))
   || ((48 <=? c) && (c <=? 57)))%N.

(** An alphanumeric character, the path separator, the hyphen or the period. *)
Definition described_content (c : char) : bool :=
  (isAsciiAlnum c || (c =? SLASH) || (c =? DASH) || (c =? 46))%N.

(** The same with the underscore added. *)
Definition amended_content (c : char) : bool :=
  (described_content c || (c =? 95))%N.

(** The line rule in the words of the description: a comment line is dropped;
    otherwise the text before the first comment marker is kept, unless its
    trimmed form is empty or has no content character. *)
Definition described_line (content : char -> bool) (line : str) : option str :=
  if startsWith (trim line) [HASH] then None
  else
    let rest := takeWhile (fun c => negb (c =? HASH)%N) line in
    if isEmpty (trim rest) then None
    else if existsb content (trim rest) then Some rest
    else None.

(** The kept lines, joined by newline. *)
Definition described_sanitize (content : char -> bool) (input : str) : str :=
  join LF (flat_map (fun line => match described_line content line with
                                 | Some kept => [kept]
                                 | None => []
                                 end)
                    (split LF input)).

(** ** Depths *)



Definition depth_step (g : Z) (f : list TreeNode) : Prop :=
  forall parent child : TreeNode,
    In parent (forest_nodes f) -> In child (kids parent) ->
    (depth parent + g <= depth child)%Z.

(** The depth rule of the data model: roots at depth 0, a child one deeper
    than its parent. *)
Definition roots_at_zero (f : list TreeNode) : Prop :=
  forall r, In r f -> depth r = 0%Z.

Definition child_one_deeper (f : list TreeNode) : Prop :=
  forall parent child : TreeNode,
    In parent (forest_nodes f) -> In child (kids parent) ->
    depth child = (depth parent + 1)%Z.

Definition depth_exact (f : list TreeNode) : Prop :=
  roots_at_zero f /\ child_one_deeper f.

(** ** The invariant of the construction *)

(** The step [alter_at] applies at index [i] on the way to [p]. *)
Definition push_step (c : TreeNode) (p : list nat) (n : TreeNode) : TreeNode :=
  match p with
  | [] => pushChild c n
  | _ :: _ => match children n with
              | Some cs => with_children n (Some (alter_at (pushChild c) p cs))
              | None => n
              end
  end.

(** Own fields of a node that a push elsewhere never changes. *)
Definition same_own (n n' : TreeNode) : Prop :=
  depth n' = depth n /\ (children n <> None -> children n' <> None).







(** ** Invariants of the data model *)

(** A file has no [children]. *)
Definition files_are_leaves (f : list TreeNode) : Prop :=
  forall n, In n (forest_nodes f) -> type n = file -> children n = None.

(** [n'] is [n] up to its name, its flag and the content of its children. *)
Definition same_kind (n n' : TreeNode) : Prop :=
  id n' = id n /\ type n' = type n /\ depth n' = depth n
  /\ (children n' = None <-> children n = None).

(** The shape of the three edits: a map over a filtered list. *)
Definition edited (h : TreeNode -> TreeNode) (q : TreeNode -> bool)
  (f : list TreeNode) : list TreeNode :=
  map h (filter q f).

(** Every root, node and edge of [f'] comes from one of [f]. *)
Definition drawn_from (f f' : list TreeNode) : Prop :=
  (forall r', In r' f' -> exists r, In r f /\ same_kind r r')
  /\ (forall n', In n' (forest_nodes f') ->
                 exists n, In n (forest_nodes f) /\ same_kind n n')
  /\ (forall p' c', In p' (forest_nodes f') -> In c' (kids p') ->
                    exists p c, In p (forest_nodes f) /\ In c (kids p)
                                /\ same_kind p p' /\ same_kind c c').

(** ** Document order *)

(** [p] follows the last child at every level of [f]. *)
Fixpoint rightmost (p : list nat) (f : list TreeNode) : Prop :=
  match p with
  | [] => False
  | i :: p' =>
      S i = length f
      /\ match p' with
         | [] => True
         | _ :: _ => match nth_error f i with
                     | Some n => rightmost p' (kids n)
                     | None => False
                     end
         end
  end.

(** An open folder is on the right edge of the forest built so far, and the
    frames of the stack are nested, the innermost on top. *)
Definition open_ok (root : list TreeNode) (fr : Frame) : Prop :=
  rightmost (node_ref fr) root
  /\ exists n, node_at (node_ref fr) root = Some n /\ children n <> None.

Fixpoint nested (stack : list Frame) : Prop :=
  match stack with
  | fr1 :: rest =>
      Forall (fun fr => length (node_ref fr) < length (node_ref fr1))%nat rest
      /\ nested rest
  | [] => True
  end.

(** The nodes built so far carry the ids generated so far, in order. *)
Definition order_ok (generateId : nat -> str) (st : Builder) : Prop :=
  ids (root st) = map generateId (seq 0 (created st))
  /\ Forall (open_ok (root st)) (stack st)
  /\ nested (stack st).

(** What every node of a parsed forest satisfies: the flag is set, the
    [children] array is there exactly for a folder, the depth is not
    negative. *)
Definition parsed_node (n : TreeNode) : Prop :=
  isExpanded n = Some true
  /\ (type n = folder <-> children n <> None)
  /\ (0 <= depth n)%Z.

(** The state after a first line that opens the un-prefixed root [name]. *)
Definition opened_root (generateId : nat -> str) (name : str) : Builder :=
  mkBuilder [mkNode (generateId 0%nat) (dropLast name) folder 0 (Some true)
                    (Some [])]
            [mkFrame [0%nat] (-1)]
            1.

(** The line is empty or ends with a line terminator (a carriage return, for
    a text with Windows line ends). *)
Definition ends_with_terminator (line : str) : Prop :=
  line = [] \/ isLineTerminator (last line 0%N) = true.

(** What the text of a tree shows: the names, the kinds and the nesting. *)
Fixpoint outline (n : TreeNode) : TreeNode :=
  match n with
  | mkNode _ nm t _ _ c =>
      mkNode [] nm t 0 None
             (Some match c with
                   | Some cs => map outline cs
                   | None => []
                   end)
  end.

(** The line of a node in the Markdown text, after its indentation. *)
Definition bullet (n : TreeNode) : str :=
  lit "- " ++ name n ++ suffixOf (type n).

(** Every path of the list [l] is one of [tops], or is [d/name] for a path
    [d] that is in [seen] or earlier in [l]. *)
Fixpoint created_in_order (tops seen l : list str) : Prop :=
  match l with
  | [] => True
  | p :: r =>
      (In p tops \/ exists d nm, In d seen /\ p = d ++ SLASH :: nm)
      /\ created_in_order tops (p :: seen) r
  end.

(** ** Names that survive the way through a text *)

(** A name as the parsers return it: trimmed, on one line, and free of the
    comment marker and of the box-drawing glyphs. *)
Definition plain_name (nm : str) : Prop :=
  trim nm = nm
  /\ forallb (fun c => negb (isLineTerminator c)) nm = true
  /\ ~ In HASH nm
  /\ (forall c, In [c] asciiChars -> ~ In c nm).

(** A node whose line reads back as the same node: a plain name, and for a
    file no slash at the end of the name and no children. *)
Definition text_safe (n : TreeNode) : Prop :=
  plain_name (name n)
  /\ (type n = file -> endsWith (name n) [SLASH] = false /\ kids n = []).

(** Where a new node goes: to the end of the root list when no folder is
    open, otherwise to the end of the children of the innermost open
    folder. *)
Definition place (base : list Frame) (root : list TreeNode) (b : TreeNode)
  : list TreeNode :=
  match base with
  | [] => root ++ [b]
  | fr :: _ => alter_at (pushChild b) (node_ref fr) root
  end.

Definition ref_in (base : list Frame) (root : list TreeNode) : list nat :=
  match base with
  | [] => [length root]
  | fr :: _ => child_ref (node_ref fr) root
  end.

(** The innermost open folder is there, has a [children] array and is
    indented less than [key]. *)
Definition base_ok (key : Z) (root : list TreeNode) (base : list Frame) : Prop :=
  match base with
  | [] => True
  | fr :: _ =>
      (indent fr < key)%Z
      /\ exists parent cs,
           node_at (node_ref fr) root = Some parent /\ children parent = Some cs
  end.

(** ** The lines of the ASCII text *)

(** The connector of a node and the piece of prefix it gives its children. *)
Definition connector (isLast : bool) : str :=
  Eval vm_compute in if isLast then lit "└── " else lit "├── ".

Definition rail (isLast : bool) : str :=
  Eval vm_compute in if isLast then lit "    " else lit "│   ".

Definition rails (lasts : list bool) : str := concat (map rail lasts).

(** A node whose ASCII line reads back as the same node: as for the Markdown
    text, and moreover the name has no run of four spaces (it would read as a
    piece of prefix) and the line has a character of the class that the
    sanitizer asks for (a folder line has its slash). *)
Definition ascii_safe (n : TreeNode) : Prop :=
  text_safe n
  /\ includes (name n) (lit "    ") = false
  /\ (type n = file -> existsb isContentChar (name n) = true).

(** What reading the lines of the subtree [c], printed below the prefix
    [rails lasts], does to the parser state: it places one node with the
    outline of [c] below the innermost open folder, and leaves open only
    folders of that subtree. *)
Definition reads_subtree (generateId : nat -> str) (lasts : list bool)
  (c : TreeNode) : Prop :=
  forall isLast acc popped base,
    stack (fst acc) = popped ++ base ->
    Forall (fun fr => (Z.of_nat (length lasts) <= indent fr)%Z) popped ->
    base_ok (Z.of_nat (length lasts)) (root (fst acc)) base ->
    exists b popped',
      outline b = outline c
      /\ root (fst (fold_left (asciiLine generateId)
                              (asciiTraverse c (rails lasts) isLast) acc))
         = place base (root (fst acc)) b
      /\ stack (fst (fold_left (asciiLine generateId)
                               (asciiTraverse c (rails lasts) isLast) acc))
         = popped' ++ base
      /\ Forall (fun fr => (Z.of_nat (length lasts) <= indent fr)%Z) popped'.

(* ================================================================== *)
(** * Strings: basic facts *)
(* ================================================================== *)

Lemma lit_glyphs : lit "├└│─" = [9500; 9492; 9474; 9472]%N.
Proof. reflexivity. Qed.

Lemma str_eqb_eq (a b : str) : str_eqb a b = true <-> a = b.
Proof.
  revert b; induction a as [|x a IH]; intros [|y b]; simpl;
    try (split; [discriminate | congruence]); try tauto.
  rewrite andb_true_iff, N.eqb_eq, IH. split.
  - intros [-> ->]; reflexivity.
  - intros E; injection E; auto.
Qed.

Lemma str_eqb_refl (a : str) : str_eqb a a = true.
Proof. apply str_eqb_eq; reflexivity. Qed.

Lemma str_eqb_neq (a b : str) : str_eqb a b = false <-> a <> b.
Proof.
  rewrite <- str_eqb_eq. destruct (str_eqb a b); split; congruence.
Qed.

(* ================================================================== *)
(** * The tree model: induction and the node lists *)
(* ================================================================== *)

Lemma kids_forest_ind (P : list TreeNode -> Prop) :
  P [] ->
  (forall n rest, P (kids n) -> P rest -> P (n :: rest)) ->
  forall n, P (kids n).
Proof.
  intros H0 Hc. fix IH 1.
  intros [i nm t d e [cs|]]; unfold kids; simpl; [|exact H0].
  induction cs as [|c cs IHcs]; [exact H0|].
  apply Hc; [apply IH | exact IHcs].
Qed.

Lemma forest_ind (P : list TreeNode -> Prop) :
  P [] ->
  (forall n rest, P (kids n) -> P rest -> P (n :: rest)) ->
  forall f, P f.
Proof.
  intros H0 Hc f. induction f as [|n rest IH]; [exact H0|].
  apply Hc; [apply kids_forest_ind; assumption | exact IH].
Qed.

Lemma subtree_eq (n : TreeNode) : subtree n = n :: forest_nodes (kids n).
Proof. destruct n as [i nm t d e [cs|]]; reflexivity. Qed.

Lemma forest_nodes_cons (n : TreeNode) (rest : list TreeNode) :
  forest_nodes (n :: rest) = n :: forest_nodes (kids n) ++ forest_nodes rest.
Proof. unfold forest_nodes at 1; simpl. rewrite subtree_eq. reflexivity. Qed.

Lemma ids_cons (n : TreeNode) (rest : list TreeNode) :
  ids (n :: rest) = id n :: ids (kids n) ++ ids rest.
Proof.
  unfold ids. rewrite forest_nodes_cons. simpl. rewrite map_app. reflexivity.
Qed.

Lemma subtree_trans (d n : TreeNode) (f : list TreeNode) :
  In n (forest_nodes f) -> In d (subtree n) -> In d (forest_nodes f).
Proof.
  revert f. apply (forest_ind (fun f =>
    In n (forest_nodes f) -> In d (subtree n) -> In d (forest_nodes f))).
  - intros [].
  - intros x rest IHk IHr Hn Hd. rewrite forest_nodes_cons in *.
    destruct Hn as [-> | Hn].
    + rewrite subtree_eq in Hd. destruct Hd as [-> | Hd]; [left; reflexivity|].
      right. apply in_or_app. left. exact Hd.
    + right. apply in_or_app. apply in_app_or in Hn. destruct Hn as [Hn | Hn].
      * left. apply IHk; assumption.
      * right. apply IHr; assumption.
Qed.

Lemma in_ids (n : TreeNode) (f : list TreeNode) :
  In n (forest_nodes f) -> In (id n) (ids f).
Proof. apply in_map. Qed.

Lemma NoDup_map_inj (A B : Type) (g : A -> B) (l : list A) (a b : A) :
  NoDup (map g l) -> In a l -> In b l -> g a = g b -> a = b.
Proof.
  induction l as [|x l IH]; simpl; [intros _ []|].
  intros ND Ha Hb E. inversion ND as [|? ? Hx ND']; subst.
  destruct Ha as [-> | Ha], Hb as [-> | Hb]; auto.
  - exfalso. apply Hx. rewrite E. apply in_map. exact Hb.
  - exfalso. apply Hx. rewrite <- E. apply in_map. exact Ha.
Qed.

Lemma NoDup_ids_cons (n : TreeNode) (rest : list TreeNode) :
  NoDup (ids (n :: rest)) ->
  ~ In (id n) (ids (kids n)) /\ ~ In (id n) (ids rest) /\
  NoDup (ids (kids n)) /\ NoDup (ids rest) /\
  (forall x, In x (ids (kids n)) -> ~ In x (ids rest)).
Proof.
  rewrite ids_cons. intros ND. inversion ND as [|? ? Hn ND']; subst.
  repeat split.
  - intros H; apply Hn, in_or_app; left; exact H.
  - intros H; apply Hn, in_or_app; right; exact H.
  - apply NoDup_app_remove_r in ND'. exact ND'.
  - apply NoDup_app_remove_l in ND'. exact ND'.
  - intros x Hk Hr. revert ND' Hk Hr. generalize (ids (kids n)) as l.
    induction l as [|y l IH]; simpl; [intros _ []|].
    intros ND1 [-> | Hk] Hr; inversion ND1; subst.
    + match goal with H : ~ In x (l ++ _) |- _ => apply H end.
      apply in_or_app; right; exact Hr.
    + eapply IH; eauto.
Qed.

(* ================================================================== *)
(** * The tree-state engine: the recursion equations of the source *)
(* ================================================================== *)

Lemma deleteIn_eq (targetId : str) (node : TreeNode) :
  deleteIn targetId node =
  match children node with
  | Some cs => with_children node (Some (deleteNode cs targetId))
  | None => node
  end.
Proof.
  destruct node as [i n t d e [cs|]]; simpl; [|reflexivity].
  unfold with_children; simpl. do 2 f_equal. unfold deleteNode.
  induction cs as [|x r IH]; simpl; [reflexivity|].
  destruct (negb (str_eqb (id x) targetId)); simpl; rewrite IH; reflexivity.
Qed.

Lemma deleteNode_cons (n : TreeNode) (rest : list TreeNode) (targetId : str) :
  deleteNode (n :: rest) targetId =
  if str_eqb (id n) targetId then deleteNode rest targetId
  else deleteIn targetId n :: deleteNode rest targetId.
Proof. unfold deleteNode; simpl. destruct (str_eqb (id n) targetId); reflexivity. Qed.

Lemma kids_deleteIn (targetId : str) (n : TreeNode) :
  kids (deleteIn targetId n) = deleteNode (kids n) targetId.
Proof.
  rewrite deleteIn_eq. destruct n as [i nm t d e [cs|]]; reflexivity.
Qed.

Lemma id_deleteIn (targetId : str) (n : TreeNode) :
  id (deleteIn targetId n) = id n.
Proof. rewrite deleteIn_eq. destruct n as [i nm t d e [cs|]]; reflexivity. Qed.

Lemma findIn_eq (targetId : str) (node : TreeNode) :
  findIn targetId node =
  if str_eqb (id node) targetId then Some node
  else match children node with
       | Some cs => findNodeById cs targetId
       | None => None
       end.
Proof.
  destruct node as [i n t d e [cs|]]; simpl; [|reflexivity].
  destruct (str_eqb i targetId); [reflexivity|].
  induction cs as [|x r IH]; simpl; [reflexivity|].
  destruct (findIn targetId x); [reflexivity | exact IH].
Qed.

Lemma findNodeById_None (f : list TreeNode) (targetId : str) :
  findNodeById f targetId = None <-> ~ In targetId (ids f).
Proof.
  revert f. apply (forest_ind (fun f =>
    findNodeById f targetId = None <-> ~ In targetId (ids f))).
  - simpl. split; auto.
  - intros n rest IHk IHr. rewrite ids_cons. simpl. rewrite findIn_eq.
    destruct (str_eqb (id n) targetId) eqn:E.
    + apply str_eqb_eq in E. split; [discriminate|]. intros H; exfalso; apply H; auto.
    + apply str_eqb_neq in E.
      assert (K : match children n with
                  | Some cs => findNodeById cs targetId
                  | None => None
                  end = findNodeById (kids n) targetId).
      { unfold kids; destruct (children n); reflexivity. }
      rewrite K. destruct (findNodeById (kids n) targetId) eqn:F.
      * split; [discriminate|]. intros H; exfalso.
        assert (G : ~ In targetId (ids (kids n))).
        { intros G; apply H; right; apply in_or_app; left; exact G. }
        apply IHk in G. discriminate.
      * rewrite IHr. split.
        -- intros H [G | G]; [congruence|]. apply in_app_or in G.
           destruct G as [G | G]; [|contradiction].
           destruct IHk as [IHk _]. apply IHk; auto.
        -- intros H G. apply H. right. apply in_or_app. right. exact G.
Qed.

Lemma findNodeById_Some (f : list TreeNode) (targetId : str) (n : TreeNode) :
  findNodeById f targetId = Some n -> In n (forest_nodes f) /\ id n = targetId.
Proof.
  revert f. apply (forest_ind (fun f =>
    findNodeById f targetId = Some n -> In n (forest_nodes f) /\ id n = targetId)).
  - discriminate.
  - intros x rest IHk IHr. rewrite forest_nodes_cons. simpl. rewrite findIn_eq.
    destruct (str_eqb (id x) targetId) eqn:E.
    + apply str_eqb_eq in E. intros H; injection H as <-. auto.
    + assert (K : match children x with
                  | Some cs => findNodeById cs targetId
                  | None => None
                  end = findNodeById (kids x) targetId).
      { unfold kids; destruct (children x); reflexivity. }
      rewrite K. destruct (findNodeById (kids x) targetId) eqn:F.
      * intros H; injection H as ->. destruct (IHk eq_refl) as [H1 H2].
        split; [|exact H2]. right. apply in_or_app. left. exact H1.
      * intros H. destruct (IHr H) as [H1 H2].
        split; [|exact H2]. right. apply in_or_app. right. exact H1.
Qed.

(* ================================================================== *)
(** * Delete *)
(* ================================================================== *)

Lemma ids_deleteNode_incl (f : list TreeNode) (targetId x : str) :
  In x (ids (deleteNode f targetId)) -> In x (ids f).
Proof.
  revert f. apply (forest_ind (fun f =>
    In x (ids (deleteNode f targetId)) -> In x (ids f))).
  - intros [].
  - intros n rest IHk IHr. rewrite deleteNode_cons, ids_cons.
    destruct (str_eqb (id n) targetId).
    + intros H. right. apply in_or_app. right. auto.
    + rewrite ids_cons, kids_deleteIn, id_deleteIn. intros [H | H]; [left; exact H|].
      right. apply in_or_app. apply in_app_or in H. destruct H; auto.
Qed.

Lemma deleteNode_target_gone (f : list TreeNode) (targetId : str) :
  ~ In targetId (ids (deleteNode f targetId)).
Proof.
  revert f. apply (forest_ind (fun f => ~ In targetId (ids (deleteNode f targetId)))).
  - intros [].
  - intros n rest IHk IHr. rewrite deleteNode_cons.
    destruct (str_eqb (id n) targetId) eqn:E; [exact IHr|].
    apply str_eqb_neq in E. rewrite ids_cons, kids_deleteIn, id_deleteIn.
    intros [H | H]; [congruence|]. apply in_app_or in H. destruct H; auto.
Qed.

(** With pairwise distinct ids, nothing at or below a node that carries the
    target id keeps its id in the forest after the deletion. *)
Lemma deleteNode_subtree_gone (targetId : str) (n d : TreeNode) (f : list TreeNode) :
  NoDup (ids f) ->
  In n (forest_nodes f) -> id n = targetId -> In d (subtree n) ->
  ~ In (id d) (ids (deleteNode f targetId)).
Proof.
  intros ND Hn Hid Hd. revert f ND Hn.
  apply (forest_ind (fun f =>
    NoDup (ids f) -> In n (forest_nodes f) ->
    ~ In (id d) (ids (deleteNode f targetId)))).
  - intros _ [].
  - intros x rest IHk IHr ND Hn.
    destruct (NoDup_ids_cons _ _ ND) as (Hxk & Hxr & NDk & NDr & Hdisj).
    rewrite forest_nodes_cons in Hn. rewrite deleteNode_cons.
    destruct Hn as [-> | Hn].
    + (* the target is [x] itself *)
      rewrite Hid, str_eqb_refl. intros H. apply ids_deleteNode_incl in H.
      rewrite subtree_eq in Hd. destruct Hd as [<- | Hd]; [contradiction|].
      exact (Hdisj _ (in_ids _ _ Hd) H).
    + apply in_app_or in Hn. destruct Hn as [Hn | Hn].
      * (* the target is below [x] *)
        assert (Hdk : In d (forest_nodes (kids x))) by (eapply subtree_trans; eauto).
        assert (Ex : id x <> targetId).
        { intros E. apply Hxk. rewrite E, <- Hid. apply in_ids. exact Hn. }
        apply str_eqb_neq in Ex. rewrite Ex.
        rewrite ids_cons, kids_deleteIn, id_deleteIn. intros [H | H].
        -- apply Hxk. rewrite H. apply in_ids. exact Hdk.
        -- apply in_app_or in H. destruct H as [H | H].
           ++ exact (IHk NDk Hn H).
           ++ apply ids_deleteNode_incl in H. exact (Hdisj _ (in_ids _ _ Hdk) H).
      * (* the target is in a later sibling tree *)
        assert (Hdr : In d (forest_nodes rest)) by (eapply subtree_trans; eauto).
        assert (Ex : id x <> targetId).
        { intros E. apply Hxr. rewrite E, <- Hid. apply in_ids. exact Hn. }
        apply str_eqb_neq in Ex. rewrite Ex.
        rewrite ids_cons, kids_deleteIn, id_deleteIn. intros [H | H].
        -- apply Hxr. rewrite H. apply in_ids. exact Hdr.
        -- apply in_app_or in H. destruct H as [H | H].
           ++ apply ids_deleteNode_incl in H. exact (Hdisj _ H (in_ids _ _ Hdr)).
           ++ exact (IHr NDr Hn H).
Qed.

(** A node that is neither a node carrying the target id nor below one keeps
    its id in the forest. *)
Lemma deleteNode_others_kept (targetId : str) (m : TreeNode) (f : list TreeNode) :
  In m (forest_nodes f) ->
  (forall a, In a (forest_nodes f) -> id a = targetId -> ~ In m (subtree a)) ->
  In (id m) (ids (deleteNode f targetId)).
Proof.
  revert f. apply (forest_ind (fun f =>
    In m (forest_nodes f) ->
    (forall a, In a (forest_nodes f) -> id a = targetId -> ~ In m (subtree a)) ->
    In (id m) (ids (deleteNode f targetId)))).
  - intros [].
  - intros x rest IHk IHr Hm Hout. rewrite deleteNode_cons.
    assert (Hrest : In m (forest_nodes rest) -> In (id m) (ids (deleteNode rest targetId))).
    { intros H. apply IHr; [exact H|]. intros a Ha. apply Hout.
      rewrite forest_nodes_cons. right. apply in_or_app. right. exact Ha. }
    rewrite forest_nodes_cons in Hm.
    assert (Hsub : In m (subtree x) \/ In m (forest_nodes rest)).
    { rewrite subtree_eq. destruct Hm as [H | H]; [left; left; exact H|].
      apply in_app_or in H. destruct H; [left; right; assumption | right; assumption]. }
    destruct (str_eqb (id x) targetId) eqn:E.
    + apply str_eqb_eq in E. destruct Hsub as [H | H]; [|auto].
      exfalso. apply (Hout x); [rewrite forest_nodes_cons; left; reflexivity | exact E | exact H].
    + rewrite ids_cons, kids_deleteIn, id_deleteIn.
      destruct Hsub as [H | H].
      * rewrite subtree_eq in H. destruct H as [-> | H]; [left; reflexivity|].
        right. apply in_or_app. left. apply IHk; [exact H|].
        intros a Ha. apply Hout. rewrite forest_nodes_cons. right.
        apply in_or_app. left. exact Ha.
      * right. apply in_or_app. right. auto.
Qed.

(* ================================================================== *)
(** * Toggle and rename *)
(* ================================================================== *)

Lemma toggleNode_eq (targetId : str) (node : TreeNode) :
  toggleNode targetId node =
  if str_eqb (id node) targetId && NodeType_eqb (type node) folder
  then flipExpanded node
  else match children node with
       | Some cs => with_children node (Some (toggleNodeExpand cs targetId))
       | None => node
       end.
Proof. destruct node as [i n t d e [cs|]]; reflexivity. Qed.

Lemma renameOne_eq (targetId newName : str) (node : TreeNode) :
  renameOne targetId newName node =
  if str_eqb (id node) targetId
  then mkNode (id node) newName (type node) (depth node) (isExpanded node)
              (children node)
  else match children node with
       | Some cs => with_children node (Some (renameNode cs targetId newName))
       | None => node
       end.
Proof. destruct node as [i n t d e [cs|]]; reflexivity. Qed.

Lemma with_children_same (n : TreeNode) (cs : list TreeNode) :
  children n = Some cs -> with_children n (Some cs) = n.
Proof. destruct n; simpl; intros ->; reflexivity. Qed.

Lemma toggle_noop (targetId : str) (f : list TreeNode) :
  (forall n, In n (forest_nodes f) -> id n = targetId -> type n = file) ->
  toggleNodeExpand f targetId = f.
Proof.
  revert f. apply (forest_ind (fun f =>
    (forall n, In n (forest_nodes f) -> id n = targetId -> type n = file) ->
    toggleNodeExpand f targetId = f)).
  - reflexivity.
  - intros x rest IHk IHr H. unfold toggleNodeExpand in *. simpl. f_equal.
    + rewrite toggleNode_eq.
      assert (G : str_eqb (id x) targetId && NodeType_eqb (type x) folder = false).
      { destruct (str_eqb (id x) targetId) eqn:E; [|reflexivity].
        apply str_eqb_eq in E. rewrite (H x); [reflexivity| |exact E].
        rewrite forest_nodes_cons. left. reflexivity. }
      rewrite G. destruct (children x) as [cs|] eqn:C; [|reflexivity].
      unfold toggleNodeExpand. replace cs with (kids x) by (unfold kids; rewrite C; reflexivity).
      rewrite IHk.
      * apply with_children_same. unfold kids. rewrite C. reflexivity.
      * intros n Hn. apply H. rewrite forest_nodes_cons. right.
        apply in_or_app. left. exact Hn.
    + apply IHr. intros n Hn. apply H. rewrite forest_nodes_cons. right.
      apply in_or_app. right. exact Hn.
Qed.

Lemma toggle_absent (targetId : str) (f : list TreeNode) :
  ~ In targetId (ids f) -> toggleNodeExpand f targetId = f.
Proof.
  intros H. apply toggle_noop. intros n Hn E. exfalso. apply H.
  rewrite <- E. apply in_ids. exact Hn.
Qed.

Lemma rename_noop (targetId newName : str) (f : list TreeNode) :
  (forall n, In n (forest_nodes f) -> id n = targetId -> name n = newName) ->
  renameNode f targetId newName = f.
Proof.
  revert f. apply (forest_ind (fun f =>
    (forall n, In n (forest_nodes f) -> id n = targetId -> name n = newName) ->
    renameNode f targetId newName = f)).
  - reflexivity.
  - intros x rest IHk IHr H. unfold renameNode in *. simpl. f_equal.
    + rewrite renameOne_eq. destruct (str_eqb (id x) targetId) eqn:E.
      * apply str_eqb_eq in E. rewrite <- (H x); [destruct x; reflexivity| |exact E].
        rewrite forest_nodes_cons. left. reflexivity.
      * destruct (children x) as [cs|] eqn:C; [|reflexivity].
        unfold renameNode. replace cs with (kids x) by (unfold kids; rewrite C; reflexivity).
        rewrite IHk.
        -- apply with_children_same. unfold kids. rewrite C. reflexivity.
        -- intros n Hn. apply H. rewrite forest_nodes_cons. right.
           apply in_or_app. left. exact Hn.
    + apply IHr. intros n Hn. apply H. rewrite forest_nodes_cons. right.
      apply in_or_app. right. exact Hn.
Qed.

Lemma list_alter_ext {A : Type} (g h : A -> A) (i : nat) (l : list A) (x : A) :
  nth_error l i = Some x -> g x = h x -> list_alter g i l = list_alter h i l.
Proof.
  revert i; induction l as [|y l IH]; intros [|i]; simpl; try discriminate.
  - intros E; injection E as ->. intros ->. reflexivity.
  - intros E H. f_equal. apply IH; assumption.
Qed.

Lemma nth_error_forest_nodes (f : list TreeNode) (i : nat) (m : TreeNode) :
  nth_error f i = Some m -> In m (forest_nodes f).
Proof.
  revert i; induction f as [|x f IH]; intros [|i]; cbn [nth_error];
    try discriminate.
  - intros E; injection E as ->. rewrite forest_nodes_cons. left. reflexivity.
  - intros E. rewrite forest_nodes_cons. right. apply in_or_app. right. eauto.
Qed.

Lemma node_at_forest_nodes (p : list nat) (f : list TreeNode) (n : TreeNode) :
  node_at p f = Some n -> In n (forest_nodes f).
Proof.
  revert f; induction p as [|i p IH]; intros f; simpl; [discriminate|].
  destruct (nth_error f i) as [m|] eqn:Hi; [|discriminate].
  destruct p as [|j p].
  - intros E; injection E as ->. eapply nth_error_forest_nodes; eauto.
  - intros E. apply IH in E. apply nth_error_forest_nodes in Hi.
    eapply subtree_trans; [exact Hi|]. rewrite subtree_eq. right. exact E.
Qed.

(** With pairwise distinct ids, mapping [toggleNode] over a list only changes
    the tree that holds the target. *)
Lemma toggle_list_at (targetId : str) (f : list TreeNode) (i : nat) (m : TreeNode) :
  NoDup (ids f) -> nth_error f i = Some m -> In targetId (ids [m]) ->
  toggleNodeExpand f targetId = list_alter (toggleNode targetId) i f.
Proof.
  unfold toggleNodeExpand.
  revert i; induction f as [|x f IH]; intros [|i] ND;
    cbn [nth_error map list_alter]; try discriminate.
  - intros E; injection E as ->. intros Hin. f_equal.
    destruct (NoDup_ids_cons _ _ ND) as (Hxk & Hxr & NDk & NDr & Hdisj).
    apply toggle_absent. rewrite ids_cons, app_nil_r in Hin.
    destruct Hin as [<- | Hin]; [exact Hxr | exact (Hdisj _ Hin)].
  - intros E Hin.
    destruct (NoDup_ids_cons _ _ ND) as (Hxk & Hxr & NDk & NDr & Hdisj).
    assert (Hr : In targetId (ids f)).
    { rewrite ids_cons, app_nil_r in Hin. apply nth_error_forest_nodes in E.
      destruct Hin as [<- | Hin]; [apply in_ids; exact E|].
      unfold ids in Hin. apply in_map_iff in Hin. destruct Hin as (d & <- & Hd).
      apply in_ids. eapply subtree_trans; [exact E|]. rewrite subtree_eq.
      right. exact Hd. }
    f_equal; [|apply IH; assumption].
    assert (T : toggleNodeExpand [x] targetId = [x]).
    { apply toggle_absent. rewrite ids_cons, app_nil_r. intros [H | H].
      - apply Hxr. rewrite H. exact Hr.
      - exact (Hdisj _ H Hr). }
    unfold toggleNodeExpand in T. simpl in T. injection T; auto.
Qed.

Lemma toggle_at (targetId : str) (p : list nat) :
  forall (f : list TreeNode) (n : TreeNode),
  NoDup (ids f) -> node_at p f = Some n -> id n = targetId -> type n = folder ->
  toggleNodeExpand f targetId = alter_at flipExpanded p f.
Proof.
  induction p as [|i p IH]; intros f n ND Hat Hid Hty; simpl in Hat;
    [discriminate|].
  destruct (nth_error f i) as [m|] eqn:Hi; [|discriminate].
  destruct p as [|j p].
  - injection Hat as ->. simpl.
    rewrite (toggle_list_at targetId f i n ND Hi).
    + apply (list_alter_ext _ _ _ _ n Hi). rewrite toggleNode_eq, Hid, Hty, str_eqb_refl.
      reflexivity.
    + rewrite ids_cons. left. exact Hid.
  - assert (Hn : In n (forest_nodes (kids m))) by (eapply node_at_forest_nodes; eauto).
    assert (NDm : NoDup (ids [m])).
    { clear -ND Hi. revert i Hi; induction f as [|x f IHf]; intros [|i];
        cbn [nth_error]; try discriminate.
      - intros E; injection E as ->.
        destruct (NoDup_ids_cons _ _ ND) as (Hxk & Hxr & NDk & NDr & Hdisj).
        rewrite ids_cons, app_nil_r. constructor; assumption.
      - intros E. destruct (NoDup_ids_cons _ _ ND) as (Hxk & Hxr & NDk & NDr & Hdisj).
        eauto. }
    destruct (NoDup_ids_cons _ _ NDm) as (Hmk & _ & NDk & _ & _).
    rewrite (toggle_list_at targetId f i m ND Hi).
    + change (alter_at flipExpanded (i :: j :: p) f)
        with (list_alter
                (fun n0 => match children n0 with
                           | Some cs => with_children n0 (Some (alter_at flipExpanded (j :: p) cs))
                           | None => n0
                           end) i f).
      apply (list_alter_ext _ _ _ _ m Hi). rewrite toggleNode_eq.
      assert (Em : str_eqb (id m) targetId = false).
      { apply str_eqb_neq. intros E. apply Hmk. rewrite E, <- Hid. apply in_ids. exact Hn. }
      rewrite Em. simpl. destruct (children m) as [cs|] eqn:C; [|reflexivity].
      assert (K : kids m = cs) by (unfold kids; rewrite C; reflexivity).
      rewrite K in *. rewrite (IH cs n NDk Hat Hid Hty). reflexivity.
    + rewrite ids_cons. right. apply in_or_app. left. rewrite <- Hid.
      apply in_ids. exact Hn.
Qed.

(** What [alter_at] does, position by position: the node at [p] is replaced
    by its image, and a position that is neither [p] nor above or below it
    keeps its node. *)
Lemma list_alter_nth_same {A : Type} (g : A -> A) (i : nat) (l : list A) :
  nth_error (list_alter g i l) i = option_map g (nth_error l i).
Proof.
  revert i; induction l as [|x l IH]; intros [|i]; simpl; auto.
Qed.

Lemma list_alter_nth_other {A : Type} (g : A -> A) (i j : nat) (l : list A) :
  i <> j -> nth_error (list_alter g i l) j = nth_error l j.
Proof.
  revert i j; induction l as [|x l IH]; intros [|i] [|j] H; simpl; auto;
    congruence.
Qed.

Lemma node_at_cons (i : nat) (p : list nat) (f : list TreeNode) :
  node_at (i :: p) f =
  match nth_error f i with
  | None => None
  | Some n => match p with [] => Some n | _ :: _ => node_at p (kids n) end
  end.
Proof. reflexivity. Qed.

Lemma alter_at_cons (g : TreeNode -> TreeNode) (i : nat) (p : list nat)
  (f : list TreeNode) :
  alter_at g (i :: p) f =
  list_alter
    match p with
    | [] => g
    | _ :: _ => fun n => match children n with
                         | Some cs => with_children n (Some (alter_at g p cs))
                         | None => n
                         end
    end i f.
Proof. destruct p; reflexivity. Qed.

Lemma node_at_alter_at_same (g : TreeNode -> TreeNode) (p : list nat) :
  forall (f : list TreeNode) (n : TreeNode),
  node_at p f = Some n -> node_at p (alter_at g p f) = Some (g n).
Proof.
  induction p as [|i p IH]; intros f n; simpl; [discriminate|].
  destruct (nth_error f i) as [m|] eqn:Hi; [|discriminate].
  destruct p as [|j p].
  - intros E; injection E as ->. rewrite list_alter_nth_same, Hi. reflexivity.
  - intros E. rewrite list_alter_nth_same, Hi. simpl.
    destruct (children m) as [cs|] eqn:C.
    + unfold kids in *. rewrite C in E. simpl. apply IH. exact E.
    + unfold kids in E. rewrite C in E. destruct j; discriminate.
Qed.

Lemma node_at_alter_at_off_path (g : TreeNode -> TreeNode) (p : list nat) :
  (forall n, kids (g n) = kids n) ->
  forall (f : list TreeNode) (q : list nat),
  is_prefix q p = false -> node_at q (alter_at g p f) = node_at q f.
Proof.
  intros Hg. induction p as [|i p IH]; intros f q Hq; [reflexivity|].
  destruct q as [|j q]; [discriminate|]. cbn [is_prefix] in Hq.
  rewrite alter_at_cons, !node_at_cons.
  destruct (Nat.eqb_spec j i) as [-> | Hji].
  - rewrite list_alter_nth_same. destruct (nth_error f i) as [m|]; [|reflexivity].
    simpl option_map. cbv iota. simpl in Hq.
    destruct q as [|k q]; [discriminate|].
    destruct p as [|i' p]; [rewrite Hg; reflexivity|].
    destruct (children m) as [cs|] eqn:C; [|reflexivity].
    change (kids (with_children m (Some (alter_at g (i' :: p) cs))))
      with (alter_at g (i' :: p) cs).
    rewrite (IH cs (k :: q) Hq). unfold kids. rewrite C. reflexivity.
  - rewrite list_alter_nth_other by congruence. reflexivity.
Qed.

Lemma node_at_alter_at_above (g : TreeNode -> TreeNode) (p : list nat) :
  forall (f : list TreeNode) (q : list nat) (m : TreeNode),
  is_prefix q p = true -> q <> p -> node_at q f = Some m ->
  exists m', node_at q (alter_at g p f) = Some m' /\ own_fields m' = own_fields m.
Proof.
  induction p as [|i p IH]; intros f q m Hq Hne Hm.
  - destruct q; [discriminate | discriminate].
  - destruct q as [|j q]; [discriminate|]. cbn [is_prefix] in Hq.
    apply andb_true_iff in Hq. destruct Hq as [Hj Hq].
    apply Nat.eqb_eq in Hj. subst j.
    rewrite alter_at_cons, node_at_cons, list_alter_nth_same.
    rewrite node_at_cons in Hm.
    destruct (nth_error f i) as [m0|]; [|discriminate].
    simpl option_map. cbv iota.
    destruct p as [|i' p].
    { destruct q; [congruence | discriminate]. }
    destruct q as [|k q].
    + injection Hm as ->. eexists. split; [reflexivity|].
      destruct (children m); reflexivity.
    + destruct (children m0) as [cs|] eqn:C.
      * change (kids (with_children m0 (Some (alter_at g (i' :: p) cs))))
          with (alter_at g (i' :: p) cs).
        apply IH; [exact Hq | congruence|].
        unfold kids in Hm. rewrite C in Hm. exact Hm.
      * unfold kids in Hm. rewrite C in Hm. destruct k; discriminate.
Qed.

(* ================================================================== *)
(** * The tree-state engine: the properties of the edit operations *)
(* ================================================================== *)

Lemma sample_state_distinct : NoDup (ids (nodes sample_state)).
Proof.
  vm_compute. repeat constructor; simpl; intuition discriminate.
Defined.

(** C5.  [DELETE_NODE]: after the action the target id is no longer findable;
    when the ids of the forest are pairwise distinct, no node of the subtree
    of the node that carried the target id is findable by its id; every node
    outside such a subtree is still findable by its id; and the selection is
    cleared exactly when it was the target. *)
Theorem delete_removes_subtree (state : TreeState) (targetId : str) :
  let state' := treeReducer state (DELETE_NODE targetId) in
  findNodeById (nodes state') targetId = None
  /\ (NoDup (ids (nodes state)) ->
      forall n d : TreeNode,
        In n (forest_nodes (nodes state)) -> id n = targetId ->
        In d (subtree n) ->
        findNodeById (nodes state') (id d) = None)
  /\ (forall m : TreeNode,
        In m (forest_nodes (nodes state)) ->
        (forall a, In a (forest_nodes (nodes state)) -> id a = targetId ->
                   ~ In m (subtree a)) ->
        findNodeById (nodes state') (id m) <> None)
  /\ (selectedNodeId state = Some targetId -> selectedNodeId state' = None)
  /\ (selectedNodeId state <> Some targetId ->
      selectedNodeId state' = selectedNodeId state).
Proof.
  cbn zeta. cbn [treeReducer nodes selectedNodeId]. repeat split.
  - apply findNodeById_None, deleteNode_target_gone.
  - intros ND n d Hn Hid Hd. apply findNodeById_None.
    eapply deleteNode_subtree_gone; eauto.
  - intros m Hm Hout. rewrite findNodeById_None. intros H. apply H.
    apply deleteNode_others_kept; assumption.
  - intros ->. simpl. rewrite str_eqb_refl. reflexivity.
  - intros H. destruct (selectedNodeId state) as [s|]; simpl; [|reflexivity].
    destruct (str_eqb s targetId) eqn:E; [|reflexivity].
    apply str_eqb_eq in E. congruence.
Qed.

Lemma delete_removes_subtree_witness :
  findNodeById (nodes (treeReducer sample_state (DELETE_NODE (lit "1"))))
               (id sample_index) = None
  /\ selectedNodeId (treeReducer sample_state (DELETE_NODE (lit "1"))) = None.
Proof.
  destruct (delete_removes_subtree sample_state (lit "1")) as (_ & Hsub & _ & Hsel & _).
  split.
  - apply (Hsub sample_state_distinct sample_src sample_index).
    + vm_compute. left. reflexivity.
    + reflexivity.
    + vm_compute. right. left. reflexivity.
  - apply Hsel. reflexivity.
Defined.

(** C6.  [TOGGLE_EXPAND]: the selection is untouched.  When the ids are
    pairwise distinct and the node at position [p] carries the target id and
    is a folder, the new forest is the old one with that node replaced by
    [flipExpanded] of it (same id, name, type, depth and children, negated
    flag): every position that is neither [p] nor above [p] holds the node it
    held, and a node above [p] keeps all its own fields.  When no folder
    carries the target id (no node does, or only files do), the state is
    unchanged. *)
Theorem toggle_expand_frame (state : TreeState) (targetId : str) :
  let state' := treeReducer state (TOGGLE_EXPAND targetId) in
  selectedNodeId state' = selectedNodeId state
  /\ (NoDup (ids (nodes state)) ->
      forall (p : list nat) (n : TreeNode),
        node_at p (nodes state) = Some n -> id n = targetId ->
        type n = folder ->
        nodes state' = alter_at flipExpanded p (nodes state)
        /\ node_at p (nodes state') = Some (flipExpanded n)
        /\ (forall q, is_prefix q p = false ->
                      node_at q (nodes state') = node_at q (nodes state))
        /\ (forall q m, is_prefix q p = true -> q <> p ->
                        node_at q (nodes state) = Some m ->
                        exists m', node_at q (nodes state') = Some m'
                                   /\ own_fields m' = own_fields m))
  /\ (~ In targetId (ids (nodes state)) -> state' = state)
  /\ ((forall n, In n (forest_nodes (nodes state)) -> id n = targetId ->
                 type n = file) ->
      state' = state).
Proof.
  cbn zeta. cbn [treeReducer nodes selectedNodeId].
  split; [reflexivity|]. split; [|split].
  - intros ND p n Hat Hid Hty.
    rewrite (toggle_at targetId p (nodes state) n ND Hat Hid Hty).
    split; [reflexivity|]. split; [apply node_at_alter_at_same; exact Hat|].
    split.
    + intros q Hq. apply node_at_alter_at_off_path; [|exact Hq].
      intros m. destruct m as [i nm t d e [cs|]]; reflexivity.
    + intros q m Hq Hne Hm. apply node_at_alter_at_above; assumption.
  - intros H. rewrite toggle_absent by exact H. destruct state; reflexivity.
  - intros H. rewrite toggle_noop by exact H. destruct state; reflexivity.
Qed.

Lemma toggle_expand_frame_witness :
  nodes (treeReducer sample_state (TOGGLE_EXPAND (lit "1")))
  = [flipExpanded sample_src; sample_readme]
  /\ treeReducer sample_state (TOGGLE_EXPAND (lit "2")) = sample_state
  /\ treeReducer sample_state (TOGGLE_EXPAND (lit "9")) = sample_state.
Proof.
  destruct (toggle_expand_frame sample_state (lit "1")) as (_ & Hflip & _).
  destruct (toggle_expand_frame sample_state (lit "2")) as (_ & _ & _ & Hfile).
  destruct (toggle_expand_frame sample_state (lit "9")) as (_ & _ & Hmiss & _).
  split; [|split].
  - exact (proj1 (Hflip sample_state_distinct [0%nat] sample_src
                        eq_refl eq_refl eq_refl)).
  - apply Hfile. vm_compute. intros n [<- | [<- | [<- | []]]]; intros E;
      try reflexivity; discriminate.
  - apply Hmiss. vm_compute. intuition discriminate.
Defined.

(** C9.  [RENAME_NODE] with the name the matched node already has leaves the
    state as it is: whenever every node that carries the target id has the
    new name, and in particular, the ids being pairwise distinct, when the
    new name is the name of the node found under the target id. *)
Theorem rename_to_current_name (state : TreeState) (targetId newName : str) :
  ((forall m, In m (forest_nodes (nodes state)) -> id m = targetId ->
              name m = newName) ->
   treeReducer state (RENAME_NODE targetId newName) = state)
  /\ (NoDup (ids (nodes state)) ->
      forall n, findNodeById (nodes state) targetId = Some n ->
                name n = newName ->
                treeReducer state (RENAME_NODE targetId newName) = state).
Proof.
  assert (G : (forall m, In m (forest_nodes (nodes state)) -> id m = targetId ->
                         name m = newName) ->
              treeReducer state (RENAME_NODE targetId newName) = state).
  { intros H. cbn [treeReducer]. rewrite rename_noop by exact H.
    destruct state; reflexivity. }
  split; [exact G|].
  intros ND n Hfind Hname. apply G.
  destruct (findNodeById_Some _ _ _ Hfind) as [Hn Hid].
  intros m Hm Em. rewrite <- Hname. f_equal.
  apply (NoDup_map_inj _ _ id (forest_nodes (nodes state))); try assumption.
  congruence.
Qed.

Lemma rename_to_current_name_witness :
  treeReducer sample_state (RENAME_NODE (lit "2") (lit "index.ts")) = sample_state.
Proof.
  apply (proj2 (rename_to_current_name sample_state (lit "2") (lit "index.ts"))
               sample_state_distinct sample_index); reflexivity.
Defined.

(* ================================================================== *)
(** * Strings: trimming, splitting and searching *)
(* ================================================================== *)

Lemma dropWhile_nil (p : char -> bool) (s : str) :
  dropWhile p s = [] <-> forallb p s = true.
Proof.
  induction s as [|c s IH]; simpl; [tauto|].
  destruct (p c); simpl; [exact IH|]. split; discriminate.
Qed.

Lemma dropWhile_app (p : char -> bool) (a b : str) :
  dropWhile p (a ++ b) =
  match dropWhile p a with
  | [] => dropWhile p b
  | _ :: _ => dropWhile p a ++ b
  end.
Proof.
  induction a as [|c a IH]; simpl; [reflexivity|].
  destruct (p c); [exact IH | reflexivity].
Qed.

Lemma trimEnd_cons (c : char) (s : str) :
  trimEnd (c :: s) =
  match trimEnd s with
  | [] => if isSpace c then [] else [c]
  | _ :: _ => c :: trimEnd s
  end.
Proof.
  unfold trimEnd. simpl rev. rewrite dropWhile_app.
  destruct (dropWhile isSpace (rev s)) as [|d D] eqn:E.
  - simpl. destruct (isSpace c); reflexivity.
  - rewrite rev_app_distr. change (rev [c]) with [c].
    change ([c] ++ rev (d :: D)) with (c :: rev (d :: D)).
    destruct (rev (d :: D)) eqn:R; [|reflexivity].
    apply (f_equal (@length _)) in R. rewrite length_rev in R. discriminate.
Qed.

Lemma trimEnd_nil (s : str) : trimEnd s = [] <-> forallb isSpace s = true.
Proof.
  induction s as [|c s IH]; [unfold trimEnd; simpl; tauto|].
  rewrite trimEnd_cons. simpl forallb. rewrite andb_true_iff.
  destruct (trimEnd s) as [|d D].
  - destruct (isSpace c); split; try discriminate; try tauto.
    intros [H _]; discriminate.
  - split; [discriminate|]. intros [_ H]. apply IH in H. discriminate.
Qed.

Lemma trim_nil (s : str) : trim s = [] <-> forallb isSpace s = true.
Proof.
  unfold trim, trimStart. rewrite trimEnd_nil.
  induction s as [|c s IH]; simpl; [tauto|].
  destruct (isSpace c) eqn:E; simpl; [exact IH|]. rewrite E. simpl. tauto.
Qed.

Lemma trim_head_not_space (c : char) (s : str) :
  isSpace c = false -> exists t, trim (c :: s) = c :: t.
Proof.
  intros E. unfold trim, trimStart. simpl. rewrite E, trimEnd_cons.
  destruct (trimEnd s); rewrite ?E; eauto.
Qed.

Lemma trim_starts_not_space (s : str) (c : char) (t : str) :
  trim s = c :: t -> isSpace c = false.
Proof.
  unfold trim, trimStart. induction s as [|x s IH]; simpl.
  - unfold trimEnd; simpl; discriminate.
  - destruct (isSpace x) eqn:E; [exact IH|].
    rewrite trimEnd_cons. destruct (trimEnd s); rewrite ?E; congruence.
Qed.

Lemma isEmpty_true (s : str) : isEmpty s = true <-> s = [].
Proof. destruct s; simpl; split; congruence. Qed.

Lemma isEmpty_false (s : str) : isEmpty s = false <-> s <> [].
Proof. destruct s; simpl; split; congruence. Qed.

Lemma startsWith_single (s : str) (c : char) :
  startsWith s [c] = true <-> exists t, s = c :: t.
Proof.
  destruct s as [|x s]; simpl.
  - split; [discriminate | intros [t H]; discriminate].
  - rewrite andb_true_r, N.eqb_eq. split.
    + intros ->; eauto.
    + intros [t H]; congruence.
Qed.

Lemma includes_single (s : str) (c : char) :
  includes s [c] = true <-> In c s.
Proof.
  induction s as [|x s IH]; simpl.
  - split; [discriminate | tauto].
  - rewrite orb_true_iff, andb_true_r, N.eqb_eq, IH. tauto.
Qed.

Lemma split_cons_not_sep (sep c : char) (s : str) :
  c <> sep -> exists l ls, split sep (c :: s) = (c :: l) :: ls.
Proof.
  intros H. simpl. apply N.eqb_neq in H. rewrite H.
  destruct (split sep s); eauto.
Qed.

Lemma in_split (sep : char) (s l : str) (c : char) :
  In l (split sep s) -> In c l -> In c s.
Proof.
  revert l; induction s as [|x s IH]; intros l; simpl.
  - intros [<- | []] [].
  - destruct (x =? sep)%N.
    + intros [<- | H] Hc; [destruct Hc | right; eauto].
    + destruct (split sep s) as [|l0 ls] eqn:E.
      * intros [<- | []] [-> | []]. left; reflexivity.
      * intros [<- | H] Hc.
        -- destruct Hc as [-> | Hc]; [left; reflexivity|].
           right. apply (IH l0); [left; reflexivity | exact Hc].
        -- right. apply (IH l); [right; exact H | exact Hc].
Qed.

Lemma in_join (sep : char) (ls : list str) (c : char) :
  In c (join sep ls) -> c = sep \/ exists l, In l ls /\ In c l.
Proof.
  induction ls as [|l ls IH]; simpl; [intros []|].
  destruct ls as [|l' ls'].
  - intros H. right. exists l. auto.
  - intros H. apply in_app_or in H. destruct H as [H | [H | H]].
    + right. exists l. auto.
    + left. congruence.
    + destruct (IH H) as [-> | (l0 & H1 & H2)]; [left; reflexivity|].
      right. exists l0. split; [right; exact H1 | exact H2].
Qed.


Lemma in_not_all_space (s : str) (c : char) :
  In c s -> isSpace c = false -> trim s <> [].
Proof.
  intros Hin Hc H. apply trim_nil in H. rewrite forallb_forall in H.
  rewrite (H c Hin) in Hc. discriminate.
Qed.

(* ================================================================== *)
(** * Sanitizer, detector and facade *)
(* ================================================================== *)

Lemma in_stripComment (c : char) (line : str) :
  In c (stripComment line) -> In c line.
Proof.
  unfold stripComment. destruct (startsWith (trim line) [HASH]); [intros []|].
  destruct (indexOf line HASH) as [i|]; [|auto].
  unfold substring. simpl skipn. intros H.
  rewrite <- (firstn_skipn (i - 0) line). apply in_or_app. left. exact H.
Qed.

Lemma in_sanitizeInput (c : char) (input : str) :
  In c (sanitizeInput input) -> c = LF \/ In c input.
Proof.
  unfold sanitizeInput. intros H. apply in_join in H.
  destruct H as [H | (l & Hl & Hc)]; [left; exact H|]. right.
  apply filter_In in Hl. destruct Hl as [Hl _].
  apply in_map_iff in Hl. destruct Hl as (l0 & <- & Hl0).
  apply in_stripComment in Hc. eapply in_split; eauto.
Qed.

Lemma glyph_not_space (c : char) :
  In [c] asciiChars -> isSpace c = false /\ c <> LF.
Proof.
  unfold asciiChars. simpl.
  intros [H | [H | [H | [H | []]]]]; injection H as <-; split;
    (reflexivity || discriminate).
Qed.

Lemma detectFormat_glyph (c : char) (s : str) :
  In [c] asciiChars -> In c s -> detectFormat s = ascii.
Proof.
  intros Hg Hc. unfold detectFormat.
  assert (E : existsb (fun g => includes s g) asciiChars = true).
  { apply existsb_exists. exists [c]. split; [exact Hg|].
    apply includes_single. exact Hc. }
  rewrite E. reflexivity.
Qed.

Lemma detectFormat_known (s : str) : trim s <> [] -> detectFormat s <> unknown.
Proof.
  intros H. unfold detectFormat.
  destruct (existsb (fun c => includes s c) asciiChars); [discriminate|].
  destruct (existsb _ _); [discriminate|].
  destruct (trim s) as [|c t] eqn:E; [congruence|].
  assert (Hc : isSpace c = false) by (eapply trim_starts_not_space; eauto).
  destruct (split_cons_not_sep LF c t) as (l & ls & S).
  { intros ->. discriminate. }
  rewrite S. simpl filter.
  destruct (trim_head_not_space c l Hc) as (t' & T). rewrite T. simpl.
  discriminate.
Qed.

Lemma finish_failure (root : list TreeNode) (error : str) :
  finish root = Failure error -> error = NO_STRUCTURE /\ root = [].
Proof.
  destruct root as [|r [|r' rest]]; simpl.
  - intros H; injection H as <-. auto.
  - destruct (type r); [discriminate|].
    destruct (children r) as [[|c cs]|]; discriminate.
  - discriminate.
Qed.

(** C3.  A box-drawing glyph anywhere makes the detector answer [ascii],
    whatever else the text holds, and the facade hands an input whose
    sanitized form holds one to [parseAscii]. *)
Theorem box_glyph_routes_to_ascii (generateId : nat -> str) (c : char) :
  In [c] asciiChars ->
  (forall sanitized : str, In c sanitized -> detectFormat sanitized = ascii)
  /\ (forall input : str,
        In c (sanitizeInput input) ->
        parseDirectoryStructure generateId input
        = parseAscii generateId (sanitizeInput input)).
Proof.
  intros Hg. destruct (glyph_not_space c Hg) as [Hsp Hlf]. split.
  - intros s Hc. apply detectFormat_glyph with c; assumption.
  - intros input Hc. unfold parseDirectoryStructure.
    assert (Hin : In c input).
    { destruct (in_sanitizeInput c input Hc); [contradiction | assumption]. }
    assert (E1 : isEmpty input || isEmpty (trim input) = false).
    { apply orb_false_iff. split; apply isEmpty_false.
      - intros ->. destruct Hin.
      - eapply in_not_all_space; eauto. }
    rewrite E1.
    assert (E2 : isEmpty (trim (sanitizeInput input)) = false).
    { apply isEmpty_false. eapply in_not_all_space; eauto. }
    rewrite E2, (detectFormat_glyph c _ Hg Hc). reflexivity.
Qed.

Lemma box_glyph_routes_to_ascii_witness :
  detectFormat mixed_input = ascii
  /\ parseDirectoryStructure (fun _ => []) mixed_input
     = parseAscii (fun _ => []) (sanitizeInput mixed_input).
Proof.
  destruct (box_glyph_routes_to_ascii (fun _ => []) 9500%N) as [Hd Hp].
  - vm_compute. left. reflexivity.
  - split.
    + apply Hd. vm_compute. do 8 right. left. reflexivity.
    + apply Hp. vm_compute. do 8 right. left. reflexivity.
Defined.

(** C10.  The detector never answers [unknown] on a text that is not blank,
    and therefore no input makes the facade return the reason that begins
    with "Unable to detect input format". *)
Theorem unknown_format_unreachable (generateId : nat -> str) :
  (forall s : str, trim s <> [] -> detectFormat s <> unknown)
  /\ (forall (input error : str),
        parseDirectoryStructure generateId input = Failure error ->
        startsWith error (lit "Unable to detect input format") = false).
Proof.
  split; [exact detectFormat_known|].
  intros input error. unfold parseDirectoryStructure.
  destruct (isEmpty input || isEmpty (trim input)).
  { intros H; injection H as <-. reflexivity. }
  destruct (isEmpty (trim (sanitizeInput input))) eqn:E.
  { intros H; injection H as <-. reflexivity. }
  apply isEmpty_false in E. apply detectFormat_known in E.
  destruct (detectFormat (sanitizeInput input)); [| |congruence].
  - unfold parseMarkdown. intros H. apply finish_failure in H.
    destruct H as [-> _]. reflexivity.
  - unfold parseAscii. intros H. apply finish_failure in H.
    destruct H as [-> _]. reflexivity.
Qed.

Lemma unknown_format_unreachable_witness :
  detectFormat (lit "notes") <> unknown
  /\ startsWith ONLY_COMMENTS (lit "Unable to detect input format") = false.
Proof.
  destruct (unknown_format_unreachable (fun _ => [])) as [Hd Hp]. split.
  - apply Hd. vm_compute. discriminate.
  - apply (Hp (lit "# only a comment")). reflexivity.
Defined.

(* ================================================================== *)
(** * The two worked examples *)
(* ================================================================== *)

(** C1.  The Markdown example parses to one root folder [src] with the single
    file child [index.ts]; the depth of that child is 2, not 1: the line gets
    depth 1 from its indent, and the single-root adjustment adds 1. *)
Theorem markdown_example_parse (generateId : nat -> str) :
  parseDirectoryStructure generateId markdown_example
  = Success
      [mkNode (generateId 0%nat) (lit "src") folder 0 (Some true)
         (Some [mkNode (generateId 1%nat) (lit "index.ts") file 2 (Some true)
                       None])].
Proof. vm_compute. reflexivity. Qed.

(** The same tree written in the ASCII grammar gets depth 1 for the child. *)
Lemma ascii_sibling_of_markdown_example (generateId : nat -> str) :
  parseDirectoryStructure generateId (join LF [lit "src/"; lit "└── index.ts"])
  = Success
      [mkNode (generateId 0%nat) (lit "src") folder 0 (Some true)
         (Some [mkNode (generateId 1%nat) (lit "index.ts") file 1 (Some true)
                       None])].
Proof. vm_compute. reflexivity. Qed.

(** C4.  The ASCII example parses to one root folder [project] with two
    children in order: the folder [src], which holds the file [index.ts], and
    the file [package.json]. *)
Theorem ascii_example_parse (generateId : nat -> str) :
  parseDirectoryStructure generateId ascii_example
  = Success
      [mkNode (generateId 0%nat) (lit "project") folder 0 (Some true)
         (Some [mkNode (generateId 1%nat) (lit "src") folder 1 (Some true)
                  (Some [mkNode (generateId 2%nat) (lit "index.ts") file 2
                                (Some true) None]);
                mkNode (generateId 3%nat) (lit "package.json") file 1
                       (Some true) None])].
Proof. vm_compute. reflexivity. Qed.

(** The inputs of the integration tests: both are accepted, with the node
    names the tests look for, in source order. *)
Lemma test_markdown_input_names (generateId : nat -> str) :
  exists f,
    parseDirectoryStructure generateId
      (join LF [lit "- src/"; lit "  - components/"; lit "    - Button.tsx";
                lit "  - utils/"; lit "    - helpers.ts"; lit "- README.md"])
    = Success f
    /\ map name (forest_nodes f)
       = [lit "src"; lit "components"; lit "Button.tsx"; lit "utils";
          lit "helpers.ts"; lit "README.md"].
Proof. eexists. split; vm_compute; reflexivity. Qed.

Lemma test_ascii_input_names (generateId : nat -> str) :
  exists f,
    parseDirectoryStructure generateId
      (join LF [lit "project/"; lit "├── src/"; lit "│   ├── index.ts";
                lit "│   └── types.ts"; lit "└── package.json"])
    = Success f
    /\ map name (forest_nodes f)
       = [lit "project"; lit "src"; lit "index.ts"; lit "types.ts";
          lit "package.json"].
Proof. eexists. split; vm_compute; reflexivity. Qed.

(* ================================================================== *)
(** * Empty input *)
(* ================================================================== *)






(* ================================================================== *)
(** * The sanitizer against its description *)
(* ================================================================== *)

Lemma indexOf_takeWhile (line : str) (c : char) :
  match indexOf line c with
  | Some i => firstn i line
  | None => line
  end = takeWhile (fun x => negb (x =? c)%N) line.
Proof.
  induction line as [|x line IH]; simpl; [reflexivity|].
  destruct (x =? c)%N; simpl; [reflexivity|].
  destruct (indexOf line c); simpl; rewrite <- IH; reflexivity.
Qed.

Lemma stripComment_takeWhile (line : str) :
  startsWith (trim line) [HASH] = false ->
  stripComment line = takeWhile (fun x => negb (x =? HASH)%N) line.
Proof.
  intros H. unfold stripComment. rewrite H, <- indexOf_takeWhile.
  destruct (indexOf line HASH); [|reflexivity].
  unfold substring. rewrite Nat.sub_0_r. reflexivity.
Qed.

Lemma isContentChar_amended (c : char) : isContentChar c = amended_content c.
Proof.
  unfold isContentChar, amended_content, described_content, isAsciiAlnum, SLASH, DASH.
  destruct ((97 <=? c) && (c <=? 122))%N, ((65 <=? c) && (c <=? 90))%N,
    ((48 <=? c) && (c <=? 57))%N, (c =? 95)%N, (c =? 46)%N, (c =? 45)%N,
    (c =? 47)%N; reflexivity.
Qed.

Lemma sanitize_line_refines (line : str) :
  (if keepLine (stripComment line) then [stripComment line] else [])
  = match described_line amended_content line with
    | Some kept => [kept]
    | None => []
    end.
Proof.
  unfold described_line.
  destruct (startsWith (trim line) [HASH]) eqn:E.
  - unfold stripComment. rewrite E. reflexivity.
  - rewrite (stripComment_takeWhile _ E). unfold keepLine.
    set (rest := takeWhile _ line).
    destruct (trim rest) as [|c t] eqn:T; [reflexivity|]. cbn [length Nat.eqb isEmpty].
    assert (X : existsb isContentChar (c :: t) = existsb amended_content (c :: t)).
    { generalize (c :: t) as l. induction l as [|x l IHl]; simpl;
        [reflexivity | rewrite IHl, isContentChar_amended; reflexivity]. }
    rewrite X. destruct (existsb amended_content (c :: t)); reflexivity.
Qed.

Lemma filter_map_flat_map (lines : list str) :
  filter keepLine (map stripComment lines)
  = flat_map (fun line => match described_line amended_content line with
                          | Some kept => [kept]
                          | None => []
                          end) lines.
Proof.
  induction lines as [|l lines IH]; simpl; [reflexivity|].
  rewrite <- IH, <- sanitize_line_refines.
  destruct (keepLine (stripComment l)); reflexivity.
Qed.

(** C8 as stated fails: a line made of an underscore has no alphanumeric
    character, path separator, hyphen or period, and is kept. *)
Lemma sanitize_underscore_counterexample :
  sanitizeInput (lit "_") = lit "_"
  /\ described_sanitize described_content (lit "_") = []
  /\ sanitizeInput (lit "_") <> described_sanitize described_content (lit "_").
Proof. vm_compute. repeat split; discriminate. Qed.

(** C8, amended.  [sanitizeInput] is the described line rule with the
    underscore among the content characters (letters and digits are the ASCII
    ones), applied to every line, the kept lines joined by newline; it is
    total, and returns the empty string when no line is kept. *)
Theorem sanitize_refines_description (input : str) :
  sanitizeInput input = described_sanitize amended_content input
  /\ ((forall line, In line (split LF input) ->
                    described_line amended_content line = None) ->
      sanitizeInput input = []).
Proof.
  assert (E : sanitizeInput input = described_sanitize amended_content input).
  { unfold sanitizeInput, described_sanitize. rewrite filter_map_flat_map.
    reflexivity. }
  split; [exact E|]. intros H. rewrite E. unfold described_sanitize.
  induction (split LF input) as [|l lines IH]; [reflexivity|].
  simpl. rewrite (H l) by (left; reflexivity). simpl.
  apply IH. intros l' Hl'. apply H. right. exact Hl'.
Qed.

Lemma sanitize_refines_description_witness :
  sanitizeInput (lit "# heading") = [].
Proof.
  apply (sanitize_refines_description (lit "# heading")).
  intros line [<- | []]. reflexivity.
Defined.

(* ================================================================== *)
(** * Depths in a parsed forest *)
(* ================================================================== *)




Lemma kids_adjustNode (k : Z) (n : TreeNode) :
  kids (adjustNode k n) = adjustDepth (kids n) k.
Proof. destruct n as [i nm t d e [cs|]]; reflexivity. Qed.





Lemma finish_success (root f : list TreeNode) :
  finish root = Success f ->
  (root <> [] /\ f = root)
  \/ (exists r c cs, root = [r] /\ type r = folder /\ children r = Some (c :: cs)
                     /\ f = [with_children r (Some (adjustDepth (c :: cs) 1))]).
Proof.
  destruct root as [|r [|r' rest]]; cbn [finish]; [discriminate| |].
  - destruct (type r) eqn:T.
    { intros H. left. split; [discriminate | congruence]. }
    destruct (children r) as [[|c cs]|] eqn:C.
    + intros H. left. split; [discriminate | congruence].
    + intros H. right. exists r, c, cs.
      split; [reflexivity|]. split; [exact T|]. split; [exact C|]. congruence.
    + intros H. left. split; [discriminate | congruence].
  - intros H. left. split; [discriminate | congruence].
Qed.



(** ** Pushing a child through a reference *)

Lemma node_at_app_l (p : list nat) :
  forall (f g : list TreeNode) (n : TreeNode),
  node_at p f = Some n -> node_at p (f ++ g) = Some n.
Proof.
  destruct p as [|i p]; intros f g n; [discriminate|].
  rewrite !node_at_cons. destruct (nth_error f i) as [m|] eqn:E; [|discriminate].
  rewrite nth_error_app1 by (apply nth_error_Some; congruence).
  rewrite E. auto.
Qed.

Lemma node_at_last (f : list TreeNode) (n : TreeNode) :
  node_at [length f] (f ++ [n]) = Some n.
Proof.
  rewrite node_at_cons, nth_error_app2, Nat.sub_diag by lia. reflexivity.
Qed.

Lemma depth_pushChild (c m : TreeNode) : depth (pushChild c m) = depth m.
Proof. unfold pushChild. destruct (children m); reflexivity. Qed.

Lemma kids_pushChild (c m : TreeNode) :
  kids (pushChild c m) =
  match children m with Some _ => kids m ++ [c] | None => kids m end.
Proof. destruct m as [i n t d e [cs|]]; reflexivity. Qed.

Lemma children_pushChild (c m : TreeNode) :
  children m <> None -> children (pushChild c m) <> None.
Proof. unfold pushChild. destruct (children m); simpl; congruence. Qed.

Lemma alter_at_push (c : TreeNode) (i : nat) (p : list nat) (f : list TreeNode) :
  alter_at (pushChild c) (i :: p) f = list_alter (push_step c p) i f.
Proof. rewrite alter_at_cons. destruct p; reflexivity. Qed.

Lemma depth_push_step (c : TreeNode) (p : list nat) (n : TreeNode) :
  depth (push_step c p n) = depth n.
Proof.
  destruct p; simpl; [apply depth_pushChild|]. destruct (children n); reflexivity.
Qed.

Lemma children_push_step (c : TreeNode) (p : list nat) (n : TreeNode) :
  children n <> None -> children (push_step c p n) <> None.
Proof.
  destruct p; simpl; [apply children_pushChild|].
  destruct (children n); simpl; congruence.
Qed.

Lemma same_own_refl (n : TreeNode) : same_own n n.
Proof. split; auto. Qed.

(** A reference keeps denoting a node with the same own fields after a push
    through any reference. *)
Lemma node_at_push_kept (c : TreeNode) (p : list nat) :
  forall (f : list TreeNode) (q : list nat) (n : TreeNode),
  node_at q f = Some n ->
  exists n', node_at q (alter_at (pushChild c) p f) = Some n' /\ same_own n n'.
Proof.
  induction p as [|i p IH]; intros f q n Hq.
  - exists n. split; [exact Hq | apply same_own_refl].
  - rewrite alter_at_push. destruct q as [|j q]; [discriminate|].
    rewrite node_at_cons in *.
    destruct (nth_error f j) as [m|] eqn:Ej; [|discriminate].
    destruct (Nat.eq_dec i j) as [-> | Hij].
    + rewrite list_alter_nth_same, Ej. simpl option_map. cbv iota.
      destruct q as [|k q].
      * injection Hq as <-. eexists. split; [reflexivity|].
        split; [apply depth_push_step | apply children_push_step].
      * destruct p as [|i' p]; simpl push_step.
        -- rewrite kids_pushChild. exists n. split; [|apply same_own_refl].
           destruct (children m); [apply node_at_app_l|]; exact Hq.
        -- destruct (children m) as [cs|] eqn:C.
           ++ change (kids (with_children m (Some (alter_at (pushChild c) (i' :: p) cs))))
                with (alter_at (pushChild c) (i' :: p) cs).
              apply IH. unfold kids in Hq. rewrite C in Hq. exact Hq.
           ++ exists n. split; [exact Hq | apply same_own_refl].
    + rewrite list_alter_nth_other, Ej by exact Hij.
      exists n. split; [exact Hq | apply same_own_refl].
Qed.

(** The pushed node is found at the reference it was given. *)
Lemma node_at_child_ref (c : TreeNode) (p : list nat) :
  forall (f : list TreeNode) (parent : TreeNode),
  node_at p f = Some parent -> children parent <> None ->
  node_at (child_ref p f) (alter_at (pushChild c) p f) = Some c.
Proof.
  induction p as [|i p IH]; intros f parent Hp Hc; [discriminate|].
  unfold child_ref. rewrite Hp. rewrite alter_at_push.
  rewrite node_at_cons in Hp.
  destruct (nth_error f i) as [m|] eqn:Ei; [|discriminate].
  change ((i :: p) ++ [length (kids parent)]) with (i :: (p ++ [length (kids parent)])).
  rewrite node_at_cons, list_alter_nth_same, Ei. simpl option_map. cbv iota.
  destruct p as [|j p].
  - injection Hp as ->. simpl app. cbv iota. simpl push_step.
    rewrite kids_pushChild. destruct (children parent); [|congruence].
    apply node_at_last.
  - simpl app. cbv iota. simpl push_step.
    destruct (children m) as [cs|] eqn:C.
    + change (kids (with_children m (Some (alter_at (pushChild c) (j :: p) cs))))
        with (alter_at (pushChild c) (j :: p) cs).
      unfold kids in Hp. rewrite C in Hp.
      specialize (IH cs parent Hp Hc). unfold child_ref in IH. rewrite Hp in IH.
      exact IH.
    + unfold kids in Hp. rewrite C in Hp. destruct j; discriminate.
Qed.






(** ** The construction keeps its invariant *)





(** ** Below an un-prefixed root *)




(** ** The two parsers keep the invariant *)

Section ParsedDepths.

Variable generateId : nat -> str.


Lemma children_newNode (k : nat) (name : str) (d : Z) :
  endsWith name [SLASH] = true -> children (newNode generateId k name d) <> None.
Proof. unfold newNode. intros ->. discriminate. Qed.





Lemma scanLoop_level (fuel : nat) :
  forall (cleanLine : str) (pos : nat) (level : Z) (found : bool)
         (cleanLine' : str) (level' : Z) (found' : bool),
  scanLoop fuel cleanLine pos level found = Some (cleanLine', level', found') ->
  (level <= level')%Z.
Proof.
  induction fuel as [|fuel IH]; intros cl pos lvl fnd cl' lvl' fnd';
    cbn [scanLoop]; [discriminate|].
  destruct (pos <? length cl)%nat.
  - match goal with
    | |- context [find ?g ?l] => destruct (find g l) as [tok|]
    end.
    + destruct (str_eqb tok BRANCH || str_eqb tok CORNER).
      * apply IH.
      * intros H. apply IH in H. lia.
    + intros H; injection H as _ <- _. lia.
  - intros H; injection H as _ <- _. lia.
Qed.






End ParsedDepths.





(* ================================================================== *)
(** * The prefix scan terminates *)
(* ================================================================== *)

Lemma length_dropWhile (p : char -> bool) (s : str) :
  (length (dropWhile p s) <= length s)%nat.
Proof.
  induction s as [|c s IH]; simpl; [lia|]. destruct (p c); simpl; lia.
Qed.

Lemma length_trim (s : str) : (length (trim s) <= length s)%nat.
Proof.
  unfold trim, trimEnd, trimStart. rewrite length_rev.
  etransitivity; [apply length_dropWhile|]. rewrite length_rev.
  apply length_dropWhile.
Qed.

Lemma token_fits (cleanLine tok : str) (pos : nat) :
  str_eqb (substring cleanLine pos (pos + length tok)) tok = true ->
  (pos + length tok <= length cleanLine)%nat \/ length tok = 0%nat.
Proof.
  intros H. apply str_eqb_eq in H. apply (f_equal (@length _)) in H.
  unfold substring in H. rewrite length_firstn, length_skipn in H. lia.
Qed.

Lemma treeChars_length (tok : str) : In tok treeChars -> (3 <= length tok)%nat.
Proof.
  unfold treeChars. simpl.
  intros [<- | [<- | [<- | [<- | []]]]]; simpl; lia.
Qed.

(** The loop runs at most once per character that is left, so the fuel that
    [scanPrefix] gives it is never used up. *)
Lemma scanLoop_total (fuel : nat) :
  forall (cleanLine : str) (pos : nat) (level : Z) (found : bool),
  (length cleanLine - pos < fuel)%nat ->
  scanLoop fuel cleanLine pos level found <> None.
Proof.
  induction fuel as [|fuel IH]; intros cl pos lvl fnd Hfuel; [lia|].
  cbn [scanLoop]. destruct (Nat.ltb_spec pos (length cl)) as [Hpos | Hpos];
    [|discriminate].
  match goal with
  | |- context [find ?g ?l] => destruct (find g l) as [tok|] eqn:F
  end; [|discriminate].
  apply find_some in F. destruct F as [Htok Hfit].
  apply treeChars_length in Htok. apply token_fits in Hfit.
  destruct (str_eqb tok BRANCH || str_eqb tok CORNER); apply IH.
  - pose proof (length_trim (substringFrom cl (pos + length tok))) as T.
    unfold substringFrom in *. rewrite length_skipn in T. lia.
  - lia.
Qed.

Lemma scanPrefix_total (line : str) : scanPrefix line <> None.
Proof. unfold scanPrefix. apply scanLoop_total. lia. Qed.

(* ================================================================== *)
(** * More on the edit operations *)
(* ================================================================== *)

Lemma deleteNode_absent (f : list TreeNode) (targetId : str) :
  ~ In targetId (ids f) -> deleteNode f targetId = f.
Proof.
  revert f. apply (forest_ind (fun f =>
    ~ In targetId (ids f) -> deleteNode f targetId = f)).
  - reflexivity.
  - intros x rest IHk IHr H. rewrite ids_cons in H. rewrite deleteNode_cons.
    assert (E : str_eqb (id x) targetId = false).
    { apply str_eqb_neq. intros E. apply H. left. exact E. }
    rewrite E, IHr by (intros G; apply H; right; apply in_or_app; right; exact G).
    f_equal. rewrite deleteIn_eq.
    destruct (children x) as [cs|] eqn:C; [|reflexivity].
    assert (K : kids x = cs) by (unfold kids; rewrite C; reflexivity).
    rewrite K in *. rewrite IHk.
    + apply with_children_same. exact C.
    + intros G; apply H; right; apply in_or_app; left; exact G.
Qed.

Lemma NoDup_ids_deleteNode (f : list TreeNode) (targetId : str) :
  NoDup (ids f) -> NoDup (ids (deleteNode f targetId)).
Proof.
  revert f. apply (forest_ind (fun f =>
    NoDup (ids f) -> NoDup (ids (deleteNode f targetId)))).
  - intros H; exact H.
  - intros x rest IHk IHr ND.
    destruct (NoDup_ids_cons _ _ ND) as (Hxk & Hxr & NDk & NDr & Hdisj).
    rewrite deleteNode_cons. destruct (str_eqb (id x) targetId); [auto|].
    rewrite ids_cons, kids_deleteIn, id_deleteIn. constructor.
    + intros H. apply in_app_or in H.
      destruct H as [H | H]; apply ids_deleteNode_incl in H; contradiction.
    + apply NoDup_app; [auto | auto |].
      intros a Ha Hb. apply ids_deleteNode_incl in Ha, Hb. exact (Hdisj a Ha Hb).
Qed.

Lemma deleteNode_comm (f : list TreeNode) (a b : str) :
  deleteNode (deleteNode f a) b = deleteNode (deleteNode f b) a.
Proof.
  revert f. apply (forest_ind (fun f =>
    deleteNode (deleteNode f a) b = deleteNode (deleteNode f b) a)).
  - reflexivity.
  - intros x rest IHk IHr. rewrite (deleteNode_cons x rest a), (deleteNode_cons x rest b).
    destruct (str_eqb (id x) a) eqn:Ea, (str_eqb (id x) b) eqn:Eb.
    + exact IHr.
    + rewrite deleteNode_cons, id_deleteIn, Ea. exact IHr.
    + rewrite deleteNode_cons, id_deleteIn, Eb. exact IHr.
    + rewrite !deleteNode_cons, !id_deleteIn, Ea, Eb, IHr. f_equal.
      rewrite !deleteIn_eq. destruct x as [i nm t d e [cs|]]; [|reflexivity].
      cbn [children with_children id name type depth isExpanded].
      unfold kids in IHk. cbn [children] in IHk. rewrite IHk. reflexivity.
Qed.

Lemma toggleNodeExpand_cons (x : TreeNode) (rest : list TreeNode) (t : str) :
  toggleNodeExpand (x :: rest) t = toggleNode t x :: toggleNodeExpand rest t.
Proof. reflexivity. Qed.

Lemma renameNode_cons (x : TreeNode) (rest : list TreeNode) (t nm : str) :
  renameNode (x :: rest) t nm = renameOne t nm x :: renameNode rest t nm.
Proof. reflexivity. Qed.

Lemma toggle_twice (f : list TreeNode) (targetId : str) :
  (forall n, In n (forest_nodes f) -> id n = targetId -> type n = folder ->
             isExpanded n <> None) ->
  toggleNodeExpand (toggleNodeExpand f targetId) targetId = f.
Proof.
  revert f. apply (forest_ind (fun f =>
    (forall n, In n (forest_nodes f) -> id n = targetId -> type n = folder ->
               isExpanded n <> None) ->
    toggleNodeExpand (toggleNodeExpand f targetId) targetId = f)).
  - reflexivity.
  - intros x rest IHk IHr H. rewrite !toggleNodeExpand_cons. f_equal.
    + assert (Hx := H x). rewrite forest_nodes_cons in Hx.
      specialize (Hx (or_introl eq_refl)).
      assert (Hk : forall n, In n (forest_nodes (kids x)) -> id n = targetId ->
                             type n = folder -> isExpanded n <> None).
      { intros n Hn. apply H. rewrite forest_nodes_cons. right.
        apply in_or_app. left. exact Hn. }
      specialize (IHk Hk). clear H Hk.
      destruct x as [i nm t d e [cs|]]; cbn [toggleNode].
      * destruct (str_eqb i targetId && NodeType_eqb t folder) eqn:M.
        -- cbn [toggleNode]. rewrite M.
           apply andb_true_iff in M. destruct M as [Mi Mt].
           apply str_eqb_eq in Mi. destruct t; [discriminate|].
           specialize (Hx Mi eq_refl). cbn in Hx.
           destruct e as [[|]|]; [reflexivity | reflexivity | congruence].
        -- cbn [toggleNode]. rewrite M. unfold kids in IHk. cbn in IHk.
           unfold toggleNodeExpand in IHk. rewrite IHk. reflexivity.
      * destruct (str_eqb i targetId && NodeType_eqb t folder) eqn:M.
        -- cbn [toggleNode]. rewrite M.
           apply andb_true_iff in M. destruct M as [Mi Mt].
           apply str_eqb_eq in Mi. destruct t; [discriminate|].
           specialize (Hx Mi eq_refl). cbn in Hx.
           destruct e as [[|]|]; [reflexivity | reflexivity | congruence].
        -- cbn [toggleNode]. rewrite M. reflexivity.
    + apply IHr. intros n Hn. apply H. rewrite forest_nodes_cons. right.
      apply in_or_app. right. exact Hn.
Qed.

Lemma rename_twice (f : list TreeNode) (targetId a b : str) :
  renameNode (renameNode f targetId a) targetId b = renameNode f targetId b.
Proof.
  revert f. apply (forest_ind (fun f =>
    renameNode (renameNode f targetId a) targetId b = renameNode f targetId b)).
  - reflexivity.
  - intros x rest IHk IHr. rewrite !renameNode_cons, IHr. f_equal.
    destruct x as [i nm t d e [cs|]]; cbn [renameOne];
      destruct (str_eqb i targetId) eqn:M; cbn [renameOne]; rewrite M;
      try reflexivity.
    unfold kids in IHk. cbn in IHk. unfold renameNode in IHk. rewrite IHk.
    reflexivity.
Qed.

(** The node found under the target id after a rename is the node found
    before, with the new name. *)
Lemma find_after_rename (f : list TreeNode) (targetId newName : str) :
  findNodeById (renameNode f targetId newName) targetId
  = option_map (fun n => mkNode (id n) newName (type n) (depth n)
                                (isExpanded n) (children n))
               (findNodeById f targetId).
Proof.
  revert f. apply (forest_ind (fun f =>
    findNodeById (renameNode f targetId newName) targetId
    = option_map (fun n => mkNode (id n) newName (type n) (depth n)
                                  (isExpanded n) (children n))
                 (findNodeById f targetId))).
  - reflexivity.
  - intros x rest IHk IHr. rewrite renameNode_cons.
    cbn [findNodeById]. rewrite renameOne_eq.
    destruct (str_eqb (id x) targetId) eqn:M.
    + rewrite !findIn_eq. cbn [id]. rewrite M. reflexivity.
    + assert (K : forall y, findIn targetId y
                    = if str_eqb (id y) targetId then Some y
                      else findNodeById (kids y) targetId).
      { intros y. rewrite findIn_eq. unfold kids.
        destruct (children y); reflexivity. }
      destruct (children x) as [cs|] eqn:C.
      * rewrite !K. change (id (with_children x (Some (renameNode cs targetId newName))))
          with (id x). rewrite M.
        change (kids (with_children x (Some (renameNode cs targetId newName))))
          with (renameNode cs targetId newName).
        assert (Kx : kids x = cs) by (unfold kids; rewrite C; reflexivity).
        rewrite Kx in *. rewrite IHk.
        destruct (findNodeById cs targetId); [reflexivity | exact IHr].
      * rewrite !K, M. unfold kids. rewrite C. exact IHr.
Qed.

(** ** The edits keep the invariants of the data model

    The three edits are a map over a filtered list; the callback keeps the
    id, type and depth of the node and either keeps its children or edits
    them the same way. *)

Section EditShape.

Variable h : TreeNode -> TreeNode.
Variable q : TreeNode -> bool.

Hypothesis h_kind : forall x, same_kind x (h x).
Hypothesis h_kids :
  forall x, kids (h x) = kids x \/ kids (h x) = edited h q (kids x).

Lemma same_kind_refl (n : TreeNode) : same_kind n n.
Proof. repeat split; auto. Qed.

Lemma edited_cons (x : TreeNode) (rest : list TreeNode) :
  edited h q (x :: rest) = (if q x then [h x] else []) ++ edited h q rest.
Proof. unfold edited. simpl. destruct (q x); reflexivity. Qed.

Lemma edited_roots (f : list TreeNode) (r' : TreeNode) :
  In r' (edited h q f) -> exists r, In r f /\ same_kind r r'.
Proof.
  unfold edited. intros H. apply in_map_iff in H. destruct H as (r & <- & Hr).
  apply filter_In in Hr. exists r. split; [tauto | apply h_kind].
Qed.

Lemma edited_nodes (f : list TreeNode) :
  forall n', In n' (forest_nodes (edited h q f)) ->
             exists n, In n (forest_nodes f) /\ same_kind n n'.
Proof.
  revert f. apply (forest_ind (fun f =>
    forall n', In n' (forest_nodes (edited h q f)) ->
               exists n, In n (forest_nodes f) /\ same_kind n n')).
  - intros n' [].
  - intros x rest IHk IHr n' H. rewrite edited_cons in H.
    unfold forest_nodes in H. rewrite flat_map_app in H. apply in_app_or in H.
    assert (Up : forall n, In n (forest_nodes (kids x)) ->
                           In n (forest_nodes (x :: rest))).
    { intros n Hn. rewrite forest_nodes_cons. right. apply in_or_app. left. exact Hn. }
    destruct H as [H | H].
    + destruct (q x); [|destruct H]. simpl in H. rewrite app_nil_r, subtree_eq in H.
      destruct H as [<- | H].
      * exists x. split; [rewrite forest_nodes_cons; left; reflexivity | apply h_kind].
      * destruct (h_kids x) as [K | K]; rewrite K in H.
        -- exists n'. split; [apply Up; exact H | apply same_kind_refl].
        -- destruct (IHk n' H) as (n & Hn & S). exists n. split; [apply Up; exact Hn | exact S].
    + destruct (IHr n' H) as (n & Hn & S). exists n. split; [|exact S].
      rewrite forest_nodes_cons. right. apply in_or_app. right. exact Hn.
Qed.

Lemma edited_edges (f : list TreeNode) :
  forall p' c', In p' (forest_nodes (edited h q f)) -> In c' (kids p') ->
                exists p c, In p (forest_nodes f) /\ In c (kids p)
                            /\ same_kind p p' /\ same_kind c c'.
Proof.
  revert f. apply (forest_ind (fun f =>
    forall p' c', In p' (forest_nodes (edited h q f)) -> In c' (kids p') ->
                  exists p c, In p (forest_nodes f) /\ In c (kids p)
                              /\ same_kind p p' /\ same_kind c c')).
  - intros p' c' [].
  - intros x rest IHk IHr p' c' H Hc. rewrite edited_cons in H.
    unfold forest_nodes in H. rewrite flat_map_app in H. apply in_app_or in H.
    assert (Up : forall n, In n (forest_nodes (kids x)) ->
                           In n (forest_nodes (x :: rest))).
    { intros n Hn. rewrite forest_nodes_cons. right. apply in_or_app. left. exact Hn. }
    destruct H as [H | H].
    + destruct (q x); [|destruct H]. simpl in H. rewrite app_nil_r, subtree_eq in H.
      destruct H as [<- | H].
      * destruct (h_kids x) as [K | K]; rewrite K in Hc.
        -- exists x, c'. split; [rewrite forest_nodes_cons; left; reflexivity|].
           split; [exact Hc|]. split; [apply h_kind | apply same_kind_refl].
        -- destruct (edited_roots _ _ Hc) as (c & Hc0 & S).
           exists x, c. split; [rewrite forest_nodes_cons; left; reflexivity|].
           split; [exact Hc0|]. split; [apply h_kind | exact S].
      * destruct (h_kids x) as [K | K]; rewrite K in H.
        -- exists p', c'. split; [apply Up; exact H|]. split; [exact Hc|].
           split; apply same_kind_refl.
        -- destruct (IHk p' c' H Hc) as (p & c & Hp & Hc0 & S).
           exists p, c. split; [apply Up; exact Hp | tauto].
    + destruct (IHr p' c' H Hc) as (p & c & Hp & Hc0 & S).
      exists p, c. split; [|tauto].
      rewrite forest_nodes_cons. right. apply in_or_app. right. exact Hp.
Qed.

Lemma edited_drawn_from (f : list TreeNode) : drawn_from f (edited h q f).
Proof.
  split; [|split].
  - apply edited_roots.
  - apply edited_nodes.
  - apply edited_edges.
Qed.

End EditShape.

Lemma filter_all {A : Type} (l : list A) : filter (fun _ => true) l = l.
Proof. induction l as [|x l IH]; simpl; [reflexivity | rewrite IH; reflexivity]. Qed.

Lemma toggle_drawn_from (f : list TreeNode) (t : str) :
  drawn_from f (toggleNodeExpand f t).
Proof.
  assert (E : forall l, toggleNodeExpand l t = edited (toggleNode t) (fun _ => true) l).
  { intros l. unfold edited. rewrite filter_all. reflexivity. }
  rewrite E. apply edited_drawn_from.
  - intros x. rewrite toggleNode_eq.
    destruct (str_eqb (id x) t && NodeType_eqb (type x) folder);
      [|destruct (children x) eqn:C]; repeat split; cbn; try congruence; auto.
  - intros x. rewrite toggleNode_eq, <- E.
    destruct (str_eqb (id x) t && NodeType_eqb (type x) folder); [left; reflexivity|].
    destruct x as [i nm ty d e [cs|]]; [right | left]; reflexivity.
Qed.

Lemma rename_drawn_from (f : list TreeNode) (t nm : str) :
  drawn_from f (renameNode f t nm).
Proof.
  assert (E : forall l, renameNode l t nm = edited (renameOne t nm) (fun _ => true) l).
  { intros l. unfold edited. rewrite filter_all. reflexivity. }
  rewrite E. apply edited_drawn_from.
  - intros x. rewrite renameOne_eq.
    destruct (str_eqb (id x) t); [|destruct (children x) eqn:C];
      repeat split; cbn; try congruence; auto.
  - intros x. rewrite renameOne_eq, <- E.
    destruct (str_eqb (id x) t); [left; reflexivity|].
    destruct x as [i n ty d e [cs|]]; [right | left]; reflexivity.
Qed.

Lemma delete_drawn_from (f : list TreeNode) (t : str) :
  drawn_from f (deleteNode f t).
Proof.
  change (deleteNode f t)
    with (edited (deleteIn t) (fun node => negb (str_eqb (id node) t)) f).
  apply edited_drawn_from.
  - intros x. rewrite deleteIn_eq.
    destruct (children x) eqn:C; repeat split; cbn; try congruence; auto.
  - intros x. rewrite kids_deleteIn. right. reflexivity.
Qed.

Lemma ids_toggle (f : list TreeNode) (t : str) : ids (toggleNodeExpand f t) = ids f.
Proof.
  revert f. apply (forest_ind (fun f => ids (toggleNodeExpand f t) = ids f)).
  - reflexivity.
  - intros x rest IHk IHr. rewrite toggleNodeExpand_cons, !ids_cons, IHr.
    rewrite toggleNode_eq.
    destruct (str_eqb (id x) t && NodeType_eqb (type x) folder).
    + destruct x as [i nm ty d e [cs|]]; reflexivity.
    + destruct (children x) as [cs|] eqn:C; [|reflexivity].
      assert (K : kids x = cs) by (unfold kids; rewrite C; reflexivity).
      rewrite K in *.
      change (kids (with_children x (Some (toggleNodeExpand cs t))))
        with (toggleNodeExpand cs t).
      rewrite IHk. reflexivity.
Qed.

Lemma ids_rename (f : list TreeNode) (t nm : str) : ids (renameNode f t nm) = ids f.
Proof.
  revert f. apply (forest_ind (fun f => ids (renameNode f t nm) = ids f)).
  - reflexivity.
  - intros x rest IHk IHr. rewrite renameNode_cons, !ids_cons, IHr.
    rewrite renameOne_eq. destruct (str_eqb (id x) t).
    + destruct x as [i n ty d e [cs|]]; reflexivity.
    + destruct (children x) as [cs|] eqn:C; [|reflexivity].
      assert (K : kids x = cs) by (unfold kids; rewrite C; reflexivity).
      rewrite K in *.
      change (kids (with_children x (Some (renameNode cs t nm))))
        with (renameNode cs t nm).
      rewrite IHk. reflexivity.
Qed.

Lemma drawn_from_invariants (f f' : list TreeNode) :
  drawn_from f f' ->
  (files_are_leaves f -> files_are_leaves f')
  /\ (depth_exact f -> depth_exact f')
  /\ (forall g, depth_step g f -> depth_step g f').
Proof.
  intros (Hr & Hn & He). split; [|split].
  - intros H n' Hn' T. destruct (Hn n' Hn') as (n & Hin & _ & Ht & _ & Hc).
    apply Hc. apply H; [exact Hin | congruence].
  - intros [H0 H1]. split.
    + intros r' Hr'. destruct (Hr r' Hr') as (r & Hin & _ & _ & Hd & _).
      rewrite Hd. apply H0. exact Hin.
    + intros p' c' Hp' Hc'.
      destruct (He p' c' Hp' Hc') as (p & c & Hp & Hc & Sp & Sc).
      destruct Sp as (_ & _ & Dp & _). destruct Sc as (_ & _ & Dc & _).
      rewrite Dp, Dc. apply H1; assumption.
  - intros g H p' c' Hp' Hc'.
    destruct (He p' c' Hp' Hc') as (p & c & Hp & Hc & Sp & Sc).
    destruct Sp as (_ & _ & Dp & _). destruct Sc as (_ & _ & Dc & _).
    rewrite Dp, Dc. apply H; assumption.
Qed.

Lemma drawn_from_refl (f : list TreeNode) : drawn_from f f.
Proof.
  split; [|split].
  - intros r Hr. exists r. split; [exact Hr | repeat split; auto].
  - intros n Hn. exists n. split; [exact Hn | repeat split; auto].
  - intros p c Hp Hc. exists p, c. repeat split; auto.
Qed.

(** X1.  Every action other than [SET_TREE] keeps the invariants of the data
    model: pairwise distinct ids, files without children, roots at depth 0
    with every child one deeper than its parent, and more generally any gap
    between the depth of a parent and of a child. *)
Theorem edits_keep_invariants (state : TreeState) (action : TreeAction) :
  (forall payload, action <> SET_TREE payload) ->
  (NoDup (ids (nodes state)) -> NoDup (ids (nodes (treeReducer state action))))
  /\ (files_are_leaves (nodes state) ->
      files_are_leaves (nodes (treeReducer state action)))
  /\ (depth_exact (nodes state) -> depth_exact (nodes (treeReducer state action)))
  /\ (forall g, depth_step g (nodes state) ->
                depth_step g (nodes (treeReducer state action))).
Proof.
  intros Hset.
  assert (D : drawn_from (nodes state) (nodes (treeReducer state action))
              /\ (NoDup (ids (nodes state)) ->
                  NoDup (ids (nodes (treeReducer state action))))).
  { destruct action as [f | t | t nm | t | sel |]; cbn [treeReducer nodes].
    - exfalso. apply (Hset f). reflexivity.
    - split; [apply toggle_drawn_from | rewrite ids_toggle; auto].
    - split; [apply rename_drawn_from | rewrite ids_rename; auto].
    - split; [apply delete_drawn_from | apply NoDup_ids_deleteNode].
    - split; [apply drawn_from_refl | auto].
    - split; [apply drawn_from_refl | auto]. }
  destruct D as [D ND]. split; [exact ND|]. apply drawn_from_invariants. exact D.
Qed.

Lemma edits_keep_invariants_witness :
  NoDup (ids (nodes (treeReducer sample_state (DELETE_NODE (lit "2"))))).
Proof.
  apply (edits_keep_invariants sample_state (DELETE_NODE (lit "2"))).
  - intros payload. discriminate.
  - exact sample_state_distinct.
Defined.

(** X2.  [DELETE_NODE] with an id that occurs nowhere leaves the forest as it
    is; deleting the same id twice is deleting it once; and two deletions
    give the same state in either order. *)
Theorem delete_absent_twice_swap (state : TreeState) (a b : str) :
  (~ In a (ids (nodes state)) ->
   nodes (treeReducer state (DELETE_NODE a)) = nodes state)
  /\ treeReducer (treeReducer state (DELETE_NODE a)) (DELETE_NODE a)
     = treeReducer state (DELETE_NODE a)
  /\ treeReducer (treeReducer state (DELETE_NODE a)) (DELETE_NODE b)
     = treeReducer (treeReducer state (DELETE_NODE b)) (DELETE_NODE a).
Proof.
  split; [|split]; cbn [treeReducer nodes selectedNodeId].
  - apply deleteNode_absent.
  - f_equal.
    + apply deleteNode_absent, deleteNode_target_gone.
    + destruct (selectedNodeId state) as [s|]; [|reflexivity]. simpl.
      destruct (str_eqb s a) eqn:E; simpl; [reflexivity | rewrite E; reflexivity].
  - f_equal; [apply deleteNode_comm|].
    destruct (selectedNodeId state) as [s|]; [|reflexivity]. simpl.
    destruct (str_eqb s a) eqn:Ea, (str_eqb s b) eqn:Eb; simpl;
      rewrite ?Ea, ?Eb; reflexivity.
Qed.

Lemma delete_absent_twice_swap_witness :
  nodes (treeReducer sample_state (DELETE_NODE (lit "9"))) = nodes sample_state.
Proof.
  apply (delete_absent_twice_swap sample_state (lit "9") (lit "1")).
  vm_compute. intuition discriminate.
Defined.

(** X3.  Two [TOGGLE_EXPAND] actions on the same id give back the state,
    provided the folders that carry the id have their flag set (as every
    parsed node has). *)
Theorem toggle_expand_twice (state : TreeState) (targetId : str) :
  (forall n, In n (forest_nodes (nodes state)) -> id n = targetId ->
             type n = folder -> isExpanded n <> None) ->
  treeReducer (treeReducer state (TOGGLE_EXPAND targetId)) (TOGGLE_EXPAND targetId)
  = state.
Proof.
  intros H. cbn [treeReducer nodes selectedNodeId].
  rewrite toggle_twice by exact H. destruct state; reflexivity.
Qed.

Lemma toggle_expand_twice_witness :
  treeReducer (treeReducer sample_state (TOGGLE_EXPAND (lit "1")))
              (TOGGLE_EXPAND (lit "1"))
  = sample_state.
Proof.
  apply (toggle_expand_twice sample_state (lit "1")).
  vm_compute. intros n [<- | [<- | [<- | []]]]; intros; discriminate.
Defined.

(** X4.  After [RENAME_NODE] the lookup of the renamed id returns the node it
    returned before with the new name and nothing else changed (and still
    nothing when the id is unknown); a second rename of the same id
    overwrites the first. *)
Theorem rename_then_lookup (state : TreeState) (targetId a b : str) :
  findNodeById (nodes (treeReducer state (RENAME_NODE targetId a))) targetId
  = option_map (fun n => mkNode (id n) a (type n) (depth n) (isExpanded n)
                                (children n))
               (findNodeById (nodes state) targetId)
  /\ treeReducer (treeReducer state (RENAME_NODE targetId a))
                 (RENAME_NODE targetId b)
     = treeReducer state (RENAME_NODE targetId b).
Proof.
  split; cbn [treeReducer nodes selectedNodeId].
  - apply find_after_rename.
  - rewrite rename_twice. reflexivity.
Qed.

(* ================================================================== *)
(** * More on the sanitizer and the facade *)
(* ================================================================== *)

Lemma split_no_sep (sep : char) (s l : str) :
  In l (split sep s) -> ~ In sep l.
Proof.
  revert l; induction s as [|x s IH]; intros l; simpl.
  - intros [<- | []] [].
  - destruct (N.eqb_spec x sep) as [E | E].
    + intros [<- | H]; [intros [] | auto].
    + destruct (split sep s) as [|l0 ls] eqn:S.
      * intros [<- | []] [H | []]. congruence.
      * intros [<- | H].
        -- intros [H | H]; [congruence|]. revert H. apply IH. left. reflexivity.
        -- apply IH. right. exact H.
Qed.

Lemma split_line (sep : char) (l : str) : ~ In sep l -> split sep l = [l].
Proof.
  induction l as [|x l IH]; simpl; [reflexivity|]. intros H.
  destruct (N.eqb_spec x sep) as [E | E]; [exfalso; apply H; left; exact E|].
  rewrite IH by (intros G; apply H; right; exact G). reflexivity.
Qed.

Lemma split_app_sep (sep : char) (l r : str) :
  ~ In sep l -> split sep (l ++ sep :: r) = l :: split sep r.
Proof.
  induction l as [|x l IH]; simpl; intros H.
  - rewrite N.eqb_refl. reflexivity.
  - destruct (N.eqb_spec x sep) as [E | E]; [exfalso; apply H; left; exact E|].
    rewrite IH by (intros G; apply H; right; exact G). reflexivity.
Qed.

Lemma split_join (sep : char) (ls : list str) :
  ls <> [] -> (forall l, In l ls -> ~ In sep l) -> split sep (join sep ls) = ls.
Proof.
  induction ls as [|l ls IH]; [congruence|]. intros _ H.
  destruct ls as [|l' ls'].
  - simpl. apply split_line. apply H. left. reflexivity.
  - change (join sep (l :: l' :: ls')) with (l ++ sep :: join sep (l' :: ls')).
    rewrite split_app_sep by (apply H; left; reflexivity).
    rewrite IH; [reflexivity | discriminate|].
    intros l0 Hl0. apply H. right. exact Hl0.
Qed.

Lemma in_dropWhile (p : char -> bool) (s : str) (c : char) :
  In c (dropWhile p s) -> In c s.
Proof.
  induction s as [|x s IH]; simpl; [auto|].
  destruct (p x); [right; auto | auto].
Qed.

Lemma in_trim (s : str) (c : char) : In c (trim s) -> In c s.
Proof.
  unfold trim, trimEnd, trimStart. intros H. apply in_rev in H.
  apply in_dropWhile in H. apply in_rev in H. apply in_dropWhile in H. exact H.
Qed.

Lemma takeWhile_not (c : char) (line : str) :
  ~ In c (takeWhile (fun x => negb (x =? c)%N) line).
Proof.
  induction line as [|x line IH]; simpl; [auto|].
  destruct (N.eqb_spec x c) as [E | E]; simpl; [auto|].
  intros [H | H]; [congruence | auto].
Qed.

Lemma takeWhile_all (p : char -> bool) (line : str) :
  forallb p line = true -> takeWhile p line = line.
Proof.
  induction line as [|x line IH]; simpl; [reflexivity|].
  destruct (p x); simpl; [intros H; rewrite IH; auto | discriminate].
Qed.

Lemma stripComment_no_hash (line : str) : ~ In HASH (stripComment line).
Proof.
  destruct (startsWith (trim line) [HASH]) eqn:E.
  - unfold stripComment. rewrite E. intros [].
  - rewrite (stripComment_takeWhile _ E). apply takeWhile_not.
Qed.

Lemma stripComment_fixed (line : str) : ~ In HASH line -> stripComment line = line.
Proof.
  intros H.
  assert (E : startsWith (trim line) [HASH] = false).
  { destruct (startsWith (trim line) [HASH]) eqn:E; [|reflexivity].
    apply startsWith_single in E. destruct E as [t E]. exfalso. apply H.
    apply in_trim. rewrite E. left. reflexivity. }
  rewrite (stripComment_takeWhile _ E). apply takeWhile_all.
  apply forallb_forall. intros x Hx. apply negb_true_iff. apply N.eqb_neq.
  intros ->. exact (H Hx).
Qed.

Lemma filter_fixed {A : Type} (p : A -> bool) (l : list A) :
  (forall x, In x l -> p x = true) -> filter p l = l.
Proof.
  induction l as [|x l IH]; simpl; [reflexivity|]. intros H.
  rewrite (H x) by (left; reflexivity). rewrite IH; [reflexivity|].
  intros y Hy. apply H. right. exact Hy.
Qed.

Lemma map_fixed {A : Type} (g : A -> A) (l : list A) :
  (forall x, In x l -> g x = x) -> map g l = l.
Proof.
  induction l as [|x l IH]; simpl; [reflexivity|]. intros H.
  rewrite (H x) by (left; reflexivity). rewrite IH; [reflexivity|].
  intros y Hy. apply H. right. exact Hy.
Qed.

(** The lines the sanitizer keeps. *)
Lemma sanitized_lines (input : str) (l : str) :
  In l (filter keepLine (map stripComment (split LF input))) ->
  keepLine l = true /\ ~ In HASH l /\ ~ In LF l.
Proof.
  intros H. apply filter_In in H. destruct H as [H K]. split; [exact K|].
  apply in_map_iff in H. destruct H as (l0 & <- & H0). split.
  - apply stripComment_no_hash.
  - intros G. apply in_stripComment in G. revert G. eapply split_no_sep. exact H0.
Qed.

Lemma sanitizeInput_lines (input : str) :
  sanitizeInput input <> [] ->
  split LF (sanitizeInput input)
  = filter keepLine (map stripComment (split LF input)).
Proof.
  unfold sanitizeInput. intros H. apply split_join.
  - intros E. rewrite E in H. apply H. reflexivity.
  - intros l Hl. apply (sanitized_lines input l Hl).
Qed.

Lemma sanitizeInput_idempotent (input : str) :
  sanitizeInput (sanitizeInput input) = sanitizeInput input.
Proof.
  destruct (sanitizeInput input) as [|c s] eqn:E; [reflexivity|].
  rewrite <- E. unfold sanitizeInput at 1.
  rewrite sanitizeInput_lines by (rewrite E; discriminate).
  rewrite map_fixed, filter_fixed; [reflexivity | |].
  - intros l Hl. apply (sanitized_lines input l Hl).
  - intros l Hl. apply stripComment_fixed. apply (sanitized_lines input l Hl).
Qed.

(** X5.  The text the sanitizer returns holds no comment marker and no line
    that is blank or without a content character; sanitizing it again
    changes nothing; and a caller that sanitizes before calling
    [parseDirectoryStructure] gets the same result, unless nothing is left. *)
Theorem sanitize_is_clean_and_idempotent (generateId : nat -> str) (input : str) :
  ~ In HASH (sanitizeInput input)
  /\ (sanitizeInput input <> [] ->
      forall l, In l (split LF (sanitizeInput input)) ->
                trim l <> [] /\ existsb isContentChar (trim l) = true)
  /\ sanitizeInput (sanitizeInput input) = sanitizeInput input
  /\ (trim (sanitizeInput input) <> [] ->
      parseDirectoryStructure generateId (sanitizeInput input)
      = parseDirectoryStructure generateId input).
Proof.
  split; [|split; [|split]].
  - intros H. unfold sanitizeInput in H. apply in_join in H.
    destruct H as [H | (l & Hl & Hc)]; [discriminate|].
    destruct (sanitized_lines input l Hl) as (_ & Hh & _). exact (Hh Hc).
  - intros Hne l Hl. rewrite (sanitizeInput_lines _ Hne) in Hl.
    destruct (sanitized_lines input l Hl) as [K _]. unfold keepLine in K.
    destruct (trim l) as [|c t]; [discriminate|]. split; [discriminate | exact K].
  - apply sanitizeInput_idempotent.
  - intros H. unfold parseDirectoryStructure. rewrite sanitizeInput_idempotent.
    assert (E1 : isEmpty (sanitizeInput input) || isEmpty (trim (sanitizeInput input))
                 = false).
    { apply orb_false_iff. split; apply isEmpty_false; [|exact H].
      intros E. rewrite E in H. apply H. reflexivity. }
    rewrite E1.
    destruct (trim (sanitizeInput input)) as [|c t] eqn:T; [congruence|].
    assert (Hc : isSpace c = false) by (eapply trim_starts_not_space; eauto).
    assert (Hin : In c input).
    { assert (G : In c (sanitizeInput input)).
      { apply in_trim. rewrite T. left. reflexivity. }
      apply in_sanitizeInput in G. destruct G as [-> | G]; [discriminate | exact G]. }
    assert (E2 : isEmpty input || isEmpty (trim input) = false).
    { apply orb_false_iff. split; apply isEmpty_false.
      - intros ->. destruct Hin.
      - eapply in_not_all_space; eauto. }
    rewrite E2. reflexivity.
Qed.

Lemma sanitize_is_clean_and_idempotent_witness :
  parseDirectoryStructure (fun _ => []) (sanitizeInput (lit "- src/ # sources"))
  = parseDirectoryStructure (fun _ => []) (lit "- src/ # sources").
Proof.
  apply (sanitize_is_clean_and_idempotent (fun _ => []) (lit "- src/ # sources")).
  vm_compute. discriminate.
Defined.

(* ================================================================== *)
(** * The parsers build the forest in document order *)
(* ================================================================== *)

Lemma ids_app (f g : list TreeNode) : ids (f ++ g) = ids f ++ ids g.
Proof. unfold ids, forest_nodes. rewrite flat_map_app, map_app. reflexivity. Qed.

Lemma ids_leaf (c : TreeNode) : kids c = [] -> ids [c] = [id c].
Proof. intros K. rewrite ids_cons, K. reflexivity. Qed.

Lemma length_list_alter {A : Type} (g : A -> A) (i : nat) (l : list A) :
  length (list_alter g i l) = length l.
Proof.
  revert i; induction l as [|x l IH]; intros [|i]; simpl; auto.
Qed.

Lemma ids_list_alter_last (h : TreeNode -> TreeNode) (extra : list str) :
  forall (f : list TreeNode) (i : nat) (x : TreeNode),
  S i = length f -> nth_error f i = Some x ->
  ids [h x] = ids [x] ++ extra ->
  ids (list_alter h i f) = ids f ++ extra.
Proof.
  induction f as [|y r IH]; intros [|i] x L E H; try discriminate.
  - destruct r; [|discriminate]. injection E as ->. exact H.
  - cbn [list_alter]. cbn [nth_error] in E. cbn [length] in L.
    change (y :: list_alter h i r) with ([y] ++ list_alter h i r).
    change (y :: r) with ([y] ++ r).
    rewrite !ids_app, (IH i x) by (auto; lia). rewrite app_assoc. reflexivity.
Qed.

Lemma ids_push_rightmost (c : TreeNode) (p : list nat) :
  forall (f : list TreeNode) (parent : TreeNode),
  rightmost p f -> node_at p f = Some parent -> children parent <> None ->
  ids (alter_at (pushChild c) p f) = ids f ++ ids [c].
Proof.
  induction p as [|i p IH]; intros f parent R Hp Hc; [destruct R|].
  rewrite alter_at_push. destruct R as [L R].
  rewrite node_at_cons in Hp.
  destruct (nth_error f i) as [x|] eqn:Ei; [|discriminate].
  apply (ids_list_alter_last _ _ f i x L Ei).
  destruct p as [|j p]; unfold push_step.
  - injection Hp as ->. unfold pushChild.
    destruct (children parent) as [cs|] eqn:C; [|congruence].
    rewrite !ids_cons, !app_nil_r.
    change (id (with_children parent (Some (cs ++ [c])))) with (id parent).
    change (kids (with_children parent (Some (cs ++ [c])))) with (cs ++ [c]).
    replace (kids parent) with cs by (unfold kids; rewrite C; reflexivity).
    rewrite ids_app, ids_cons, app_nil_r. reflexivity.
  - destruct (children x) as [cs|] eqn:C.
    + assert (K : kids x = cs) by (unfold kids; rewrite C; reflexivity).
      rewrite K in *.
      rewrite (ids_cons (with_children x _)), (ids_cons x), !app_nil_r.
      change (id (with_children x (Some (alter_at (pushChild c) (j :: p) cs))))
        with (id x).
      change (kids (with_children x (Some (alter_at (pushChild c) (j :: p) cs))))
        with (alter_at (pushChild c) (j :: p) cs).
      rewrite K, (IH cs parent R Hp Hc). reflexivity.
    + unfold kids in Hp. rewrite C in Hp. destruct j; discriminate.
Qed.

Lemma rightmost_push_kept (c : TreeNode) (q : list nat) :
  forall (p : list nat) (f : list TreeNode),
  rightmost q f -> rightmost p f -> (length q <= length p)%nat ->
  rightmost q (alter_at (pushChild c) p f).
Proof.
  induction q as [|i q IH]; intros p f Rq Rp L; [destruct Rq|].
  destruct p as [|j p]; [destruct Rp|].
  rewrite alter_at_push. destruct Rq as [Lq Rq]. destruct Rp as [Lp Rp].
  assert (j = i) by lia. subst j.
  cbn [rightmost]. rewrite length_list_alter. split; [exact Lq|].
  destruct q as [|k q]; [exact I|].
  rewrite list_alter_nth_same.
  destruct (nth_error f i) as [x|] eqn:Ei; [|destruct Rq]. simpl option_map.
  destruct p as [|j p]; [simpl in L; lia|].
  unfold push_step. destruct (children x) as [cs|] eqn:C.
  - assert (K : kids x = cs) by (unfold kids; rewrite C; reflexivity).
    rewrite K in *.
    change (kids (with_children x (Some (alter_at (pushChild c) (j :: p) cs))))
      with (alter_at (pushChild c) (j :: p) cs).
    apply IH; [exact Rq | exact Rp | simpl in *; lia].
  - exact Rq.
Qed.

Lemma rightmost_child_ref (c : TreeNode) (p : list nat) :
  forall (f : list TreeNode) (parent : TreeNode),
  rightmost p f -> node_at p f = Some parent -> children parent <> None ->
  rightmost (child_ref p f) (alter_at (pushChild c) p f).
Proof.
  induction p as [|i p IH]; intros f parent R Hp Hc; [destruct R|].
  unfold child_ref. rewrite Hp, alter_at_push. destruct R as [L R].
  rewrite node_at_cons in Hp.
  destruct (nth_error f i) as [x|] eqn:Ei; [|discriminate].
  change ((i :: p) ++ [length (kids parent)]) with (i :: (p ++ [length (kids parent)])).
  cbn [rightmost]. rewrite length_list_alter, list_alter_nth_same, Ei.
  split; [exact L|]. simpl option_map.
  destruct p as [|j p].
  - injection Hp as ->. simpl app. unfold push_step. rewrite kids_pushChild.
    destruct (children parent); [|congruence].
    cbn [rightmost]. rewrite length_app. simpl. split; [lia | exact I].
  - simpl app. unfold push_step.
    destruct (children x) as [cs|] eqn:C.
    + assert (K : kids x = cs) by (unfold kids; rewrite C; reflexivity).
      rewrite K in *.
      change (kids (with_children x (Some (alter_at (pushChild c) (j :: p) cs))))
        with (alter_at (pushChild c) (j :: p) cs).
      specialize (IH cs parent R Hp Hc). unfold child_ref in IH.
      rewrite Hp in IH. exact IH.
    + unfold kids in Hp. rewrite C in Hp. destruct j; discriminate.
Qed.

Lemma length_child_ref (p : list nat) (f : list TreeNode) :
  length (child_ref p f) = S (length p).
Proof.
  unfold child_ref. destruct (node_at p f); rewrite length_app; simpl; lia.
Qed.

Lemma rightmost_app_l (p : list nat) (f : list TreeNode) (c : TreeNode) :
  rightmost [length f] (f ++ [c]).
Proof. cbn [rightmost]. rewrite length_app. simpl. split; [lia | exact I]. Qed.

Lemma popWhile_suffix (key : Z) (stack : list Frame) :
  exists popped, stack = popped ++ popWhile key stack.
Proof.
  induction stack as [|fr stack IH]; simpl; [exists []; reflexivity|].
  destruct (indent fr >=? key)%Z.
  - destruct IH as [popped E]. exists (fr :: popped). simpl. congruence.
  - exists []. reflexivity.
Qed.

Lemma nested_suffix (popped stack : list Frame) :
  nested (popped ++ stack) -> nested stack.
Proof.
  induction popped as [|fr popped IH]; simpl; [auto|]. intros [_ H]. auto.
Qed.

Lemma attach_order (generateId : nat -> str) (st : Builder) (node : TreeNode)
  (key : Z) (isFolder : bool) :
  order_ok generateId st ->
  id node = generateId (created st) -> kids node = [] ->
  (isFolder = true -> children node <> None) ->
  order_ok generateId (attach st node key isFolder).
Proof.
  intros (Hids & Hopen & Hnest) Hid Hk Hf. unfold attach.
  destruct (popWhile_suffix key (stack st)) as [popped E].
  rewrite E in Hopen, Hnest. apply Forall_app in Hopen. destruct Hopen as [_ Hopen].
  apply nested_suffix in Hnest.
  destruct (popWhile key (stack st)) as [|parent stack1]; unfold order_ok;
    cbn [root stack created].
  - split; [|split].
    + rewrite ids_app, Hids, seq_S, map_app, (ids_leaf _ Hk), Hid. reflexivity.
    + destruct isFolder; [|constructor]. constructor; [|constructor].
      split; [apply rightmost_app_l; exact [] |]. cbn [node_ref].
      exists node. split; [apply node_at_last | auto].
    + destruct isFolder; simpl; auto.
  - inversion Hopen as [|? ? [Rp (pn & Hpn & Hpc)] Hopen1]; subst.
    destruct Hnest as [Hshort Hnest1].
    assert (Keep : Forall (open_ok (alter_at (pushChild node) (node_ref parent) (root st)))
                          (parent :: stack1)).
    { constructor.
      - split; [apply rightmost_push_kept; auto|].
        destruct (node_at_push_kept node (node_ref parent) (root st) _ pn Hpn)
          as (n' & Hn' & _ & Hch).
        exists n'. auto.
      - rewrite Forall_forall in *. intros fr Hfr.
        destruct (Hopen1 fr Hfr) as [Rq (n & Hn & Hc)].
        specialize (Hshort fr Hfr). split.
        + apply rightmost_push_kept; auto. lia.
        + destruct (node_at_push_kept node (node_ref parent) (root st) _ n Hn)
            as (n' & Hn' & _ & Hch).
          exists n'. auto. }
    split; [|split].
    + rewrite (ids_push_rightmost node _ _ pn Rp Hpn Hpc), Hids, seq_S, map_app,
        (ids_leaf _ Hk), Hid. reflexivity.
    + destruct isFolder; [|exact Keep]. constructor; [|exact Keep].
      cbn [node_ref]. split.
      * apply rightmost_child_ref with pn; assumption.
      * exists node. split; [apply node_at_child_ref with pn; assumption | auto].
    + destruct isFolder; [|split; assumption].
      cbn [nested]. split; [|split; assumption]. cbn [node_ref].
      rewrite length_child_ref. constructor; [lia|].
      eapply Forall_impl; [|exact Hshort]. intros fr H. cbn beta in H. lia.
Qed.

(** ** Induction over the two loops *)

Section LoopInduction.

Variable generateId : nat -> str.
Variable Inv : Builder -> Prop.

Lemma markdown_loop_ind :
  Inv emptyBuilder ->
  (forall st w name, Inv st -> Inv (addMarkdownNode generateId st w name)) ->
  forall input,
    Inv (fold_left (markdownLine generateId) (split LF input) emptyBuilder).
Proof.
  intros H0 Hstep input. generalize (split LF input) as lines.
  assert (G : forall lines st, Inv st ->
                Inv (fold_left (markdownLine generateId) lines st)).
  { induction lines as [|l lines IH]; intros st H; simpl; [exact H|].
    apply IH. unfold markdownLine.
    destruct (isEmpty (trim l)); [exact H|].
    destruct (matchBullet l) as [[g1 g2]|]; [apply Hstep; exact H|].
    destruct (matchPlain l) as [[g1 g2]|]; [|exact H].
    destruct (negb (isEmpty (trim g2))); [apply Hstep; exact H | exact H]. }
  intros lines. apply G. exact H0.
Qed.

Lemma ascii_loop_ind :
  Inv emptyBuilder ->
  (forall name, Inv (opened_root generateId name)) ->
  (forall st name level,
     (0 <= level)%Z -> Inv st ->
     Inv (attach st (newNode generateId (created st) name level) level
                 (endsWith name [SLASH]))) ->
  forall input,
    Inv (fst (fold_left (asciiLine generateId) (split LF input)
                        (emptyBuilder, 0%nat))).
Proof.
  intros H0 Hroot Hstep input. generalize (split LF input) as lines.
  assert (G : forall lines acc,
                (snd acc = 0%nat -> fst acc = emptyBuilder) -> Inv (fst acc) ->
                Inv (fst (fold_left (asciiLine generateId) lines acc))).
  { induction lines as [|l lines IH]; intros [st i] Hi H; simpl; [exact H|].
    cbn [fst snd] in *. apply IH; unfold asciiLine; cbn [fst snd];
      [discriminate|].
    destruct (isEmpty (trim l)); [exact H|].
    destruct (scanPrefix l) as [[[cleanLine level] found]|] eqn:Scan; [|exact H].
    assert (L : (0 <= level)%Z) by (eapply scanLoop_level; exact Scan).
    destruct (isEmpty (trim cleanLine)); [exact H|].
    destruct (negb found && (i =? 0)%nat && endsWith (trim cleanLine) [SLASH])
      eqn:First.
    - apply andb_true_iff in First. destruct First as [First _].
      apply andb_true_iff in First. destruct First as [_ First].
      apply Nat.eqb_eq in First. rewrite (Hi First). apply Hroot.
    - apply Hstep; assumption. }
  intros lines. apply G; [reflexivity | exact H0].
Qed.

End LoopInduction.

(** ** Ids *)

Lemma ids_adjustDepth (k : Z) (f : list TreeNode) : ids (adjustDepth f k) = ids f.
Proof.
  revert f. apply (forest_ind (fun f => ids (adjustDepth f k) = ids f)).
  - reflexivity.
  - intros x rest IHk IHr. unfold adjustDepth in *. cbn [map].
    rewrite !ids_cons, kids_adjustNode. unfold adjustDepth. rewrite IHk, IHr.
    destruct x as [i nm t d e [cs|]]; reflexivity.
Qed.

Lemma finish_ids (root f : list TreeNode) :
  finish root = Success f -> ids f = ids root.
Proof.
  intros H. apply finish_success in H.
  destruct H as [[_ ->] | (r & c & cs & -> & _ & C & ->)]; [reflexivity|].
  rewrite !ids_cons.
  change (kids (with_children r (Some (adjustDepth (c :: cs) 1))))
    with (adjustDepth (c :: cs) 1).
  rewrite ids_adjustDepth. unfold kids. rewrite C. reflexivity.
Qed.

Lemma kids_newNode (generateId : nat -> str) (k : nat) (name : str) (d : Z) :
  kids (newNode generateId k name d) = [].
Proof. unfold newNode, kids. destruct (endsWith name [SLASH]); reflexivity. Qed.

Lemma newNode_order (generateId : nat -> str) (st : Builder) (name : str)
  (d key : Z) :
  order_ok generateId st ->
  order_ok generateId
    (attach st (newNode generateId (created st) name d) key (endsWith name [SLASH])).
Proof.
  intros H. apply attach_order; [exact H | reflexivity | apply kids_newNode|].
  apply children_newNode.
Qed.

Lemma emptyBuilder_order (generateId : nat -> str) : order_ok generateId emptyBuilder.
Proof. split; [reflexivity|]. split; [constructor | exact I]. Qed.

Lemma opened_root_order (generateId : nat -> str) (name : str) :
  order_ok generateId (opened_root generateId name).
Proof.
  split; [reflexivity|]. split; [|split; [constructor | exact I]].
  constructor; [|constructor]. split; [split; [reflexivity | exact I]|].
  eexists. split; [reflexivity | discriminate].
Qed.

Lemma parseMarkdown_ids (generateId : nat -> str) (input : str) (f : list TreeNode) :
  parseMarkdown generateId input = Success f ->
  exists n, ids f = map generateId (seq 0 n).
Proof.
  unfold parseMarkdown. intros H. apply finish_ids in H. rewrite H.
  eexists. apply (markdown_loop_ind generateId (order_ok generateId)).
  - apply emptyBuilder_order.
  - intros st w name Hst. unfold addMarkdownNode. apply newNode_order. exact Hst.
Qed.

Lemma parseAscii_ids (generateId : nat -> str) (input : str) (f : list TreeNode) :
  parseAscii generateId input = Success f ->
  exists n, ids f = map generateId (seq 0 n).
Proof.
  unfold parseAscii. intros H. apply finish_ids in H. rewrite H.
  eexists. apply (ascii_loop_ind generateId (order_ok generateId)).
  - apply emptyBuilder_order.
  - apply opened_root_order.
  - intros st name level _ Hst. apply newNode_order. exact Hst.
Qed.

Lemma NoDup_map_seq {A : Type} (g : nat -> A) (n : nat) :
  (forall i j, (i < n)%nat -> (j < n)%nat -> g i = g j -> i = j) ->
  NoDup (map g (seq 0 n)).
Proof.
  induction n as [|n IH]; intros H; [constructor|].
  rewrite seq_S, map_app. simpl. apply NoDup_app.
  - apply IH. intros i j Hi Hj. apply H; lia.
  - constructor; [intros [] | constructor].
  - intros a Ha [<- | []]. apply in_map_iff in Ha. destruct Ha as (i & E & Hi).
    apply in_seq in Hi. assert (i = n) by (apply H; [lia | lia | exact E]). lia.
Qed.

(** X6.  The nodes of a parsed forest carry, in document order, the ids that
    [generateId] returned, one call per node: the [k]-th node has the id of
    the [k]-th call.  So the ids are pairwise distinct as soon as these calls
    returned distinct values. *)
Theorem parsed_ids_in_document_order (generateId : nat -> str) (input : str)
  (f : list TreeNode) :
  parseDirectoryStructure generateId input = Success f
  \/ parseMarkdown generateId input = Success f
  \/ parseAscii generateId input = Success f ->
  ids f = map generateId (seq 0 (length (forest_nodes f)))
  /\ ((forall i j, (i < length (forest_nodes f))%nat ->
                   (j < length (forest_nodes f))%nat ->
                   generateId i = generateId j -> i = j) ->
      NoDup (ids f)).
Proof.
  intros H.
  assert (E : exists n, ids f = map generateId (seq 0 n)).
  { destruct H as [H | [H | H]].
    - revert H. unfold parseDirectoryStructure.
      destruct (isEmpty input || isEmpty (trim input)); [discriminate|].
      destruct (isEmpty (trim (sanitizeInput input))); [discriminate|].
      destruct (detectFormat (sanitizeInput input)); [| |discriminate].
      + apply parseMarkdown_ids.
      + apply parseAscii_ids.
    - eapply parseMarkdown_ids; exact H.
    - eapply parseAscii_ids; exact H. }
  destruct E as [n E].
  assert (L : n = length (forest_nodes f)).
  { apply (f_equal (@length _)) in E. unfold ids in E.
    rewrite !length_map, length_seq in E. congruence. }
  subst n. split; [exact E|]. intros Hinj. rewrite E. apply NoDup_map_seq. exact Hinj.
Qed.

Lemma parsed_ids_in_document_order_witness :
  exists f, parseDirectoryStructure (fun k => [N.of_nat k]) ascii_example = Success f
            /\ NoDup (ids f).
Proof.
  eexists. split; [vm_compute; reflexivity|].
  apply (parsed_ids_in_document_order (fun k => [N.of_nat k]) ascii_example _).
  - left. vm_compute. reflexivity.
  - intros i j _ _ E. injection E as E. apply Nat2N.inj. exact E.
Defined.

(** ** The nodes of a parsed forest *)

Lemma forest_nodes_cons_app (x : TreeNode) (rest : list TreeNode) :
  forest_nodes (x :: rest) = subtree x ++ forest_nodes rest.
Proof. reflexivity. Qed.

Lemma all_list_alter (Q : TreeNode -> Prop) (h : TreeNode -> TreeNode) :
  forall (f : list TreeNode) (i : nat),
  Forall Q (forest_nodes f) ->
  (forall x, nth_error f i = Some x -> Forall Q (subtree x) ->
             Forall Q (subtree (h x))) ->
  Forall Q (forest_nodes (list_alter h i f)).
Proof.
  induction f as [|y r IH]; intros [|i] H Hh; cbn [list_alter]; try exact H.
  - rewrite forest_nodes_cons_app in *. apply Forall_app in H.
    destruct H as [Hy Hr]. apply Forall_app. split; [|exact Hr].
    apply Hh; [reflexivity | exact Hy].
  - rewrite forest_nodes_cons_app in *. apply Forall_app in H.
    destruct H as [Hy Hr]. apply Forall_app. split; [exact Hy|].
    apply IH; [exact Hr | exact Hh].
Qed.

Section AllNodes.

Variable Q : TreeNode -> Prop.
Hypothesis Q_children :
  forall n cs, Q n -> children n <> None -> Q (with_children n (Some cs)).

Lemma all_push (c : TreeNode) (p : list nat) :
  forall f, Forall Q (forest_nodes f) -> Forall Q (subtree c) ->
            Forall Q (forest_nodes (alter_at (pushChild c) p f)).
Proof.
  induction p as [|i p IH]; intros f H Hc; [exact H|].
  rewrite alter_at_push. apply all_list_alter; [exact H|].
  intros x _ Hx. rewrite subtree_eq in Hx. inversion Hx as [|? ? Qx Hk]; subst.
  destruct p as [|j p]; unfold push_step.
  - unfold pushChild. destruct (children x) as [cs|] eqn:C;
      [|rewrite subtree_eq; constructor; assumption].
    rewrite subtree_eq. constructor; [apply Q_children; congruence|].
    change (kids (with_children x (Some (cs ++ [c])))) with (cs ++ [c]).
    unfold forest_nodes. rewrite flat_map_app. apply Forall_app. split.
    + unfold kids in Hk. rewrite C in Hk. exact Hk.
    + simpl. rewrite app_nil_r. exact Hc.
  - destruct (children x) as [cs|] eqn:C;
      [|rewrite subtree_eq; constructor; assumption].
    rewrite subtree_eq. constructor; [apply Q_children; congruence|].
    change (kids (with_children x (Some (alter_at (pushChild c) (j :: p) cs))))
      with (alter_at (pushChild c) (j :: p) cs).
    apply IH; [|exact Hc]. unfold kids in Hk. rewrite C in Hk. exact Hk.
Qed.

Lemma all_attach (st : Builder) (node : TreeNode) (key : Z) (isFolder : bool) :
  Forall Q (forest_nodes (root st)) -> Forall Q (subtree node) ->
  Forall Q (forest_nodes (root (attach st node key isFolder))).
Proof.
  intros H Hn. unfold attach.
  destruct (popWhile key (stack st)) as [|parent stack1]; cbn [root].
  - unfold forest_nodes. rewrite flat_map_app. apply Forall_app. split; [exact H|].
    simpl. rewrite app_nil_r. exact Hn.
  - apply all_push; assumption.
Qed.

End AllNodes.

Lemma parsed_node_children (n : TreeNode) (cs : list TreeNode) :
  parsed_node n -> children n <> None -> parsed_node (with_children n (Some cs)).
Proof.
  intros (He & Hk & Hd) Hc. split; [exact He|]. split; [|exact Hd].
  cbn. split; [discriminate | intros _; apply Hk; exact Hc].
Qed.

Lemma parsed_newNode (generateId : nat -> str) (k : nat) (name : str) (d : Z) :
  (0 <= d)%Z -> Forall parsed_node (subtree (newNode generateId k name d)).
Proof.
  intros Hd. rewrite subtree_eq, kids_newNode. constructor; [|constructor].
  unfold newNode, parsed_node. destruct (endsWith name [SLASH]); cbn.
  - split; [reflexivity|]. split; [|exact Hd]. split; [discriminate | reflexivity].
  - split; [reflexivity|]. split; [|exact Hd]. split; [discriminate | congruence].
Qed.

Lemma forest_nodes_adjustDepth (k : Z) (f : list TreeNode) :
  forest_nodes (adjustDepth f k) = map (adjustNode k) (forest_nodes f).
Proof.
  revert f. apply (forest_ind (fun f =>
    forest_nodes (adjustDepth f k) = map (adjustNode k) (forest_nodes f))).
  - reflexivity.
  - intros x rest IHk IHr. unfold adjustDepth in *. cbn [map].
    rewrite !forest_nodes_cons, kids_adjustNode. unfold adjustDepth.
    rewrite IHk, IHr. cbn [map]. rewrite map_app. reflexivity.
Qed.

Lemma parsed_adjustNode (n : TreeNode) : parsed_node n -> parsed_node (adjustNode 1 n).
Proof.
  unfold parsed_node.
  destruct n as [i nm t d e [cs|]]; intros (He & Hk & Hd);
    cbn [adjustNode isExpanded type children depth] in *;
    (split; [exact He|]); (split; [|lia]).
  - split; [discriminate | intros _; apply Hk; discriminate].
  - split; [intros T; apply Hk in T; congruence | congruence].
Qed.

Lemma finish_parsed (root f : list TreeNode) :
  Forall parsed_node (forest_nodes root) -> finish root = Success f ->
  Forall parsed_node (forest_nodes f).
Proof.
  intros H E. apply finish_success in E.
  destruct E as [[_ ->] | (r & c & cs & -> & _ & C & ->)]; [exact H|].
  rewrite forest_nodes_cons, app_nil_r in *. inversion H as [|? ? Hr Hk]; subst.
  constructor.
  - apply parsed_node_children; [exact Hr | congruence].
  - change (kids (with_children r (Some (adjustDepth (c :: cs) 1))))
      with (adjustDepth (c :: cs) 1).
    rewrite forest_nodes_adjustDepth. unfold kids in Hk. rewrite C in Hk.
    rewrite Forall_map. eapply Forall_impl; [|exact Hk].
    intros n. apply parsed_adjustNode.
Qed.

Lemma parseMarkdown_parsed (generateId : nat -> str) (input : str)
  (f : list TreeNode) :
  parseMarkdown generateId input = Success f -> Forall parsed_node (forest_nodes f).
Proof.
  unfold parseMarkdown. apply finish_parsed.
  apply (markdown_loop_ind generateId
           (fun st => Forall parsed_node (forest_nodes (root st)))).
  - constructor.
  - intros st w name H. unfold addMarkdownNode.
    apply all_attach; [apply parsed_node_children | exact H|].
    apply parsed_newNode. apply Z.div_pos; lia.
Qed.

Lemma parseAscii_parsed (generateId : nat -> str) (input : str) (f : list TreeNode) :
  parseAscii generateId input = Success f -> Forall parsed_node (forest_nodes f).
Proof.
  unfold parseAscii. apply finish_parsed.
  apply (ascii_loop_ind generateId
           (fun st => Forall parsed_node (forest_nodes (root st)))).
  - constructor.
  - intros name. constructor; [|constructor]. split; [reflexivity|].
    split; [|reflexivity]. cbn. split; [discriminate | reflexivity].
  - intros st name level L H.
    apply all_attach; [apply parsed_node_children | exact H|].
    apply parsed_newNode. exact L.
Qed.

Lemma finish_nonempty (root f : list TreeNode) : finish root = Success f -> f <> [].
Proof.
  intros H. apply finish_success in H.
  destruct H as [[H ->] | (r & c & cs & -> & _ & C & ->)]; [exact H | discriminate].
Qed.

(** X7.  A parsed forest is not empty, and every node of it has its flag set
    to [true], has a [children] array exactly when it is a folder, and has a
    depth that is not negative. *)
Theorem parsed_nodes_well_formed (generateId : nat -> str) (input : str)
  (f : list TreeNode) :
  parseDirectoryStructure generateId input = Success f
  \/ parseMarkdown generateId input = Success f
  \/ parseAscii generateId input = Success f ->
  f <> []
  /\ forall n, In n (forest_nodes f) ->
       isExpanded n = Some true
       /\ (type n = folder <-> children n <> None)
       /\ (0 <= depth n)%Z.
Proof.
  intros H.
  assert (G : f <> [] /\ Forall parsed_node (forest_nodes f)).
  { destruct H as [H | [H | H]].
    - revert H. unfold parseDirectoryStructure.
      destruct (isEmpty input || isEmpty (trim input)); [discriminate|].
      destruct (isEmpty (trim (sanitizeInput input))); [discriminate|].
      destruct (detectFormat (sanitizeInput input)); [| |discriminate]; intros H.
      + split; [eapply finish_nonempty; exact H | eapply parseMarkdown_parsed; exact H].
      + split; [eapply finish_nonempty; exact H | eapply parseAscii_parsed; exact H].
    - split; [eapply finish_nonempty; exact H | eapply parseMarkdown_parsed; exact H].
    - split; [eapply finish_nonempty; exact H | eapply parseAscii_parsed; exact H]. }
  destruct G as [G1 G2]. split; [exact G1|]. rewrite Forall_forall in G2. exact G2.
Qed.

Lemma parsed_nodes_well_formed_witness :
  exists f, parseDirectoryStructure (fun _ => []) markdown_example = Success f
            /\ f <> [].
Proof.
  eexists. split; [vm_compute; reflexivity|].
  apply (parsed_nodes_well_formed (fun _ => []) markdown_example _).
  left. vm_compute. reflexivity.
Defined.

(* ================================================================== *)
(** * The un-prefixed root of an ASCII text *)
(* ================================================================== *)



Lemma str_eqb_firstn (tok s : str) :
  str_eqb (firstn (length tok) s) tok = startsWith s tok.
Proof.
  revert s; induction tok as [|x tok IH]; intros [|c s]; simpl; auto.
  rewrite IH. reflexivity.
Qed.

Lemma find_none_all {A : Type} (p : A -> bool) (l : list A) :
  existsb p l = false -> find p l = None.
Proof.
  induction l as [|x l IH]; simpl; [reflexivity|].
  destruct (p x); simpl; [discriminate | exact IH].
Qed.







(* ================================================================== *)
(** * Markdown lines that end with a line terminator *)
(* ================================================================== *)

Lemma ends_tail (c : char) (s : str) :
  ends_with_terminator (c :: s) -> ends_with_terminator s.
Proof.
  intros [H | H]; [discriminate|]. destruct s as [|x s]; [left; reflexivity|].
  right. exact H.
Qed.

Lemma ends_skipn (k : nat) (s : str) :
  ends_with_terminator s -> ends_with_terminator (skipn k s).
Proof.
  revert s; induction k as [|k IH]; intros s H; [exact H|].
  destruct s as [|c s]; [exact H|]. simpl. apply IH. eapply ends_tail; eauto.
Qed.

Lemma ends_dropWhile (p : char -> bool) (s : str) :
  ends_with_terminator s -> ends_with_terminator (dropWhile p s).
Proof.
  induction s as [|c s IH]; intros H; simpl; [exact H|].
  destruct (p c); [|exact H]. apply IH. eapply ends_tail; eauto.
Qed.

Lemma in_last (s : str) (d : char) : s <> [] -> In (last s d) s.
Proof.
  induction s as [|c s IH]; [congruence|]. intros _.
  destruct s as [|x s]; [left; reflexivity|]. right. apply IH. discriminate.
Qed.

Lemma dotPlusToEnd_terminator (s : str) :
  ends_with_terminator s -> dotPlusToEnd s = false.
Proof.
  intros [-> | H]; [reflexivity|]. unfold dotPlusToEnd.
  destruct s as [|c s]; [reflexivity|]. cbn [isEmpty negb andb].
  destruct (forallb _ (c :: s)) eqn:F; [|reflexivity].
  rewrite forallb_forall in F.
  specialize (F _ (in_last (c :: s) 0%N ltac:(discriminate))).
  rewrite H in F. discriminate.
Qed.

Lemma spacesThenDotPlus_terminator (k : nat) (s : str) :
  ends_with_terminator s -> spacesThenDotPlus k s = None.
Proof.
  intros H. induction k as [|k IH]; cbn [spacesThenDotPlus];
    rewrite dotPlusToEnd_terminator by (apply ends_skipn; exact H); auto.
Qed.

Lemma markdownLine_terminator (generateId : nat -> str) (st : Builder) (line : str) :
  ends_with_terminator line -> markdownLine generateId st line = st.
Proof.
  intros H. unfold markdownLine.
  destruct (isEmpty (trim line)); [reflexivity|].
  assert (B : matchBullet line = None).
  { unfold matchBullet.
    destruct (dropWhile isSpace line) as [|c rest] eqn:D; [reflexivity|].
    destruct (c =? DASH)%N; [|reflexivity].
    rewrite spacesThenDotPlus_terminator; [reflexivity|].
    apply (ends_tail c). rewrite <- D. apply ends_dropWhile. exact H. }
  rewrite B. unfold matchPlain. rewrite spacesThenDotPlus_terminator by exact H.
  reflexivity.
Qed.

Lemma markdown_fold_terminators (generateId : nat -> str) (lines : list str)
  (st : Builder) :
  (forall l, In l lines -> ends_with_terminator l) ->
  fold_left (markdownLine generateId) lines st = st.
Proof.
  revert st; induction lines as [|l lines IH]; intros st H; simpl; [reflexivity|].
  rewrite markdownLine_terminator by (apply H; left; reflexivity).
  apply IH. intros l' Hl'. apply H. right. exact Hl'.
Qed.

Lemma detectFormat_ascii (s : str) :
  detectFormat s = ascii -> exists c, In [c] asciiChars /\ In c s.
Proof.
  unfold detectFormat.
  destruct (existsb (fun c => includes s c) asciiChars) eqn:E.
  - intros _. apply existsb_exists in E. destruct E as (g & Hg & Hi).
    assert (G : exists c, g = [c]).
    { unfold asciiChars in Hg. simpl in Hg.
      destruct Hg as [<- | [<- | [<- | [<- | []]]]]; eexists; reflexivity. }
    destruct G as [c ->]. exists c. split; [exact Hg|].
    apply includes_single. exact Hi.
  - cbv zeta.
    repeat match goal with
           | |- context [if ?b then _ else _] => destruct b
           end; discriminate.
Qed.

(** X9.  The Markdown parser skips every line that ends with a line
    terminator: a text whose lines all end with a carriage return (Windows
    line ends) is rejected with "No valid directory structure found in
    input", and the facade never accepts such a text when it has no comment
    marker and no box-drawing glyph. *)
Theorem markdown_rejects_terminated_lines (generateId : nat -> str) (input : str) :
  (forall l, In l (split LF input) -> ends_with_terminator l) ->
  parseMarkdown generateId input = Failure NO_STRUCTURE
  /\ (~ In HASH input ->
      (forall c, In [c] asciiChars -> ~ In c input) ->
      forall f, parseDirectoryStructure generateId input <> Success f).
Proof.
  intros H. split.
  - unfold parseMarkdown. rewrite markdown_fold_terminators by exact H. reflexivity.
  - intros Hhash Hglyph f. unfold parseDirectoryStructure.
    destruct (isEmpty input || isEmpty (trim input)); [discriminate|].
    destruct (isEmpty (trim (sanitizeInput input))) eqn:E; [discriminate|].
    assert (Hne : sanitizeInput input <> []).
    { intros G. rewrite G in E. discriminate. }
    destruct (detectFormat (sanitizeInput input)) eqn:D; [| |discriminate].
    + unfold parseMarkdown. rewrite sanitizeInput_lines by exact Hne.
      rewrite markdown_fold_terminators; [discriminate|].
      intros l Hl. apply filter_In in Hl. destruct Hl as [Hl _].
      apply in_map_iff in Hl. destruct Hl as (l0 & <- & Hl0).
      rewrite stripComment_fixed; [apply H; exact Hl0|].
      intros G. apply Hhash. eapply in_split; eauto.
    + exfalso. apply detectFormat_ascii in D. destruct D as (c & Hg & Hc).
      apply in_sanitizeInput in Hc. destruct Hc as [-> | Hc].
      * apply glyph_not_space in Hg. destruct Hg as [_ Hg]. congruence.
      * exact (Hglyph c Hg Hc).
Qed.

Lemma markdown_rejects_terminated_lines_witness :
  parseMarkdown (fun _ => []) (lit "- src/" ++ [13; 10]%N ++ lit "  - index.ts" ++ [13]%N)
  = Failure NO_STRUCTURE.
Proof.
  apply (markdown_rejects_terminated_lines (fun _ => [])).
  vm_compute. intros l [<- | [<- | []]]; right; reflexivity.
Defined.

(* ================================================================== *)
(** * The formatter *)
(* ================================================================== *)

Lemma node_kids_ind (Q : TreeNode -> Prop) :
  (forall n, Forall Q (kids n) -> Q n) -> forall n, Q n.
Proof.
  intros H n. apply H.
  apply (kids_forest_ind (fun f => Forall Q f)); [constructor|].
  intros x rest Hk Hr. constructor; [apply H; exact Hk | exact Hr].
Qed.

Lemma flat_map_map {A B C : Type} (g : A -> B) (h : B -> list C) (l : list A) :
  flat_map h (map g l) = flat_map (fun a => h (g a)) l.
Proof. induction l as [|a l IH]; simpl; [reflexivity | rewrite IH; reflexivity]. Qed.

Lemma flat_map_Forall {A B : Type} (g h : A -> list B) (l : list A) :
  Forall (fun a => g a = h a) l -> flat_map g l = flat_map h l.
Proof. induction 1 as [|a l E _ IH]; simpl; [reflexivity | rewrite E, IH; reflexivity]. Qed.

Lemma map_Forall {A B : Type} (g h : A -> B) (l : list A) :
  Forall (fun a => g a = h a) l -> map g l = map h l.
Proof. induction 1 as [|a l E _ IH]; simpl; [reflexivity | rewrite E, IH; reflexivity]. Qed.

Lemma outline_eq (n : TreeNode) :
  outline n = mkNode [] (name n) (type n) 0 None (Some (map outline (kids n))).
Proof. destruct n as [i nm t d e [cs|]]; reflexivity. Qed.

Lemma kids_outline (n : TreeNode) : kids (outline n) = map outline (kids n).
Proof. rewrite outline_eq. reflexivity. Qed.

Lemma name_outline (n : TreeNode) : name (outline n) = name n.
Proof. rewrite outline_eq. reflexivity. Qed.

Lemma type_outline (n : TreeNode) : type (outline n) = type n.
Proof. rewrite outline_eq. reflexivity. Qed.

Lemma markdownTraverse_eq (indent : str) (node : TreeNode) (cur : str) :
  markdownTraverse indent node cur
  = (cur ++ bullet node)
    :: flat_map (fun child => markdownTraverse indent child (cur ++ indent))
                (kids node).
Proof.
  unfold bullet. rewrite app_assoc.
  destruct node as [i nm t d e [[|c cs]|]]; cbn [markdownTraverse name type kids children];
    destruct cur; reflexivity.
Qed.

Lemma asciiTraverse_eq (node : TreeNode) (prefix : str) (isLast : bool) :
  asciiTraverse node prefix isLast
  = (prefix ++ (if isLast then lit "└── " else lit "├── ")
       ++ name node ++ suffixOf (type node))
    :: asciiTraverseAll (kids node)
         (prefix ++ (if isLast then lit "    " else lit "│   ")).
Proof.
  destruct node as [i nm t d e [[|c cs]|]];
    cbn [asciiTraverse name type kids children]; try reflexivity.
  f_equal.
  set (pfx := prefix ++ (if isLast then lit "    " else lit "│   ")).
  revert c. induction cs as [|c' cs IH]; intros c; [reflexivity|].
  cbn [asciiTraverseAll]. f_equal. apply IH.
Qed.

Lemma asciiTraverseAll_cons (c : TreeNode) (rest : list TreeNode) (prefix : str) :
  asciiTraverseAll (c :: rest) prefix
  = asciiTraverse c prefix (match rest with [] => true | _ => false end)
    ++ asciiTraverseAll rest prefix.
Proof.
  destruct rest as [|c' rest]; [|reflexivity].
  cbn [asciiTraverseAll]. rewrite app_nil_r. reflexivity.
Qed.

Lemma collectPaths_eq (node : TreeNode) (parentPath : str) :
  collectPaths node parentPath
  = let currentPath :=
      if isEmpty parentPath then name node else parentPath ++ SLASH :: name node in
    match type node with
    | folder =>
        appendPaths (mkPaths [currentPath] [])
          (fold_right (fun child acc =>
                         appendPaths (collectPaths child currentPath) acc)
                      (mkPaths [] []) (kids node))
    | file => mkPaths [] [currentPath]
    end.
Proof. destruct node as [i nm t d e [cs|]]; reflexivity. Qed.

Lemma markdown_outline (indent : str) (n : TreeNode) :
  forall cur, markdownTraverse indent (outline n) cur = markdownTraverse indent n cur.
Proof.
  induction n as [n IH] using node_kids_ind. intros cur.
  rewrite !markdownTraverse_eq. unfold bullet.
  rewrite name_outline, type_outline, kids_outline, flat_map_map. f_equal.
  apply flat_map_Forall. eapply Forall_impl; [|exact IH].
  intros c Hc. apply Hc.
Qed.

Lemma asciiAll_outline (l : list TreeNode) :
  Forall (fun n => forall prefix isLast,
            asciiTraverse (outline n) prefix isLast = asciiTraverse n prefix isLast) l ->
  forall prefix, asciiTraverseAll (map outline l) prefix = asciiTraverseAll l prefix.
Proof.
  induction 1 as [|c l E _ IH]; intros prefix; [reflexivity|].
  cbn [map]. rewrite !asciiTraverseAll_cons, E, IH.
  destruct l; reflexivity.
Qed.

Lemma ascii_outline (n : TreeNode) :
  forall prefix isLast,
    asciiTraverse (outline n) prefix isLast = asciiTraverse n prefix isLast.
Proof.
  induction n as [n IH] using node_kids_ind. intros prefix isLast.
  rewrite !asciiTraverse_eq.
  rewrite name_outline, type_outline, kids_outline, asciiAll_outline by exact IH.
  reflexivity.
Qed.

Lemma collect_outline (n : TreeNode) :
  forall parentPath, collectPaths (outline n) parentPath = collectPaths n parentPath.
Proof.
  induction n as [n IH] using node_kids_ind. intros parentPath.
  rewrite !collectPaths_eq. cbv zeta.
  rewrite name_outline, type_outline, kids_outline.
  destruct (type n); [reflexivity|]. f_equal.
  induction IH as [|c l E _ IHl]; [reflexivity|].
  cbn [map fold_right]. rewrite E, IHl. reflexivity.
Qed.

(** Two forests with the same outline give the same text and the same
    script. *)
Lemma same_outline_same_text (f g : list TreeNode) (options : FormatOptions) :
  map outline f = map outline g ->
  formatTreeToText f options = formatTreeToText g options.
Proof.
  assert (K : forall h, formatTreeToText h options
                        = formatTreeToText (map outline h) options).
  { intros h. destruct h as [|n rest]; [reflexivity|].
    cbn [map formatTreeToText].
    destruct (opt_style options) as [[|]|].
    - unfold formatAsMarkdown. f_equal.
      change (outline n :: map outline rest) with (map outline (n :: rest)).
      rewrite flat_map_map. apply flat_map_Forall.
      apply Forall_forall. intros x _. symmetry. apply markdown_outline.
    - unfold formatAsAscii. f_equal. destruct rest as [|m rest].
      + cbn [map]. rewrite name_outline, type_outline.
        assert (E : forall x, match children x with
                              | Some ((_ :: _) as cs) => asciiTraverseAll cs []
                              | _ => []
                              end = asciiTraverseAll (kids x) []).
        { intros [i nm t d e [[|c cs]|]]; reflexivity. }
        rewrite !E, kids_outline, asciiAll_outline; [reflexivity|].
        apply Forall_forall. intros x _. apply ascii_outline.
      + change (outline n :: map outline (m :: rest))
          with (map outline (n :: m :: rest)).
        cbn [map]. 
        change (outline n :: outline m :: map outline rest)
          with (map outline (n :: m :: rest)).
        rewrite asciiAll_outline; [reflexivity|].
        apply Forall_forall. intros x _. apply ascii_outline.
    - unfold formatAsMarkdown. f_equal.
      change (outline n :: map outline rest) with (map outline (n :: rest)).
      rewrite flat_map_map. apply flat_map_Forall.
      apply Forall_forall. intros x _. symmetry. apply markdown_outline. }
  intros E. rewrite (K f), (K g), E. reflexivity.
Qed.

Lemma same_outline_same_script (f g : list TreeNode) (scriptType : ScriptType) :
  map outline f = map outline g ->
  generateScript f scriptType = generateScript g scriptType.
Proof.
  assert (K : forall h, collectAll h = collectAll (map outline h)).
  { intros h. unfold collectAll.
    induction h as [|n rest IH]; [reflexivity|].
    cbn [map fold_right]. rewrite collect_outline, IH. reflexivity. }
  intros E. unfold generateScript. rewrite (K f), (K g), E. reflexivity.
Qed.

Lemma outline_toggle (targetId : str) (f : list TreeNode) :
  map outline (toggleNodeExpand f targetId) = map outline f.
Proof.
  unfold toggleNodeExpand. rewrite map_map. apply map_Forall.
  apply Forall_forall. intros n _.
  induction n as [n IH] using node_kids_ind.
  rewrite (outline_eq n), (outline_eq (toggleNode targetId n)).
  destruct n as [i nm t d e c]. cbn [toggleNode].
  destruct (str_eqb i targetId && NodeType_eqb t folder); [reflexivity|].
  destruct c as [cs|]; [|reflexivity].
  cbn [name type kids children] in *. rewrite map_map.
  do 2 f_equal. apply map_Forall. exact IH.
Qed.

(** X10.  The text and the scripts show the whole tree, whatever is
    collapsed on the screen: toggling a folder changes neither the formatted
    text (in either style) nor any of the four scripts. *)
Theorem export_ignores_collapsing (f : list TreeNode) (targetId : str)
  (options : FormatOptions) (scriptType : ScriptType) :
  formatTreeToText (toggleNodeExpand f targetId) options
  = formatTreeToText f options
  /\ generateScript (toggleNodeExpand f targetId) scriptType
     = generateScript f scriptType.
Proof.
  split.
  - apply same_outline_same_text, outline_toggle.
  - apply same_outline_same_script, outline_toggle.
Qed.

Lemma kids_filterVisible (n : TreeNode) :
  kids (filterVisible n)
  = if NodeType_eqb (type n) folder && truthy (isExpanded n)
    then map filterVisible (kids n) else [].
Proof.
  destruct n as [i nm t d e [cs|]]; cbn [filterVisible kids children type isExpanded].
  - destruct (NodeType_eqb t folder && truthy e); reflexivity.
  - destruct (NodeType_eqb t folder && truthy e); reflexivity.
Qed.

Lemma name_filterVisible (n : TreeNode) : name (filterVisible n) = name n.
Proof. destruct n; reflexivity. Qed.

Lemma type_filterVisible (n : TreeNode) : type (filterVisible n) = type n.
Proof. destruct n; reflexivity. Qed.

Lemma outline_filterVisible (f : list TreeNode) :
  (forall n, In n (forest_nodes f) -> kids n <> [] ->
             type n = folder /\ isExpanded n = Some true) ->
  map outline (map filterVisible f) = map outline f.
Proof.
  revert f. apply (forest_ind (fun f =>
    (forall n, In n (forest_nodes f) -> kids n <> [] ->
               type n = folder /\ isExpanded n = Some true) ->
    map outline (map filterVisible f) = map outline f)).
  - reflexivity.
  - intros x rest IHk IHr H. rewrite forest_nodes_cons in H.
    cbn [map]. rewrite IHr by (intros n Hn; apply H; right; apply in_or_app; auto).
    f_equal. rewrite (outline_eq x), (outline_eq (filterVisible x)).
    rewrite name_filterVisible, type_filterVisible, kids_filterVisible.
    do 2 f_equal.
    destruct (kids x) as [|c cs] eqn:K.
    + destruct (_ && _); reflexivity.
    + destruct (H x (or_introl eq_refl)) as [Ht He]; [rewrite K; discriminate|].
      rewrite Ht, He. cbn [NodeType_eqb truthy andb]. apply IHk.
      intros n Hn. apply H. right. apply in_or_app. left. exact Hn.
Qed.

(** X11.  When every node that has children is an expanded folder, the text
    of the visible tree is the text of the whole tree. *)
Theorem visible_text_of_expanded_tree (f : list TreeNode) (options : FormatOptions) :
  (forall n, In n (forest_nodes f) -> kids n <> [] ->
             type n = folder /\ isExpanded n = Some true) ->
  formatVisibleTree f options = formatTreeToText f options.
Proof.
  intros H. unfold formatVisibleTree.
  apply same_outline_same_text, outline_filterVisible, H.
Qed.

Lemma visible_text_of_expanded_tree_witness :
  formatVisibleTree
    [mkNode (lit "a") (lit "src") folder 0 (Some true)
            (Some [mkNode (lit "b") (lit "index.ts") file 1 None None])]
    defaultOptions
  = lit "- src/" ++ [LF] ++ lit "  - index.ts".
Proof.
  rewrite visible_text_of_expanded_tree.
  - vm_compute. reflexivity.
  - intros n [<- | [<- | []]] K.
    + split; reflexivity.
    + exfalso. apply K. reflexivity.
Defined.

Lemma flattenNode_eq (n : TreeNode) :
  flattenNode n
  = n :: if NodeType_eqb (type n) folder && truthy (isExpanded n)
         then flattenNodes (kids n) else [].
Proof.
  destruct n as [i nm t d e [cs|]]; cbn [flattenNode kids children type isExpanded].
  - reflexivity.
  - destruct (NodeType_eqb t folder && truthy e); reflexivity.
Qed.



(* ================================================================== *)
(** * The handlers of the tree view *)
(* ================================================================== *)

Lemma findIndexFrom_range (p : TreeNode -> bool) (l : list TreeNode) :
  forall i, findIndexFrom p l i = (-1)%Z
            \/ (i <= findIndexFrom p l i < i + Z.of_nat (length l))%Z.
Proof.
  induction l as [|x l IH]; intros i; cbn [findIndexFrom length]; [left; reflexivity|].
  destruct (p x); [right; lia|].
  destruct (IH (i + 1)%Z) as [E | E]; [left; exact E | right; lia].
Qed.

Lemma findIndexFrom_none (p : TreeNode -> bool) (l : list TreeNode) :
  (forall n, In n l -> p n = false) ->
  forall i, findIndexFrom p l i = (-1)%Z.
Proof.
  induction l as [|x l IH]; intros H i; cbn [findIndexFrom]; [reflexivity|].
  rewrite (H x (or_introl eq_refl)). apply IH. intros n Hn. apply H. right. exact Hn.
Qed.

Lemma selectAt_in_range (flatNodes : list TreeNode) (index : Z) :
  (0 <= index < Z.of_nat (length flatNodes))%Z ->
  exists n, In n flatNodes /\ selectAt flatNodes index = Selected (id n).
Proof.
  intros H. unfold selectAt.
  destruct (index <? 0)%Z eqn:E; [apply Z.ltb_lt in E; lia|].
  destruct (nth_error flatNodes (Z.to_nat index)) as [n|] eqn:N.
  - exists n. split; [eapply nth_error_In; eauto | reflexivity].
  - apply nth_error_None in N. lia.
Qed.

Lemma flattenNodes_cons (x : TreeNode) (rest : list TreeNode) :
  flattenNodes (x :: rest)
  = x :: (if NodeType_eqb (type x) folder && truthy (isExpanded x)
          then flattenNodes (kids x) else [])
      ++ flattenNodes rest.
Proof. unfold flattenNodes. cbn [flat_map]. rewrite flattenNode_eq. reflexivity. Qed.

Lemma flattenNodes_incl (f : list TreeNode) (n : TreeNode) :
  In n (flattenNodes f) -> In n (forest_nodes f).
Proof.
  revert f. apply (forest_ind (fun f =>
    In n (flattenNodes f) -> In n (forest_nodes f))).
  - intros [].
  - intros x rest IHk IHr. rewrite flattenNodes_cons, forest_nodes_cons.
    intros [H | H]; [left; exact H|]. right. apply in_or_app.
    apply in_app_or in H. destruct H as [H | H]; [left | right; auto].
    destruct (_ && _); [auto | destruct H].
Qed.

(** X13.  Keyboard navigation of the tree view never reads outside the list
    of reachable nodes: whatever the tree, the selection and the key, the
    handler either does nothing or selects a node of [flattenNodes]; and when
    the selected id is that of no reachable node (nothing selected, or a node
    inside a collapsed folder), ArrowDown and ArrowUp both go to the first
    root. *)
Theorem tree_navigation_stays_reachable (nodes : list TreeNode)
  (selectedNodeId : option str) (key : Key) :
  match treeViewKeyDown nodes selectedNodeId key with
  | TypeError => False
  | Selected i => In i (map id (flattenNodes nodes))
  | NotCalled => nodes = [] \/ (key <> KeyArrowDown /\ key <> KeyArrowUp
                                /\ key <> KeyHome /\ key <> KeyEnd)
  end
  /\ ((forall n, In n (flattenNodes nodes) -> selectedNodeId <> Some (id n)) ->
      forall first rest, nodes = first :: rest ->
        treeViewKeyDown nodes selectedNodeId KeyArrowDown = Selected (id first)
        /\ treeViewKeyDown nodes selectedNodeId KeyArrowUp = Selected (id first)).
Proof.
  split.
  - destruct nodes as [|x rest]; [left; reflexivity|].
    unfold treeViewKeyDown.
    set (flat := flattenNodes (x :: rest)).
    set (cur := findIndex _ flat).
    assert (L : (1 <= Z.of_nat (length flat))%Z).
    { unfold flat. rewrite flattenNodes_cons. cbn [length]. lia. }
    assert (R : (-1 <= cur < Z.of_nat (length flat))%Z).
    { unfold cur, findIndex.
      destruct (findIndexFrom_range
                  (fun n => option_str_eqb selectedNodeId (id n)) flat 0%Z); lia. }
    destruct key;
      try (right; repeat split; discriminate);
      match goal with
      | |- match selectAt flat ?k with _ => _ end =>
          assert (Hk : (0 <= k < Z.of_nat (length flat))%Z) by lia;
          destruct (selectAt_in_range flat k Hk) as (n & Hn & ->);
          apply in_map; exact Hn
      end.
  - intros Hnone first rest ->. unfold treeViewKeyDown.
    assert (C : findIndex (fun n => option_str_eqb selectedNodeId (id n))
                          (flattenNodes (first :: rest)) = (-1)%Z).
    { apply findIndexFrom_none. intros n Hn. specialize (Hnone n Hn).
      destruct selectedNodeId as [s|]; [|reflexivity]. cbn [option_str_eqb].
      apply str_eqb_neq. congruence. }
    rewrite C, flattenNodes_cons. cbn [length].
    rewrite Z.min_l by lia. rewrite Z.max_r by lia. split; reflexivity.
Qed.

Lemma tree_navigation_stays_reachable_witness :
  treeViewKeyDown
    [mkNode (lit "a") (lit "src") folder 0 (Some false)
            (Some [mkNode (lit "b") (lit "index.ts") file 1 None None]);
     mkNode (lit "c") (lit "README.md") file 0 None None]
    (Some (lit "b")) KeyArrowDown
  = Selected (lit "a").
Proof.
  refine (proj1 (proj2 (tree_navigation_stays_reachable _ _ KeyOther) _ _ _ eq_refl)).
  intros n [<- | [<- | []]]; discriminate.
Defined.

Lemma findNodeById_cons (x : TreeNode) (rest : list TreeNode) (targetId : str) :
  findNodeById (x :: rest) targetId
  = if str_eqb (id x) targetId then Some x
    else match findNodeById (kids x) targetId with
         | Some found => Some found
         | None => findNodeById rest targetId
         end.
Proof.
  cbn [findNodeById]. rewrite findIn_eq.
  destruct (str_eqb (id x) targetId); [reflexivity|].
  unfold kids. destruct (children x); reflexivity.
Qed.

Lemma id_toggleNode (targetId : str) (n : TreeNode) : id (toggleNode targetId n) = id n.
Proof.
  destruct n as [i nm t d e [cs|]]; cbn [toggleNode];
    destruct (str_eqb i targetId && NodeType_eqb t folder); reflexivity.
Qed.

(** The node found under the target id after a toggle is the image of the
    node found before. *)
Lemma find_after_toggle (f : list TreeNode) (targetId : str) :
  findNodeById (toggleNodeExpand f targetId) targetId
  = option_map (toggleNode targetId) (findNodeById f targetId).
Proof.
  revert f. apply (forest_ind (fun f =>
    findNodeById (toggleNodeExpand f targetId) targetId
    = option_map (toggleNode targetId) (findNodeById f targetId))).
  - reflexivity.
  - intros x rest IHk IHr.
    rewrite toggleNodeExpand_cons, !findNodeById_cons, id_toggleNode.
    destruct (str_eqb (id x) targetId) eqn:M; [reflexivity|].
    assert (K : kids (toggleNode targetId x) = toggleNodeExpand (kids x) targetId).
    { rewrite toggleNode_eq, M. cbn [andb].
      destruct x as [i nm t d e [cs|]]; reflexivity. }
    rewrite K, IHk.
    destruct (findNodeById (kids x) targetId); [reflexivity | exact IHr].
Qed.

(** X14.  ArrowRight on a folder leaves it expanded and ArrowLeft leaves it
    collapsed, whatever its flag was (true, false or absent); the other
    fields of the node, its children included, are as before.  Here [node]
    is the node that the tree shows under its id. *)
Theorem arrow_keys_set_the_flag (state : TreeState) (node : TreeNode) :
  findNodeById (nodes state) (id node) = Some node ->
  type node = folder ->
  findNodeById (nodes (afterNodeKey state node KeyArrowRight)) (id node)
  = Some (mkNode (id node) (name node) (type node) (depth node) (Some true)
                 (children node))
  /\ exists flag,
       findNodeById (nodes (afterNodeKey state node KeyArrowLeft)) (id node)
       = Some (mkNode (id node) (name node) (type node) (depth node) flag
                      (children node))
       /\ truthy flag = false.
Proof.
  intros Hfind Hty. unfold afterNodeKey, nodeKeyDown. rewrite Hty.
  cbn [NodeType_eqb andb].
  assert (T : findNodeById (toggleNodeExpand (nodes state) (id node)) (id node)
              = Some (flipExpanded node)).
  { rewrite find_after_toggle, Hfind. cbn [option_map].
    rewrite toggleNode_eq, str_eqb_refl, Hty. reflexivity. }
  destruct node as [i nm t d e c]. cbn [id name type depth isExpanded children] in *.
  subst t. split.
  - destruct (truthy e) eqn:E; cbn [negb treeReducer nodes].
    + rewrite Hfind. destruct e as [[|]|]; try discriminate. reflexivity.
    + rewrite T. unfold flipExpanded. cbn. rewrite E. reflexivity.
  - destruct (truthy e) eqn:E; cbn [negb treeReducer nodes].
    + exists (Some false). rewrite T. unfold flipExpanded. cbn. rewrite E.
      split; reflexivity.
    + exists e. rewrite Hfind. split; [reflexivity | exact E].
Qed.

Lemma arrow_keys_set_the_flag_witness :
  findNodeById
    (nodes (afterNodeKey sample_state sample_src KeyArrowRight)) (id sample_src)
  = Some (mkNode (id sample_src) (name sample_src) (type sample_src)
                 (depth sample_src) (Some true) (children sample_src)).
Proof.
  apply (arrow_keys_set_the_flag sample_state sample_src); reflexivity.
Defined.

(** X15.  Deleting a node clears the selection only when the deleted node
    itself is selected.  With pairwise distinct ids, when a node further down
    in the deleted subtree is selected, the selection keeps its id although
    no node carries it any more, and the next ArrowDown of the tree view goes
    to the first root. *)
Theorem selection_outlives_deleted_ancestor (state : TreeState) (n d : TreeNode) :
  NoDup (ids (nodes state)) ->
  In n (forest_nodes (nodes state)) ->
  In d (subtree n) ->
  id d <> id n ->
  selectedNodeId state = Some (id d) ->
  let state' := treeReducer state (DELETE_NODE (id n)) in
  selectedNodeId state' = Some (id d)
  /\ findNodeById (nodes state') (id d) = None
  /\ forall first rest, nodes state' = first :: rest ->
       treeViewKeyDown (nodes state') (selectedNodeId state') KeyArrowDown
       = Selected (id first).
Proof.
  intros ND Hn Hd Hneq Hsel. cbn zeta. cbn [treeReducer nodes selectedNodeId].
  assert (Gone : ~ In (id d) (ids (deleteNode (nodes state) (id n)))).
  { eapply deleteNode_subtree_gone; eauto. }
  assert (S : (if option_str_eqb (selectedNodeId state) (id n)
               then None else selectedNodeId state) = Some (id d)).
  { rewrite Hsel. cbn [option_str_eqb].
    destruct (str_eqb (id d) (id n)) eqn:E; [|reflexivity].
    apply str_eqb_eq in E. congruence. }
  rewrite S. split; [reflexivity|]. split.
  - apply findNodeById_None. exact Gone.
  - intros first rest E. rewrite E. unfold treeViewKeyDown.
    assert (C : findIndex (fun x => option_str_eqb (Some (id d)) (id x))
                          (flattenNodes (first :: rest)) = (-1)%Z).
    { apply findIndexFrom_none. intros x Hx. cbn [option_str_eqb].
      apply str_eqb_neq. intros Eq. apply Gone. rewrite Eq, E.
      apply in_ids, flattenNodes_incl. exact Hx. }
    rewrite C, flattenNodes_cons. cbn [length].
    rewrite Z.min_l by lia. reflexivity.
Qed.

Lemma selection_outlives_deleted_ancestor_witness :
  selectedNodeId
    (treeReducer (mkState (nodes sample_state) (Some (id sample_index)))
                 (DELETE_NODE (id sample_src)))
  = Some (id sample_index).
Proof.
  refine (proj1 (selection_outlives_deleted_ancestor
                   (mkState (nodes sample_state) (Some (id sample_index)))
                   sample_src sample_index _ _ _ _ eq_refl)).
  - exact sample_state_distinct.
  - vm_compute. left. reflexivity.
  - vm_compute. right. left. reflexivity.
  - vm_compute. discriminate.
Defined.

(** X16.  The end of an edit never stores a blank name: an edit whose text is
    blank leaves the state as it is; any other edit leaves the node with the
    trimmed text as its name, and with its other fields as before. *)
Theorem edit_stores_trimmed_name (state : TreeState) (node : TreeNode)
  (editValue : str) :
  findNodeById (nodes state) (id node) = Some node ->
  (trim editValue = [] -> afterEdit state node editValue = state)
  /\ (trim editValue <> [] ->
      findNodeById (nodes (afterEdit state node editValue)) (id node)
      = Some (mkNode (id node) (trim editValue) (type node) (depth node)
                     (isExpanded node) (children node))).
Proof.
  intros Hfind. unfold afterEdit, handleEditComplete. split.
  - intros ->. reflexivity.
  - intros Hne. apply isEmpty_false in Hne. rewrite Hne.
    destruct (str_eqb (trim editValue) (name node)) eqn:E; cbn [negb].
    + apply str_eqb_eq in E. rewrite Hfind, E. destruct node; reflexivity.
    + cbn [treeReducer nodes]. rewrite find_after_rename, Hfind. reflexivity.
Qed.

Lemma edit_stores_trimmed_name_witness :
  findNodeById (nodes (afterEdit sample_state sample_src (lit "  lib ")))
               (id sample_src)
  = Some (mkNode (id sample_src) (lit "lib") (type sample_src) (depth sample_src)
                 (isExpanded sample_src) (children sample_src)).
Proof.
  refine (proj2 (edit_stores_trimmed_name sample_state sample_src (lit "  lib ")
                   eq_refl) _).
  vm_compute. discriminate.
Defined.

(* ================================================================== *)
(** * Script generation *)
(* ================================================================== *)



Lemma created_in_order_mono (tops seen seen' l : list str) :
  incl seen seen' ->
  created_in_order tops seen l -> created_in_order tops seen' l.
Proof.
  revert seen seen'; induction l as [|p l IH]; intros seen seen' I; simpl; [auto|].
  intros [[H | (d & nm & Hd & E)] H']; split.
  - left. exact H.
  - eapply IH; [|exact H']. intros x [<- | Hx]; [left; reflexivity | right; auto].
  - right. exists d, nm. split; [apply I; exact Hd | exact E].
  - eapply IH; [|exact H']. intros x [<- | Hx]; [left; reflexivity | right; auto].
Qed.








Lemma not_in_by_test (x : char) (l : str) :
  existsb (fun c => (c =? x)%N) l = false -> ~ In x l.
Proof.
  intros E H. assert (T : existsb (fun c => (c =? x)%N) l = true).
  { apply existsb_exists. exists x. split; [exact H | apply N.eqb_refl]. }
  congruence.
Qed.

Lemma toBackslashes_no_slash (path : str) : ~ In SLASH (toBackslashes path).
Proof.
  unfold toBackslashes. intros H. apply in_map_iff in H.
  destruct H as (c & E & _). destruct (c =? SLASH)%N eqn:C.
  - discriminate.
  - apply N.eqb_neq in C. congruence.
Qed.

Lemma scriptSection_free (x : char) (heading : str) (command : str -> str)
  (paths : list str) :
  ~ In x heading -> (forall p, ~ In x (command p)) ->
  Forall (fun l => ~ In x l) (scriptSection heading command paths).
Proof.
  intros Hh Hc. unfold scriptSection. destruct paths as [|p ps]; [constructor|].
  constructor; [exact Hh|]. apply Forall_app. split.
  - apply Forall_forall. intros l Hl. apply in_map_iff in Hl.
    destruct Hl as (q & <- & _). apply Hc.
  - constructor; [intros [] | constructor].
Qed.

Lemma join_free (x sep : char) (ls : list str) :
  x <> sep -> Forall (fun l => ~ In x l) ls -> ~ In x (join sep ls).
Proof.
  intros Hsep Hall H. apply in_join in H. destruct H as [H | (l & Hl & Hc)]; [auto|].
  rewrite Forall_forall in Hall. exact (Hall l Hl Hc).
Qed.

Lemma quoted_free (x : char) (a b c : str) :
  ~ In x a -> ~ In x b -> ~ In x c -> ~ In x (a ++ b ++ c).
Proof.
  intros Ha Hb Hc H. apply in_app_or in H. destruct H as [H | H]; [auto|].
  apply in_app_or in H. destruct H; auto.
Qed.

(** X18.  The two Windows scripts contain no forward slash at all: every
    path is written with backslashes, whatever the names in the tree. *)
Theorem windows_scripts_have_no_slash (f : list TreeNode) :
  ~ In SLASH (generateScript f powershell)
  /\ ~ In SLASH (generateScript f cmd).
Proof.
  assert (T : forall l, existsb (fun c => (c =? SLASH)%N) l = false -> ~ In SLASH l)
    by (intros l; apply not_in_by_test).
  split; unfold generateScript, generatePowerShellScript, generateCmdScript;
    (apply join_free; [discriminate|]);
    repeat (apply Forall_app; split);
    repeat first
      [ apply Forall_nil
      | apply Forall_cons; [apply T; vm_compute; reflexivity|]
      | apply scriptSection_free; [apply T; vm_compute; reflexivity|]; intros p ].
  - rewrite app_assoc. apply quoted_free;
      [apply T; vm_compute; reflexivity | apply toBackslashes_no_slash
       | apply T; vm_compute; reflexivity].
  - rewrite app_assoc. apply quoted_free;
      [apply T; vm_compute; reflexivity | apply toBackslashes_no_slash
       | apply T; vm_compute; reflexivity].
  - rewrite app_assoc. apply quoted_free;
      [apply T; vm_compute; reflexivity | apply toBackslashes_no_slash
       | apply T; vm_compute; reflexivity].
  - rewrite app_assoc. apply quoted_free;
      [apply T; vm_compute; reflexivity | apply toBackslashes_no_slash
       | apply T; vm_compute; reflexivity].
Qed.

(* ================================================================== *)
(** * From the Markdown text back to the tree *)
(* ================================================================== *)

(** ** One line of the text *)

Lemma dropWhile_spaces_app (cur rest : str) :
  forallb isSpace cur = true -> dropWhile isSpace (cur ++ rest) = dropWhile isSpace rest.
Proof.
  induction cur as [|c cur IH]; simpl; [reflexivity|].
  destruct (isSpace c); [exact IH | discriminate].
Qed.

Lemma takeWhile_spaces_app (cur rest : str) (c : char) :
  forallb isSpace cur = true -> isSpace c = false ->
  takeWhile isSpace (cur ++ c :: rest) = cur.
Proof.
  intros H Hc. induction cur as [|x cur IH]; simpl in *.
  - rewrite Hc. reflexivity.
  - destruct (isSpace x); [|discriminate]. rewrite IH by exact H. reflexivity.
Qed.

Lemma trim_not_nil (s : str) (c : char) :
  In c s -> isSpace c = false -> trim s <> [].
Proof.
  intros Hin Hc E. apply trim_nil in E. rewrite forallb_forall in E.
  rewrite (E c Hin) in Hc. discriminate.
Qed.

Lemma in_trimEnd_keep (s : str) (c : char) :
  In c s -> isSpace c = false -> In c (trimEnd s).
Proof.
  induction s as [|x s IH]; [intros []|]. intros Hin Hc. rewrite trimEnd_cons.
  destruct Hin as [-> | Hin].
  - destruct (trimEnd s); [rewrite Hc|]; left; reflexivity.
  - specialize (IH Hin Hc). destruct (trimEnd s); [destruct IH | right; exact IH].
Qed.

Lemma in_trim_keep (s : str) (c : char) :
  In c s -> isSpace c = false -> In c (trim s).
Proof.
  intros Hin Hc. unfold trim. apply in_trimEnd_keep; [|exact Hc].
  unfold trimStart. induction s as [|x s IH]; [destruct Hin|]. simpl.
  destruct Hin as [-> | Hin]; [rewrite Hc; left; reflexivity|].
  destruct (isSpace x); [apply IH; exact Hin | right; exact Hin].
Qed.

Lemma trimEnd_fixed_snoc (s : str) (c : char) :
  isSpace c = false -> trimEnd (s ++ [c]) = s ++ [c].
Proof.
  intros Hc. unfold trimEnd. rewrite rev_app_distr. simpl. rewrite Hc.
  change (c :: rev s) with (rev [c] ++ rev s). rewrite <- rev_app_distr.
  apply rev_involutive.
Qed.

Lemma trim_fixed_head (s : str) : trim s = s -> trimStart s = s.
Proof.
  destruct s as [|c t]; [reflexivity|]. intros E.
  assert (Hc : isSpace c = false) by (eapply trim_starts_not_space; eauto).
  unfold trimStart. simpl. rewrite Hc. reflexivity.
Qed.

Lemma trim_snoc (s : str) (c : char) :
  trim s = s -> isSpace c = false -> trim (s ++ [c]) = s ++ [c].
Proof.
  intros E Hc. unfold trim.
  assert (S : trimStart (s ++ [c]) = s ++ [c]).
  { destruct s as [|x t]; [unfold trimStart; simpl; rewrite Hc; reflexivity|].
    assert (Hx : isSpace x = false) by (eapply trim_starts_not_space; eauto).
    unfold trimStart. simpl. rewrite Hx. reflexivity. }
  rewrite S. apply trimEnd_fixed_snoc. exact Hc.
Qed.

Lemma endsWith_snoc (s : str) (c : char) : endsWith (s ++ [c]) [c] = true.
Proof.
  unfold endsWith. rewrite rev_app_distr. simpl. rewrite N.eqb_refl. reflexivity.
Qed.

Lemma dropLast_snoc (s : str) (c : char) : dropLast (s ++ [c]) = s.
Proof. unfold dropLast. apply removelast_last. Qed.

(** The text after the bullet of a node: trimmed and on one line. *)
Lemma label_plain (n : TreeNode) :
  plain_name (name n) ->
  trim (name n ++ suffixOf (type n)) = name n ++ suffixOf (type n)
  /\ forallb (fun c => negb (isLineTerminator c)) (name n ++ suffixOf (type n))
     = true.
Proof.
  intros (Ht & Hl & _). destruct (type n); cbn [suffixOf].
  - rewrite app_nil_r. split; assumption.
  - split; [apply trim_snoc; [exact Ht | reflexivity]|].
    rewrite forallb_app, Hl. reflexivity.
Qed.

(** A bullet line is read by the bullet pattern: the indentation is the
    white space in front, the name is the text after the dash. *)
Lemma matchBullet_line (cur body : str) :
  forallb isSpace cur = true ->
  trim body = body ->
  forallb (fun c => negb (isLineTerminator c)) body = true ->
  exists g2, matchBullet (cur ++ lit "- " ++ body) = Some (cur, g2)
             /\ trim g2 = body.
Proof.
  intros Hcur Ht Hl. unfold matchBullet.
  change (lit "- " ++ body) with (DASH :: 32%N :: body).
  rewrite dropWhile_spaces_app by exact Hcur. cbn [dropWhile].
  change (isSpace DASH) with false. cbv iota. rewrite N.eqb_refl.
  rewrite takeWhile_spaces_app by (exact Hcur || reflexivity).
  destruct body as [|c t].
  - exists [32%N]. split; reflexivity.
  - assert (Hc : isSpace c = false) by (eapply trim_starts_not_space; eauto).
    exists (c :: t). split; [|exact Ht].
    cbn [takeWhile]. change (isSpace 32%N) with true. cbv iota. rewrite Hc.
    cbn [length spacesThenDotPlus skipn]. unfold dotPlusToEnd. cbn [isEmpty negb andb].
    rewrite Hl. reflexivity.
Qed.

Lemma markdownLine_bullet (generateId : nat -> str) (st : Builder) (cur body : str) :
  forallb isSpace cur = true ->
  trim body = body ->
  forallb (fun c => negb (isLineTerminator c)) body = true ->
  markdownLine generateId st (cur ++ lit "- " ++ body)
  = addMarkdownNode generateId st (length cur) body.
Proof.
  intros Hcur Ht Hl. unfold markdownLine.
  assert (E : isEmpty (trim (cur ++ lit "- " ++ body)) = false).
  { apply isEmpty_false. apply (trim_not_nil _ DASH); [|reflexivity].
    apply in_or_app. right. left. reflexivity. }
  rewrite E. destruct (matchBullet_line cur body Hcur Ht Hl) as (g2 & -> & ->).
  reflexivity.
Qed.

(** ** Pushing into a node that was just pushed *)

Lemma list_alter_compose {A : Type} (g h : A -> A) (i : nat) (l : list A) :
  list_alter h i (list_alter g i l) = list_alter (fun x => h (g x)) i l.
Proof.
  revert i; induction l as [|x l IH]; intros [|i]; simpl; try reflexivity.
  rewrite IH. reflexivity.
Qed.

Lemma list_alter_ext_at {A : Type} (g h : A -> A) (i : nat) (l : list A) (x : A) :
  nth_error l i = Some x -> g x = h x -> list_alter g i l = list_alter h i l.
Proof.
  revert i; induction l as [|y l IH]; intros [|i]; simpl; try discriminate.
  - intros E; injection E as ->. intros ->. reflexivity.
  - intros E H. rewrite (IH _ E H). reflexivity.
Qed.

Lemma list_alter_last {A : Type} (g : A -> A) (l : list A) (x : A) :
  list_alter g (length l) (l ++ [x]) = l ++ [g x].
Proof. induction l as [|y l IH]; simpl; [reflexivity | rewrite IH; reflexivity]. Qed.

Lemma child_ref_cons (i j : nat) (p : list nat) (f : list TreeNode) (x : TreeNode) :
  nth_error f i = Some x ->
  child_ref (i :: j :: p) f = i :: child_ref (j :: p) (kids x).
Proof.
  intros E. unfold child_ref. rewrite node_at_cons, E.
  destruct (node_at (j :: p) (kids x)); reflexivity.
Qed.

Lemma pushChild_some (c parent : TreeNode) (cs : list TreeNode) :
  children parent = Some cs ->
  pushChild c parent = with_children parent (Some (cs ++ [c])).
Proof. intros H. unfold pushChild. rewrite H. reflexivity. Qed.

Lemma push_into_pushed (b m : TreeNode) (p : list nat) :
  forall (f : list TreeNode) (parent : TreeNode) (cs : list TreeNode),
  node_at p f = Some parent -> children parent = Some cs ->
  alter_at (pushChild b) (child_ref p f) (alter_at (pushChild m) p f)
  = alter_at (pushChild (pushChild b m)) p f.
Proof.
  induction p as [|i p IH]; intros f parent cs Hp Hc; [discriminate|].
  rewrite node_at_cons in Hp.
  destruct (nth_error f i) as [x|] eqn:Ei; [|discriminate].
  destruct p as [|j p].
  - injection Hp as ->. unfold child_ref. rewrite node_at_cons, Ei.
    change ([i] ++ [length (kids parent)]) with [i; length (kids parent)].
    rewrite !alter_at_push, list_alter_compose.
    apply (list_alter_ext_at _ _ i f parent Ei).
    unfold push_step.
    rewrite (pushChild_some m parent cs Hc),
            (pushChild_some (pushChild b m) parent cs Hc).
    cbn [children with_children]. unfold kids. rewrite Hc.
    cbn [alter_at]. rewrite list_alter_last. reflexivity.
  - rewrite (child_ref_cons i j p f x Ei).
    rewrite !alter_at_push, list_alter_compose.
    apply (list_alter_ext_at _ _ i f x Ei).
    destruct (child_ref (j :: p) (kids x)) as [|k q] eqn:Q.
    { unfold child_ref in Q. destruct (node_at (j :: p) (kids x)); discriminate. }
    unfold push_step.
    destruct (children x) as [cx|] eqn:Cx.
    + unfold with_children. cbn [children id name type depth isExpanded].
      do 2 f_equal.
      assert (Kx : kids x = cx) by (unfold kids; rewrite Cx; reflexivity).
      rewrite <- Q, Kx. rewrite Kx in Hp. eapply IH; eauto.
    + rewrite Cx. reflexivity.
Qed.

Lemma place_push (key : Z) (base : list Frame) (root : list TreeNode) (b m : TreeNode) :
  base_ok key root base ->
  alter_at (pushChild b) (ref_in base root) (place base root m)
  = place base root (pushChild b m).
Proof.
  unfold base_ok, ref_in, place. destruct base as [|fr base].
  - intros _. cbn [alter_at]. apply list_alter_last.
  - intros (_ & parent & cs & Hp & Hc). eapply push_into_pushed; eauto.
Qed.

Lemma node_at_place (key : Z) (base : list Frame) (root : list TreeNode) (m : TreeNode) :
  base_ok key root base ->
  node_at (ref_in base root) (place base root m) = Some m.
Proof.
  unfold base_ok, ref_in, place. destruct base as [|fr base].
  - intros _. apply node_at_last.
  - intros (_ & parent & cs & Hp & Hc). eapply node_at_child_ref; eauto. congruence.
Qed.

Lemma popWhile_base (key : Z) (popped base : list Frame) (root : list TreeNode) :
  Forall (fun fr => (key <= indent fr)%Z) popped ->
  base_ok key root base ->
  popWhile key (popped ++ base) = base.
Proof.
  intros Hp Hb. induction Hp as [|fr popped Hfr _ IH]; cbn [app popWhile].
  - destruct base as [|fr base]; [reflexivity|]. cbn [popWhile].
    destruct Hb as [Hlt _].
    destruct (Z.geb_spec (indent fr) key); [lia | reflexivity].
  - destruct (Z.geb_spec (indent fr) key); [exact IH | lia].
Qed.

(** The state after the line of a node. *)
Lemma attach_place (st : Builder) (node : TreeNode) (key : Z) (isFolder : bool)
  (popped base : list Frame) :
  stack st = popped ++ base ->
  Forall (fun fr => (key <= indent fr)%Z) popped ->
  base_ok key (root st) base ->
  root (attach st node key isFolder) = place base (root st) node
  /\ stack (attach st node key isFolder)
     = if isFolder then mkFrame (ref_in base (root st)) key :: base else base.
Proof.
  intros Hs Hp Hb. unfold attach.
  rewrite Hs, (popWhile_base key popped base (root st) Hp Hb).
  unfold place, ref_in. destruct base as [|fr base]; cbn [root stack]; split; reflexivity.
Qed.

(** ** The lines of a subtree *)

Lemma outline_children (m : TreeNode) (n : TreeNode) :
  name m = name n -> type m = type n ->
  map outline (kids m) = map outline (kids n) ->
  outline m = outline n.
Proof. intros Hn Ht Hk. rewrite !outline_eq, Hn, Ht, Hk. reflexivity. Qed.

Lemma newNode_label (generateId : nat -> str) (k : nat) (n : TreeNode) (d : Z) :
  (type n = file -> endsWith (name n) [SLASH] = false) ->
  endsWith (name n ++ suffixOf (type n)) [SLASH]
  = NodeType_eqb (type n) folder
  /\ newNode generateId k (name n ++ suffixOf (type n)) d
     = mkNode (generateId k) (name n) (type n) d (Some true)
              (if NodeType_eqb (type n) folder then Some [] else None).
Proof.
  intros Hf. unfold newNode. destruct (type n); cbn [suffixOf NodeType_eqb].
  - rewrite app_nil_r, (Hf eq_refl). split; reflexivity.
  - rewrite endsWith_snoc, dropLast_snoc. split; reflexivity.
Qed.

Section MarkdownLines.

Variable generateId : nat -> str.

(** The children of a folder in progress: each child is pushed into the
    node [m] that was placed when the line of the folder was read. *)
Lemma markdown_children (cur : str) (root0 : list TreeNode) (base : list Frame)
  (cs : list TreeNode) :
  let key := Z.of_nat (length cur) in
  let fr0 := mkFrame (ref_in base root0) key in
  let cur' := cur ++ lit "  " in
  base_ok key root0 base ->
  Forall (fun c =>
            forall st popped base',
              stack st = popped ++ base' ->
              Forall (fun fr => (Z.of_nat (length cur') <= indent fr)%Z) popped ->
              base_ok (Z.of_nat (length cur')) (root st) base' ->
              exists b popped',
                outline b = outline c
                /\ root (fold_left (markdownLine generateId)
                                   (markdownTraverse (lit "  ") c cur') st)
                   = place base' (root st) b
                /\ stack (fold_left (markdownLine generateId)
                                    (markdownTraverse (lit "  ") c cur') st)
                   = popped' ++ base'
                /\ Forall (fun fr => (Z.of_nat (length cur') <= indent fr)%Z) popped')
         cs ->
  forall st m popped,
    root st = place base root0 m ->
    children m <> None ->
    stack st = popped ++ fr0 :: base ->
    Forall (fun fr => (Z.of_nat (length cur') <= indent fr)%Z) popped ->
    exists m' popped',
      name m' = name m /\ type m' = type m
      /\ map outline (kids m') = map outline (kids m) ++ map outline cs
      /\ root (fold_left (markdownLine generateId)
                 (flat_map (fun c => markdownTraverse (lit "  ") c cur') cs) st)
         = place base root0 m'
      /\ stack (fold_left (markdownLine generateId)
                  (flat_map (fun c => markdownTraverse (lit "  ") c cur') cs) st)
         = popped' ++ fr0 :: base
      /\ Forall (fun fr => (Z.of_nat (length cur') <= indent fr)%Z) popped'.
Proof.
  intros key fr0 cur' Hbase Hcs.
  induction Hcs as [|c cs Hc _ IH]; intros st m popped Hroot Hm Hstack Hpop.
  - exists m, popped. cbn [flat_map fold_left map]. rewrite app_nil_r.
    repeat split; assumption.
  - cbn [flat_map]. rewrite fold_left_app.
    assert (Hb' : base_ok (Z.of_nat (length cur')) (root st) (fr0 :: base)).
    { split.
      - unfold fr0, cur', key. cbn [indent]. rewrite length_app.
        change (length (lit "  ")) with 2%nat. lia.
      - destruct (children m) as [ms|] eqn:Cm; [|congruence].
        exists m, ms. split; [|exact Cm]. unfold fr0. cbn [node_ref].
        rewrite Hroot. eapply node_at_place; eauto. }
    destruct (Hc st popped (fr0 :: base) Hstack Hpop Hb')
      as (b & popped1 & Ob & Rb & Sb & Pb).
    assert (Hroot1 : root (fold_left (markdownLine generateId)
                                     (markdownTraverse (lit "  ") c cur') st)
                     = place base root0 (pushChild b m)).
    { rewrite Rb, Hroot. unfold place at 1. unfold fr0. cbn [node_ref].
      eapply place_push; eauto. }
    destruct (IH _ (pushChild b m) popped1 Hroot1 (children_pushChild b m Hm) Sb Pb)
      as (m' & popped' & Hn & Ht & Hk & Hr & Hs & Hp).
    exists m', popped'. split; [|split; [|split; [|split; [|split]]]]; try assumption.
    + rewrite Hn. unfold pushChild. destruct (children m); reflexivity.
    + rewrite Ht. unfold pushChild. destruct (children m); reflexivity.
    + rewrite Hk, kids_pushChild.
      destruct (children m); [|congruence].
      rewrite map_app, <- app_assoc. cbn [map app]. rewrite Ob. reflexivity.
Qed.

(** The lines of a subtree place one node, with the outline of the subtree,
    where the indentation of the first line says. *)
Lemma markdown_subtree (n : TreeNode) :
  (forall m, In m (subtree n) -> text_safe m) ->
  forall cur st popped base,
    forallb isSpace cur = true ->
    stack st = popped ++ base ->
    Forall (fun fr => (Z.of_nat (length cur) <= indent fr)%Z) popped ->
    base_ok (Z.of_nat (length cur)) (root st) base ->
    exists b popped',
      outline b = outline n
      /\ root (fold_left (markdownLine generateId)
                         (markdownTraverse (lit "  ") n cur) st)
         = place base (root st) b
      /\ stack (fold_left (markdownLine generateId)
                          (markdownTraverse (lit "  ") n cur) st)
         = popped' ++ base
      /\ Forall (fun fr => (Z.of_nat (length cur) <= indent fr)%Z) popped'.
Proof.
  induction n as [n IH] using node_kids_ind.
  intros Hsafe cur st popped base Hcur Hstack Hpop Hbase.
  destruct (Hsafe n) as [Hname Hfile].
  { rewrite subtree_eq. left. reflexivity. }
  destruct (label_plain n Hname) as [Ht Hl].
  rewrite markdownTraverse_eq. cbn [fold_left]. unfold bullet.
  rewrite markdownLine_bullet by assumption.
  unfold addMarkdownNode.
  destruct (newNode_label generateId (created st) n (Z.of_nat (length cur) / 2))
    as [-> ->].
  { intros T. apply (Hfile T). }
  set (node0 := mkNode _ (name n) (type n) _ _ _).
  destruct (attach_place st node0 (Z.of_nat (length cur))
                         (NodeType_eqb (type n) folder) popped base
                         Hstack Hpop Hbase) as [Rst Sst].
  set (st1 := attach st node0 _ _) in *.
  destruct (type n) eqn:T.
  - destruct (Hfile eq_refl) as [_ Hk]. rewrite Hk. cbn [flat_map fold_left].
    exists node0, []. split; [|split; [|split]].
    + apply outline_children; [reflexivity | unfold node0; rewrite T; reflexivity|].
      rewrite Hk. reflexivity.
    + exact Rst.
    + exact Sst.
    + constructor.
  - cbn [NodeType_eqb] in *.
    assert (Hkids : Forall (fun c =>
              forall st popped base',
                stack st = popped ++ base' ->
                Forall (fun fr => (Z.of_nat (length (cur ++ lit "  ")) <= indent fr)%Z)
                       popped ->
                base_ok (Z.of_nat (length (cur ++ lit "  "))) (root st) base' ->
                exists b popped',
                  outline b = outline c
                  /\ root (fold_left (markdownLine generateId)
                             (markdownTraverse (lit "  ") c (cur ++ lit "  ")) st)
                     = place base' (root st) b
                  /\ stack (fold_left (markdownLine generateId)
                              (markdownTraverse (lit "  ") c (cur ++ lit "  ")) st)
                     = popped' ++ base'
                  /\ Forall (fun fr =>
                               (Z.of_nat (length (cur ++ lit "  ")) <= indent fr)%Z)
                            popped')
              (kids n)).
    { rewrite Forall_forall in IH. apply Forall_forall. intros c Hc st' popped' base' S P B.
      eapply (IH c Hc); [| |exact S|exact P|exact B].
      - intros m Hm. apply Hsafe. rewrite subtree_eq. right.
        unfold forest_nodes. apply in_flat_map. exists c. split; assumption.
      - rewrite forallb_app, Hcur. reflexivity. }
    destruct (markdown_children cur (root st) base (kids n) Hbase Hkids
                                st1 node0 [] Rst ltac:(discriminate) Sst
                                ltac:(constructor))
      as (m' & popped' & Hn & Hty & Hk & Hr & Hs & Hp).
    exists m', (popped' ++ [mkFrame (ref_in base (root st)) (Z.of_nat (length cur))]).
    split; [|split; [|split]].
    + apply outline_children; [exact Hn | rewrite Hty; unfold node0; rewrite T; reflexivity|].
      rewrite Hk. reflexivity.
    + exact Hr.
    + rewrite Hs, <- app_assoc. reflexivity.
    + apply Forall_app. split.
      * eapply Forall_impl; [|exact Hp]. intros fr Hfr.
        rewrite length_app in Hfr. change (length (lit "  ")) with 2%nat in Hfr. lia.
      * constructor; [cbn [indent]; lia | constructor].
Qed.

(** The lines of a forest, read with no folder open. *)
Lemma markdown_forest (f : list TreeNode) :
  (forall m, In m (forest_nodes f) -> text_safe m) ->
  forall st,
    Forall (fun fr => (0 <= indent fr)%Z) (stack st) ->
    exists bs,
      map outline bs = map outline f
      /\ root (fold_left (markdownLine generateId)
                 (flat_map (fun n => markdownTraverse (lit "  ") n []) f) st)
         = root st ++ bs.
Proof.
  induction f as [|n rest IH]; intros Hsafe st Hst.
  - exists []. split; [reflexivity|]. cbn. rewrite app_nil_r. reflexivity.
  - cbn [flat_map]. rewrite fold_left_app.
    destruct (markdown_subtree n) with (cur := @nil char) (st := st)
                                       (popped := stack st) (base := @nil Frame)
      as (b & popped' & Ob & Rb & Sb & Pb).
    + intros m Hm. apply Hsafe. rewrite forest_nodes_cons.
      rewrite subtree_eq in Hm. destruct Hm as [Hm | Hm]; [left; exact Hm|].
      right. apply in_or_app. left. exact Hm.
    + reflexivity.
    + rewrite app_nil_r. reflexivity.
    + exact Hst.
    + exact I.
    + destruct (IH) with (st := fold_left (markdownLine generateId)
                                   (markdownTraverse (lit "  ") n []) st)
        as (bs & Obs & Rbs).
      * intros m Hm. apply Hsafe. rewrite forest_nodes_cons.
        right. apply in_or_app. right. exact Hm.
      * rewrite Sb, app_nil_r. exact Pb.
      * exists (b :: bs). split; [cbn [map]; rewrite Ob, Obs; reflexivity|].
        rewrite Rbs, Rb. unfold place. rewrite <- app_assoc. reflexivity.
Qed.

End MarkdownLines.

(** ** The text as a whole *)

Lemma outline_adjustNode (increment : Z) (n : TreeNode) :
  outline (adjustNode increment n) = outline n.
Proof.
  induction n as [n IH] using node_kids_ind.
  apply outline_children; try (destruct n as [i nm t d e [cs|]]; reflexivity).
  rewrite kids_adjustNode. unfold adjustDepth. rewrite map_map.
  apply map_Forall. exact IH.
Qed.

Lemma finish_outline (root : list TreeNode) :
  root <> [] ->
  exists g, finish root = Success g /\ map outline g = map outline root.
Proof.
  intros Hne. destruct (finish root) as [g|e] eqn:E.
  - exists g. split; [reflexivity|]. apply finish_success in E.
    destruct E as [[_ ->] | (r & c & cs & -> & _ & C & ->)]; [reflexivity|].
    cbn [map]. f_equal. apply outline_children; try reflexivity.
    change (kids (with_children r (Some (adjustDepth (c :: cs) 1))))
      with (adjustDepth (c :: cs) 1).
    unfold kids. rewrite C. unfold adjustDepth. rewrite map_map.
    apply map_Forall. apply Forall_forall. intros x _. apply outline_adjustNode.
  - apply finish_failure in E. destruct E as [_ E]. congruence.
Qed.

Lemma nonempty_has {A : Type} (l : list A) : l <> [] -> exists x, In x l.
Proof. destruct l as [|x l]; [congruence|]. intros _. exists x. left. reflexivity. Qed.

Lemma in_join_intro (sep : char) (ls : list str) (l : str) (c : char) :
  In l ls -> In c l -> In c (join sep ls).
Proof.
  induction ls as [|x ls IH]; [intros []|]. intros Hl Hc.
  destruct ls as [|y ls'].
  - destruct Hl as [-> | []]. exact Hc.
  - change (join sep (x :: y :: ls')) with (x ++ sep :: join sep (y :: ls')).
    apply in_or_app. destruct Hl as [-> | Hl]; [left; exact Hc|].
    right. right. apply IH; assumption.
Qed.

(** Every line of the text is two-space indentation followed by the bullet
    of a node of the forest. *)
Lemma markdown_lines_form (f : list TreeNode) :
  forall cur,
    forallb (fun c => (c =? 32)%N) cur = true ->
    Forall (fun line => exists sp m,
              forallb (fun c => (c =? 32)%N) sp = true
              /\ In m (forest_nodes f) /\ line = sp ++ bullet m)
           (flat_map (fun n => markdownTraverse (lit "  ") n cur) f).
Proof.
  revert f. apply (forest_ind (fun f => forall cur,
    forallb (fun c => (c =? 32)%N) cur = true ->
    Forall (fun line => exists sp m,
              forallb (fun c => (c =? 32)%N) sp = true
              /\ In m (forest_nodes f) /\ line = sp ++ bullet m)
           (flat_map (fun n => markdownTraverse (lit "  ") n cur) f))).
  - intros cur _. constructor.
  - intros x rest IHk IHr cur Hcur. cbn [flat_map].
    rewrite markdownTraverse_eq, forest_nodes_cons.
    constructor; [|apply Forall_app; split].
    + exists cur, x. split; [exact Hcur|]. split; [left; reflexivity | reflexivity].
    + eapply Forall_impl; [|apply (IHk (cur ++ lit "  "))].
      * intros line (sp & m & Hsp & Hm & E). exists sp, m.
        split; [exact Hsp|]. split; [|exact E]. right. apply in_or_app. left. exact Hm.
      * rewrite forallb_app, Hcur. reflexivity.
    + eapply Forall_impl; [|apply (IHr cur Hcur)].
      intros line (sp & m & Hsp & Hm & E). exists sp, m.
      split; [exact Hsp|]. split; [|exact E]. right. apply in_or_app. right. exact Hm.
Qed.

Lemma bullet_line_chars (sp : str) (m : TreeNode) (c : char) :
  forallb (fun c => (c =? 32)%N) sp = true ->
  In c (sp ++ bullet m) ->
  c = 32%N \/ c = DASH \/ c = SLASH \/ In c (name m).
Proof.
  intros Hsp H. apply in_app_or in H. destruct H as [H | H].
  - rewrite forallb_forall in Hsp. apply Hsp in H. apply N.eqb_eq in H. auto.
  - unfold bullet in H. change (lit "- ") with [DASH; 32%N] in H.
    destruct H as [<- | [<- | H]]; auto. cbn [app] in H.
    apply in_app_or in H. destruct H as [H | H]; auto.
    destruct (type m); cbn [suffixOf In] in H; [destruct H|].
    destruct H as [<- | H]; [auto | destruct H].
Qed.

Lemma plain_name_chars (nm : str) (c : char) :
  plain_name nm -> In c nm ->
  c <> LF /\ c <> HASH /\ detectFormat [c] <> ascii.
Proof.
  intros (_ & Hl & Hh & Hg) Hc. split; [|split].
  - rewrite forallb_forall in Hl. specialize (Hl c Hc). intros ->. discriminate.
  - intros ->. exact (Hh Hc).
  - intros D. apply detectFormat_ascii in D. destruct D as (g & Hg1 & [<- | []]).
    exact (Hg c Hg1 Hc).
Qed.

Section MarkdownText.

Variable generateId : nat -> str.
Variable f : list TreeNode.
Hypothesis f_not_empty : f <> [].
Hypothesis f_safe : forall n, In n (forest_nodes f) -> text_safe n.

Lemma text_lines_not_empty :
  flat_map (fun n => markdownTraverse (lit "  ") n []) f <> [].
Proof.
  destruct f as [|n rest]; [congruence|].
  cbn [flat_map]. rewrite markdownTraverse_eq. discriminate.
Qed.

Lemma text_line (l : str) :
  In l (flat_map (fun n => markdownTraverse (lit "  ") n []) f) ->
  In DASH l
  /\ forall c, In c l -> c <> LF /\ c <> HASH /\ detectFormat [c] <> ascii.
Proof.
  intros Hl.
  assert (F := markdown_lines_form f [] eq_refl). rewrite Forall_forall in F.
  destruct (F l Hl) as (sp & m & Hsp & Hm & ->). split.
  - apply in_or_app. right. left. reflexivity.
  - intros c Hc.
    destruct (bullet_line_chars sp m c Hsp Hc) as [-> | [-> | [-> | Hn]]];
      try (split; [discriminate | split; [discriminate|]];
           vm_compute; discriminate).
    apply (plain_name_chars (name m)); [|exact Hn]. apply (f_safe m Hm).
Qed.

Lemma text_split :
  split LF (formatAsMarkdown f (lit "  "))
  = flat_map (fun n => markdownTraverse (lit "  ") n []) f.
Proof.
  apply split_join; [exact text_lines_not_empty|].
  intros l Hl Hc. destruct (text_line l Hl) as [_ H]. destruct (H LF Hc) as [E _].
  congruence.
Qed.

Lemma text_sanitized :
  sanitizeInput (formatAsMarkdown f (lit "  ")) = formatAsMarkdown f (lit "  ").
Proof.
  unfold sanitizeInput. rewrite text_split, map_fixed, filter_fixed; [reflexivity| |].
  - intros l Hl. destruct (text_line l Hl) as [Hd _]. unfold keepLine.
    assert (T : In DASH (trim l)) by (apply in_trim_keep; [exact Hd | reflexivity]).
    destruct (trim l) as [|c t]; [destruct T|]. cbn [length Nat.eqb].
    apply existsb_exists. exists DASH. split; [exact T | reflexivity].
  - intros l Hl. apply stripComment_fixed. intros Hc.
    destruct (text_line l Hl) as [_ H]. destruct (H HASH Hc) as (_ & E & _).
    congruence.
Qed.

Lemma text_not_blank : trim (formatAsMarkdown f (lit "  ")) <> [].
Proof.
  destruct (nonempty_has _ text_lines_not_empty) as [l Hl].
  apply (trim_not_nil _ DASH); [|reflexivity].
  unfold formatAsMarkdown. apply (in_join_intro LF _ l); [exact Hl|].
  apply (text_line l). exact Hl.
Qed.

Lemma text_is_markdown : detectFormat (formatAsMarkdown f (lit "  ")) = markdown.
Proof.
  destruct (detectFormat (formatAsMarkdown f (lit "  "))) eqn:D; [reflexivity| |].
  - exfalso. apply detectFormat_ascii in D. destruct D as (c & Hg & Hc).
    unfold formatAsMarkdown in Hc. apply in_join in Hc.
    destruct Hc as [-> | (l & Hl & Hc)].
    + apply glyph_not_space in Hg. destruct Hg as [_ Hg]. congruence.
    + destruct (text_line l Hl) as [_ H]. destruct (H c Hc) as (_ & _ & G).
      apply G. eapply detectFormat_glyph; [exact Hg | left; reflexivity].
  - exfalso. revert D. apply detectFormat_known. exact text_not_blank.
Qed.

Lemma text_parses_back :
  exists g,
    parseDirectoryStructure generateId (formatAsMarkdown f (lit "  ")) = Success g
    /\ map outline g = map outline f.
Proof.
  unfold parseDirectoryStructure. rewrite text_sanitized, text_is_markdown.
  assert (E : isEmpty (trim (formatAsMarkdown f (lit "  "))) = false)
    by (apply isEmpty_false, text_not_blank).
  assert (E0 : isEmpty (formatAsMarkdown f (lit "  ")) = false).
  { apply isEmpty_false. intros G. apply text_not_blank. rewrite G. reflexivity. }
  rewrite E, E0. cbn [orb]. unfold parseMarkdown. rewrite text_split.
  destruct (markdown_forest generateId f f_safe emptyBuilder) as (bs & Obs & Rbs);
    [constructor|].
  rewrite Rbs. cbn [root emptyBuilder app].
  destruct (finish_outline bs) as (g & Hg & Og).
  - intros ->. destruct f; [congruence | discriminate].
  - exists g. split; [exact Hg | congruence].
Qed.

End MarkdownText.

(** X19.  The Markdown text of a tree (the text that "copy as text" puts on
    the clipboard) parses back to a tree with the same names, kinds and
    nesting, provided every name is as the parsers return names (trimmed, on
    one line, free of the comment marker and of the box-drawing glyphs) and
    every file is a leaf whose name does not end with a slash. *)
Theorem markdown_text_parses_back (generateId : nat -> str) (f : list TreeNode)
  (preserve : option bool) :
  f <> [] ->
  (forall n, In n (forest_nodes f) -> text_safe n) ->
  exists g,
    parseDirectoryStructure generateId
      (formatTreeToText f (mkOptions preserve None (Some style_markdown)))
    = Success g
    /\ map outline g = map outline f.
Proof.
  intros Hne Hsafe.
  destruct (text_parses_back generateId f Hne Hsafe) as (g & Hg & Og).
  exists g. split; [|exact Og]. rewrite <- Hg.
  destruct f as [|n rest]; [congruence | reflexivity].
Qed.

Lemma markdown_text_parses_back_witness :
  exists g,
    parseDirectoryStructure (fun _ => [])
      (formatTreeToText [sample_src; sample_readme]
                        (mkOptions None None (Some style_markdown)))
    = Success g
    /\ map outline g = map outline [sample_src; sample_readme].
Proof.
  apply (markdown_text_parses_back (fun _ => []) [sample_src; sample_readme] None).
  - discriminate.
  - intros n [<- | [<- | [<- | []]]]; (split; [split; [reflexivity|]|]).
    + split; [reflexivity|]. split; [vm_compute; intuition discriminate|].
      intros c Hc. vm_compute in Hc. vm_compute.
      intuition (try discriminate; subst; discriminate).
    + discriminate.
    + split; [reflexivity|]. split; [vm_compute; intuition discriminate|].
      intros c Hc. vm_compute in Hc. vm_compute.
      intuition (try discriminate; subst; discriminate).
    + intros _. split; reflexivity.
    + split; [reflexivity|]. split; [vm_compute; intuition discriminate|].
      intros c Hc. vm_compute in Hc. vm_compute.
      intuition (try discriminate; subst; discriminate).
    + intros _. split; reflexivity.
Defined.

(* ================================================================== *)
(** * From the ASCII text back to the tree *)
(* ================================================================== *)

(** ** The prefix scan of one line *)

Lemma substring_app_at (done rest : str) (n : nat) :
  substring (done ++ rest) (length done) (length done + n) = firstn n rest.
Proof.
  unfold substring. replace (length done + n - length done)%nat with n by lia.
  rewrite skipn_app, Nat.sub_diag, skipn_all. reflexivity.
Qed.

Lemma substringFrom_app_at (done rest : str) (n : nat) :
  substringFrom (done ++ rest) (length done + n) = skipn n rest.
Proof.
  unfold substringFrom. rewrite skipn_app.
  replace (length done + n - length done)%nat with n by lia.
  rewrite skipn_all2 by lia. reflexivity.
Qed.

Lemma startsWith_skipn_includes (s t : str) (pos : nat) :
  startsWith (skipn pos s) t = true -> includes s t = true.
Proof.
  revert s; induction pos as [|pos IH]; intros s H.
  - destruct s; simpl in *; rewrite H; reflexivity.
  - destruct s as [|c s]; [simpl in H; destruct t; [reflexivity | discriminate]|].
    cbn [skipn] in H. cbn [includes]. rewrite (IH _ H). apply orb_true_r.
Qed.

Lemma startsWith_head_in (s t : str) (c : char) :
  startsWith s (c :: t) = true -> In c s.
Proof.
  destruct s as [|x s]; simpl; [discriminate|].
  intros H. apply andb_true_iff in H. destruct H as [H _].
  apply N.eqb_eq in H. left. exact H.
Qed.

Lemma in_skipn (s : str) (pos : nat) (c : char) : In c (skipn pos s) -> In c s.
Proof.
  revert s; induction pos as [|pos IH]; intros s; [auto|].
  destruct s as [|x s]; [auto|]. cbn [skipn]. intros H. right. apply IH. exact H.
Qed.

(** No prefix token occurs in [body]. *)
Lemma token_free (body : str) :
  (forall c, In [c] asciiChars -> ~ In c body) ->
  includes body (lit "    ") = false ->
  forall pos,
    existsb (fun tok => str_eqb (substring body pos (pos + length tok)) tok)
            treeChars = false.
Proof.
  intros Hg Hs pos.
  assert (K : forall tok : str, substring body pos (pos + length tok)
                          = firstn (length tok) (skipn pos body)).
  { intros tok. unfold substring. f_equal. lia. }
  unfold treeChars. cbn [existsb]. rewrite !K, !str_eqb_firstn.
  assert (G : forall c t, In [c] asciiChars ->
                startsWith (skipn pos body) (c :: t) = false).
  { intros c t Hc. destruct (startsWith (skipn pos body) (c :: t)) eqn:E;
      [|reflexivity].
    exfalso. apply (Hg c Hc). eapply in_skipn, startsWith_head_in. exact E. }
  rewrite !G by (vm_compute; tauto). cbn [orb].
  rewrite orb_false_r.
  match goal with |- ?x = false => destruct x eqn:E; [|reflexivity] end.
  apply startsWith_skipn_includes in E. exfalso.
  assert (X : true = false) by (rewrite <- E; exact Hs). discriminate.
Qed.

Lemma scan_body (body : str) (fuel pos : nat) (level : Z) (found : bool) :
  trim body = body ->
  (forall pos,
     existsb (fun tok => str_eqb (substring body pos (pos + length tok)) tok)
             treeChars = false) ->
  scanLoop (S fuel) body pos level found = Some (body, level, found).
Proof.
  intros Ht Hfree. cbn [scanLoop].
  destruct (pos <? length body)%nat; [|reflexivity].
  rewrite (find_none_all _ _ (Hfree pos)), Ht. reflexivity.
Qed.

Lemma length_rail (isLast : bool) : length (rail isLast) = 4%nat.
Proof. destruct isLast; reflexivity. Qed.

Lemma length_connector (isLast : bool) : length (connector isLast) = 4%nat.
Proof. destruct isLast; reflexivity. Qed.

Lemma find_rail (l : bool) (done rest : str) :
  find (fun tok : str =>
          str_eqb (substring (done ++ rail l ++ rest) (length done)
                             (length done + length tok)) tok)
       treeChars
  = Some (rail l).
Proof.
  unfold treeChars. cbn [find length]. rewrite !substring_app_at.
  destruct l; reflexivity.
Qed.

Lemma find_connector (isLast : bool) (done rest : str) :
  find (fun tok : str =>
          str_eqb (substring (done ++ connector isLast ++ rest) (length done)
                             (length done + length tok)) tok)
       treeChars
  = Some (if isLast then CORNER else BRANCH).
Proof.
  unfold treeChars. cbn [find length]. rewrite !substring_app_at.
  destruct isLast; reflexivity.
Qed.

Lemma scanLoop_S (fuel : nat) (cleanLine : str) (pos : nat) (level : Z)
  (foundTreeChar : bool) :
  scanLoop (S fuel) cleanLine pos level foundTreeChar
  = if (pos <? length cleanLine)%nat then
      match find (fun tok =>
                    str_eqb (substring cleanLine pos (pos + length tok)) tok)
                 treeChars with
      | Some tok =>
          if str_eqb tok BRANCH || str_eqb tok CORNER
          then scanLoop fuel
                        (trim (substringFrom cleanLine (pos + length tok)))
                        pos level true
          else scanLoop fuel cleanLine (pos + length tok) (level + 1) true
      | None => Some (trim cleanLine, level, foundTreeChar)
      end
    else Some (cleanLine, level, foundTreeChar).
Proof. reflexivity. Qed.

(** The scan of a line of the text: one level for each piece of prefix, and
    the text after the connector as the name. *)
Lemma scan_line (isLast : bool) (body : str) (lasts : list bool) :
  trim body = body ->
  (forall pos,
     existsb (fun tok => str_eqb (substring body pos (pos + length tok)) tok)
             treeChars = false) ->
  forall (done : str) (level : Z) (found : bool) (fuel : nat),
    scanLoop (length lasts + S (S fuel))
             (done ++ rails lasts ++ connector isLast ++ body)
             (length done) level found
    = Some (body, (level + Z.of_nat (length lasts))%Z, true).
Proof.
  intros Ht Hfree.
  induction lasts as [|l lasts IH]; intros done level found fuel.
  - cbn [length Nat.add rails map concat app]. rewrite scanLoop_S.
    assert (L : (length done <? length (done ++ connector isLast ++ body))%nat = true).
    { apply Nat.ltb_lt. rewrite !length_app, length_connector. lia. }
    rewrite L, find_connector. cbv beta iota.
    assert (Q : (str_eqb (if isLast then CORNER else BRANCH) BRANCH
                 || str_eqb (if isLast then CORNER else BRANCH) CORNER) = true)
      by (destruct isLast; reflexivity).
    rewrite Q.
    assert (R : trim (substringFrom (done ++ connector isLast ++ body)
                        (length done + length (if isLast then CORNER else BRANCH)))
                = body).
    { rewrite substringFrom_app_at. rewrite <- Ht at 2.
      destruct isLast; reflexivity. }
    assert (G : forall x, x = body ->
                  scanLoop (S fuel) x (length done) level true
                  = Some (body, (level + Z.of_nat 0)%Z, true)).
    { intros x ->. rewrite Z.add_0_r. apply scan_body; assumption. }
    apply G. exact R.
  - change (rails (l :: lasts)) with (rail l ++ rails lasts).
    rewrite <- (app_assoc (rail l)).
    cbn [length Nat.add]. rewrite scanLoop_S.
    assert (L : (length done
                 <? length (done ++ rail l ++ rails lasts ++ connector isLast ++ body))%nat
                = true).
    { apply Nat.ltb_lt. rewrite !length_app, length_rail. lia. }
    rewrite L, find_rail. cbv beta iota.
    assert (Q : (str_eqb (rail l) BRANCH || str_eqb (rail l) CORNER) = false)
      by (destruct l; reflexivity).
    rewrite Q, app_assoc.
    replace (length done + length (rail l))%nat with (length (done ++ rail l))
      by (rewrite length_app; reflexivity).
    rewrite IH. do 2 f_equal. f_equal. lia.
Qed.

Lemma length_rails (lasts : list bool) : length (rails lasts) = (4 * length lasts)%nat.
Proof.
  unfold rails. induction lasts as [|l lasts IH]; [reflexivity|].
  cbn [map concat length]. rewrite length_app, length_rail, IH. lia.
Qed.

Lemma rails_snoc (lasts : list bool) (isLast : bool) :
  rails (lasts ++ [isLast]) = rails lasts ++ rail isLast.
Proof.
  unfold rails. rewrite map_app, concat_app. cbn [map concat].
  rewrite app_nil_r. reflexivity.
Qed.

(** The text after the connector of a node. *)
Lemma label_ascii (n : TreeNode) :
  ascii_safe n ->
  let body := name n ++ suffixOf (type n) in
  trim body = body /\ body <> []
  /\ (forall pos,
        existsb (fun tok => str_eqb (substring body pos (pos + length tok)) tok)
                treeChars = false)
  /\ existsb isContentChar body = true.
Proof.
  intros ((Hname & Hfile) & Hsp & Hcontent). cbv zeta.
  destruct (label_plain n Hname) as [Ht _]. split; [exact Ht|].
  destruct Hname as (Htrim & _ & _ & Hg).
  destruct (type n) eqn:T; cbn [suffixOf] in *.
  - rewrite app_nil_r in *. specialize (Hcontent eq_refl).
    split; [intros E; rewrite E in Hcontent; discriminate|].
    split; [apply token_free; assumption | exact Hcontent].
  - split; [intros E; apply app_eq_nil in E; destruct E; discriminate|]. split.
    + apply token_free.
      * intros c Hc H. apply in_app_or in H. destruct H as [H | [<- | []]].
        -- exact (Hg c Hc H).
        -- vm_compute in Hc. intuition discriminate.
      * destruct (includes (name n ++ [SLASH]) (lit "    ")) eqn:E; [|reflexivity].
        exfalso. clear - E Hsp. revert E Hsp.
        induction (name n) as [|c s IH]; [discriminate|].
        cbn [app includes]. intros E Hs.
        apply orb_false_iff in Hs. destruct Hs as [Hs1 Hs2].
        apply orb_true_iff in E. destruct E as [E | E]; [|exact (IH E Hs2)].
        assert (K : forall (t u : str),
                  ~ In SLASH u -> startsWith (t ++ [SLASH]) u = true ->
                  startsWith t u = true).
        { intros t u; revert t; induction u as [|x u IHu]; intros t Hu H;
            [reflexivity|].
          destruct t as [|y t]; cbn [app startsWith] in *.
          - apply andb_true_iff in H. destruct H as [H _]. apply N.eqb_eq in H.
            exfalso. apply Hu. left. symmetry. exact H.
          - apply andb_true_iff in H. destruct H as [H1 H2]. rewrite H1.
            apply IHu; [intros G; apply Hu; right; exact G | exact H2]. }
        change (c :: s ++ [SLASH]) with ((c :: s) ++ [SLASH]) in E.
        apply K in E; [congruence|]. vm_compute. intuition discriminate.
    + rewrite existsb_app. cbn [existsb]. change (isContentChar SLASH) with true.
      rewrite orb_true_r. reflexivity.
Qed.

Lemma asciiTraverse_rail (node : TreeNode) (prefix : str) (isLast : bool) :
  asciiTraverse node prefix isLast
  = (prefix ++ connector isLast ++ name node ++ suffixOf (type node))
    :: asciiTraverseAll (kids node) (prefix ++ rail isLast).
Proof. rewrite asciiTraverse_eq. destruct isLast; reflexivity. Qed.

Section AsciiLines.

Variable generateId : nat -> str.

Lemma asciiLine_node (st : Builder) (i : nat) (lasts : list bool) (isLast : bool)
  (body : str) :
  trim body = body -> body <> [] ->
  (forall pos,
     existsb (fun tok => str_eqb (substring body pos (pos + length tok)) tok)
             treeChars = false) ->
  asciiLine generateId (st, i) (rails lasts ++ connector isLast ++ body)
  = (attach st (newNode generateId (created st) body (Z.of_nat (length lasts)))
            (Z.of_nat (length lasts)) (endsWith body [SLASH]),
     S i).
Proof.
  intros Ht Hne Hfree. unfold asciiLine.
  assert (E : isEmpty (trim (rails lasts ++ connector isLast ++ body)) = false).
  { apply isEmpty_false.
    apply (trim_not_nil _ (if isLast then 9492%N else 9500%N));
      [|destruct isLast; reflexivity].
    apply in_or_app. right. apply in_or_app. left.
    destruct isLast; left; reflexivity. }
  rewrite E. unfold scanPrefix.
  replace (S (length (rails lasts ++ connector isLast ++ body)))
    with (length lasts + S (S (3 * length lasts + 3 + length body)))%nat
    by (rewrite !length_app, length_rails, length_connector; lia).
  rewrite (scan_line isLast body lasts Ht Hfree [] 0%Z false).
  rewrite Ht. apply isEmpty_false in Hne. rewrite Hne. reflexivity.
Qed.

(** The un-prefixed first line, which names the root folder. *)
Lemma asciiLine_root (body : str) :
  trim body = body -> body <> [] ->
  (forall pos,
     existsb (fun tok => str_eqb (substring body pos (pos + length tok)) tok)
             treeChars = false) ->
  endsWith body [SLASH] = true ->
  asciiLine generateId (emptyBuilder, 0%nat) body = (opened_root generateId body, 1%nat).
Proof.
  intros Ht Hne Hfree Hs. unfold asciiLine, scanPrefix.
  rewrite (scan_body body (length body) 0 0%Z false Ht Hfree), Ht.
  apply isEmpty_false in Hne. rewrite Hne, Hs. reflexivity.
Qed.

(** The children of a folder in progress, printed below [rails lasts]: each
    child is pushed into the node [m] that was placed for the folder, whose
    frame has the level [key]. *)
Lemma ascii_children (key : Z) (lasts : list bool) (root0 : list TreeNode)
  (base : list Frame) (cs : list TreeNode) :
  (key < Z.of_nat (length lasts))%Z ->
  (match base with [] => True | fr :: _ => (indent fr < key)%Z end) ->
  base_ok (Z.of_nat (length lasts)) root0 base ->
  Forall (reads_subtree generateId lasts) cs ->
  forall acc m popped,
    root (fst acc) = place base root0 m ->
    children m <> None ->
    stack (fst acc) = popped ++ mkFrame (ref_in base root0) key :: base ->
    Forall (fun fr => (Z.of_nat (length lasts) <= indent fr)%Z) popped ->
    exists m' popped',
      name m' = name m /\ type m' = type m
      /\ map outline (kids m') = map outline (kids m) ++ map outline cs
      /\ root (fst (fold_left (asciiLine generateId)
                              (asciiTraverseAll cs (rails lasts)) acc))
         = place base root0 m'
      /\ stack (fst (fold_left (asciiLine generateId)
                               (asciiTraverseAll cs (rails lasts)) acc))
         = popped' ++ mkFrame (ref_in base root0) key :: base
      /\ Forall (fun fr => (Z.of_nat (length lasts) <= indent fr)%Z) popped'.
Proof.
  intros Hkey Hlow Hbase Hcs.
  induction Hcs as [|c cs Hc _ IH]; intros acc m popped Hroot Hm Hstack Hpop.
  - exists m, popped. cbn [asciiTraverseAll fold_left map]. rewrite app_nil_r.
    repeat split; assumption.
  - rewrite asciiTraverseAll_cons, fold_left_app.
    set (fr0 := mkFrame (ref_in base root0) key) in *.
    assert (Hb' : base_ok (Z.of_nat (length lasts)) (root (fst acc)) (fr0 :: base)).
    { split; [exact Hkey|].
      destruct (children m) as [ms|] eqn:Cm; [|congruence].
      exists m, ms. split; [|exact Cm]. unfold fr0. cbn [node_ref].
      rewrite Hroot. eapply node_at_place; eauto. }
    destruct (Hc (match cs with [] => true | _ :: _ => false end)
                 acc popped (fr0 :: base) Hstack Hpop Hb')
      as (b & popped1 & Ob & Rb & Sb & Pb).
    set (acc1 := fold_left (asciiLine generateId)
                   (asciiTraverse c (rails lasts)
                      (match cs with [] => true | _ :: _ => false end)) acc) in *.
    assert (Hroot1 : root (fst acc1) = place base root0 (pushChild b m)).
    { rewrite Rb, Hroot. unfold place at 1. unfold fr0. cbn [node_ref].
      eapply place_push; eauto. }
    destruct (IH acc1 (pushChild b m) popped1 Hroot1 (children_pushChild b m Hm) Sb Pb)
      as (m' & popped' & Hn & Ht & Hk & Hr & Hs & Hp).
    exists m', popped'. split; [|split; [|split; [|split; [|split]]]]; try assumption.
    + rewrite Hn. unfold pushChild. destruct (children m); reflexivity.
    + rewrite Ht. unfold pushChild. destruct (children m); reflexivity.
    + rewrite Hk, kids_pushChild.
      destruct (children m); [|congruence].
      rewrite map_app, <- app_assoc. cbn [map app]. rewrite Ob. reflexivity.
Qed.

Lemma ascii_subtree (n : TreeNode) :
  (forall m, In m (subtree n) -> ascii_safe m) ->
  forall lasts, reads_subtree generateId lasts n.
Proof.
  induction n as [n IH] using node_kids_ind.
  intros Hsafe lasts isLast [st i] popped base Hstack Hpop Hbase.
  cbn [fst] in *.
  assert (Hn : ascii_safe n) by (apply Hsafe; rewrite subtree_eq; left; reflexivity).
  destruct (label_ascii n Hn) as (Ht & Hne & Hfree & _).
  destruct Hn as ((Hname & Hfile) & _).
  rewrite asciiTraverse_rail. cbn [fold_left].
  rewrite asciiLine_node by assumption.
  destruct (newNode_label generateId (created st) n (Z.of_nat (length lasts)))
    as [-> ->].
  { intros T. apply (Hfile T). }
  set (node0 := mkNode _ (name n) (type n) _ _ _).
  destruct (attach_place st node0 (Z.of_nat (length lasts))
                         (NodeType_eqb (type n) folder) popped base
                         Hstack Hpop Hbase) as [Rst Sst].
  set (st1 := attach st node0 _ _) in *.
  destruct (type n) eqn:T.
  - destruct (Hfile eq_refl) as [_ Hk]. rewrite Hk. cbn [asciiTraverseAll fold_left fst].
    exists node0, []. split; [|split; [|split]].
    + apply outline_children; [reflexivity | unfold node0; rewrite T; reflexivity|].
      rewrite Hk. reflexivity.
    + exact Rst.
    + exact Sst.
    + constructor.
  - cbn [NodeType_eqb] in *. rewrite <- rails_snoc.
    assert (Hkids : Forall (reads_subtree generateId (lasts ++ [isLast])) (kids n)).
    { rewrite Forall_forall in IH. apply Forall_forall. intros c Hc.
      apply (IH c Hc). intros m Hm. apply Hsafe. rewrite subtree_eq. right.
      unfold forest_nodes. apply in_flat_map. exists c. split; assumption. }
    assert (Len : Z.of_nat (length (lasts ++ [isLast]))
                  = (Z.of_nat (length lasts) + 1)%Z).
    { rewrite length_app. cbn [length]. lia. }
    destruct (ascii_children (Z.of_nat (length lasts)) (lasts ++ [isLast])
                             (root st) base (kids n))
      with (acc := (st1, S i)) (m := node0) (popped := @nil Frame)
      as (m' & popped' & Hn' & Hty & Hk & Hr & Hs & Hp).
    + lia.
    + destruct base as [|fr base]; [exact I | exact (proj1 Hbase)].
    + destruct base as [|fr base]; [exact I|]. destruct Hbase as [Hlt Hex].
      split; [lia | exact Hex].
    + exact Hkids.
    + exact Rst.
    + discriminate.
    + exact Sst.
    + constructor.
    + exists m', (popped' ++ [mkFrame (ref_in base (root st))
                                      (Z.of_nat (length lasts))]).
      split; [|split; [|split]].
      * apply outline_children;
          [exact Hn' | rewrite Hty; unfold node0; rewrite T; reflexivity|].
        rewrite Hk. reflexivity.
      * exact Hr.
      * rewrite Hs, <- app_assoc. reflexivity.
      * apply Forall_app. split.
        -- eapply Forall_impl; [|exact Hp]. intros fr Hfr. cbv beta in Hfr.
           rewrite Len in Hfr. lia.
        -- constructor; [cbn [indent]; lia | constructor].
Qed.

(** Several roots, read with no folder open. *)
Lemma ascii_forest (cs : list TreeNode) :
  (forall m, In m (forest_nodes cs) -> ascii_safe m) ->
  forall acc,
    Forall (fun fr => (0 <= indent fr)%Z) (stack (fst acc)) ->
    exists bs,
      map outline bs = map outline cs
      /\ root (fst (fold_left (asciiLine generateId) (asciiTraverseAll cs []) acc))
         = root (fst acc) ++ bs.
Proof.
  induction cs as [|n rest IH]; intros Hsafe acc Hst.
  - exists []. split; [reflexivity|]. cbn. rewrite app_nil_r. reflexivity.
  - rewrite asciiTraverseAll_cons, fold_left_app.
    destruct (ascii_subtree n) with (lasts := @nil bool)
        (isLast := match rest with [] => true | _ :: _ => false end)
        (acc := acc) (popped := stack (fst acc)) (base := @nil Frame)
      as (b & popped' & Ob & Rb & Sb & Pb).
    + intros m Hm. apply Hsafe. rewrite forest_nodes_cons.
      rewrite subtree_eq in Hm. destruct Hm as [Hm | Hm]; [left; exact Hm|].
      right. apply in_or_app. left. exact Hm.
    + rewrite app_nil_r. reflexivity.
    + exact Hst.
    + exact I.
    + change (rails []) with (@nil char) in *.
      destruct (IH) with (acc := fold_left (asciiLine generateId)
                  (asciiTraverse n []
                     (match rest with [] => true | _ :: _ => false end)) acc)
        as (bs & Obs & Rbs).
      * intros m Hm. apply Hsafe. rewrite forest_nodes_cons.
        right. apply in_or_app. right. exact Hm.
      * rewrite Sb, app_nil_r. exact Pb.
      * exists (b :: bs). split; [cbn [map]; rewrite Ob, Obs; reflexivity|].
        rewrite Rbs, Rb. unfold place. rewrite <- app_assoc. reflexivity.
Qed.

(** A single root folder, named by the un-prefixed first line. *)
Lemma ascii_single_root (r : TreeNode) :
  (forall m, In m (subtree r) -> ascii_safe m) ->
  type r = folder ->
  exists b,
    outline b = outline r
    /\ root (fst (fold_left (asciiLine generateId)
                    ((name r ++ suffixOf (type r)) :: asciiTraverseAll (kids r) [])
                    (emptyBuilder, 0%nat)))
       = [b].
Proof.
  intros Hsafe T.
  assert (Hr : ascii_safe r) by (apply Hsafe; rewrite subtree_eq; left; reflexivity).
  destruct (label_ascii r Hr) as (Ht & Hne & Hfree & _).
  cbn [fold_left]. rewrite asciiLine_root; try assumption;
    [|rewrite T; apply endsWith_snoc].
  assert (Hkids : Forall (reads_subtree generateId []) (kids r)).
  { apply Forall_forall. intros c Hc. apply ascii_subtree.
    intros m Hm. apply Hsafe. rewrite subtree_eq. right.
    unfold forest_nodes. apply in_flat_map. exists c. split; assumption. }
  destruct (ascii_children (-1) [] [] [] (kids r))
    with (acc := (opened_root generateId (name r ++ suffixOf (type r)), 1%nat))
         (m := mkNode (generateId 0%nat) (dropLast (name r ++ suffixOf (type r)))
                      folder 0 (Some true) (Some []))
         (popped := @nil Frame)
    as (m' & popped' & Hn & Hty & Hk & Hroot & _).
  - cbn [length]. lia.
  - exact I.
  - exact I.
  - exact Hkids.
  - reflexivity.
  - discriminate.
  - reflexivity.
  - constructor.
  - exists m'. split; [|exact Hroot].
    apply outline_children.
    + rewrite Hn. cbn [name]. rewrite T. apply dropLast_snoc.
    + rewrite Hty, T. reflexivity.
    + rewrite Hk. reflexivity.
Qed.

End AsciiLines.

(** ** The text as a whole *)

Lemma content_not_space (c : char) : isContentChar c = true -> isSpace c = false.
Proof.
  unfold isContentChar, isSpace. intros H.
  rewrite !orb_true_iff, !andb_true_iff, !N.leb_le, !N.eqb_eq in H.
  rewrite !orb_false_iff, !andb_false_iff, !N.leb_gt, !N.eqb_neq.
  lia.
Qed.

(** A text made of lines that the sanitizer keeps as they are. *)
Lemma sanitize_kept_lines (ls : list str) :
  ls <> [] ->
  (forall l, In l ls -> ~ In LF l /\ ~ In HASH l /\ keepLine l = true) ->
  split LF (join LF ls) = ls /\ sanitizeInput (join LF ls) = join LF ls.
Proof.
  intros Hne H.
  assert (S : split LF (join LF ls) = ls).
  { apply split_join; [exact Hne|]. intros l Hl. apply (H l Hl). }
  split; [exact S|]. unfold sanitizeInput.
  rewrite S, map_fixed, filter_fixed; [reflexivity| |].
  - intros l Hl. apply (H l Hl).
  - intros l Hl. apply stripComment_fixed. apply (H l Hl).
Qed.

Lemma keepLine_content (l : str) (c : char) :
  In c l -> isContentChar c = true -> keepLine l = true.
Proof.
  intros Hin Hc. unfold keepLine.
  assert (T : In c (trim l)) by (apply in_trim_keep; [exact Hin | apply content_not_space; exact Hc]).
  destruct (trim l) as [|x t]; [destruct T|]. cbn [length Nat.eqb].
  apply existsb_exists. exists c. split; assumption.
Qed.

Lemma label_chars (m : TreeNode) (c : char) :
  ascii_safe m -> In c (name m ++ suffixOf (type m)) -> c <> LF /\ c <> HASH.
Proof.
  intros ((Hname & _) & _) H. apply in_app_or in H. destruct H as [H | H].
  - destruct (plain_name_chars (name m) c Hname H) as (A & B & _). auto.
  - destruct (type m); cbn [suffixOf In] in H; [destruct H|].
    destruct H as [<- | []]. split; discriminate.
Qed.

Lemma rails_chars (lasts : list bool) (c : char) :
  In c (rails lasts) -> c = 32%N \/ c = 9474%N.
Proof.
  unfold rails. induction lasts as [|l lasts IH]; [intros []|].
  cbn [map concat]. intros H. apply in_app_or in H. destruct H as [H | H]; [|auto].
  destruct l; cbn [rail In] in H; intuition.
Qed.

(** A line of a node below the root line. *)
Lemma node_line_kept (lasts : list bool) (isLast : bool) (m : TreeNode) :
  ascii_safe m ->
  let line := rails lasts ++ connector isLast ++ name m ++ suffixOf (type m) in
  ~ In LF line /\ ~ In HASH line /\ keepLine line = true /\ In 9472%N line.
Proof.
  intros Hm line. destruct (label_ascii m Hm) as (_ & _ & _ & Hc).
  apply existsb_exists in Hc. destruct Hc as (c & Hin & Hc).
  assert (Hchars : forall x, In x line -> x <> LF /\ x <> HASH).
  { intros x Hx. unfold line in Hx. apply in_app_or in Hx.
    destruct Hx as [Hx | Hx].
    - apply rails_chars in Hx. destruct Hx as [-> | ->]; split; discriminate.
    - apply in_app_or in Hx. destruct Hx as [Hx | Hx].
      + destruct isLast; cbn [connector In] in Hx;
          intuition (subst; discriminate).
      + apply (label_chars m x Hm Hx). }
  split; [intros H; exact (proj1 (Hchars LF H) eq_refl)|].
  split; [intros H; exact (proj2 (Hchars HASH H) eq_refl)|].
  split.
  - apply (keepLine_content line c); [|exact Hc].
    unfold line. apply in_or_app. right. apply in_or_app. right. exact Hin.
  - unfold line. apply in_or_app. right. apply in_or_app. left.
    destruct isLast; right; left; reflexivity.
Qed.

Lemma root_line_kept (m : TreeNode) :
  ascii_safe m ->
  let line := name m ++ suffixOf (type m) in
  ~ In LF line /\ ~ In HASH line /\ keepLine line = true.
Proof.
  intros Hm line. destruct (label_ascii m Hm) as (_ & _ & _ & Hc).
  apply existsb_exists in Hc. destruct Hc as (c & Hin & Hc).
  split; [intros H; exact (proj1 (label_chars m LF Hm H) eq_refl)|].
  split; [intros H; exact (proj2 (label_chars m HASH Hm H) eq_refl)|].
  apply (keepLine_content line c Hin Hc).
Qed.

Lemma ascii_lines_kept (cs : list TreeNode) :
  (forall m, In m (forest_nodes cs) -> ascii_safe m) ->
  forall lasts,
    Forall (fun line => ~ In LF line /\ ~ In HASH line /\ keepLine line = true
                        /\ In 9472%N line)
           (asciiTraverseAll cs (rails lasts)).
Proof.
  revert cs. apply (forest_ind (fun cs =>
    (forall m, In m (forest_nodes cs) -> ascii_safe m) ->
    forall lasts,
      Forall (fun line => ~ In LF line /\ ~ In HASH line /\ keepLine line = true
                          /\ In 9472%N line)
             (asciiTraverseAll cs (rails lasts)))).
  - intros _ lasts. constructor.
  - intros x rest IHk IHr Hsafe lasts. rewrite forest_nodes_cons in Hsafe.
    rewrite asciiTraverseAll_cons, asciiTraverse_rail.
    cbn [app]. constructor; [|apply Forall_app; split].
    + apply node_line_kept. apply Hsafe. left. reflexivity.
    + rewrite <- rails_snoc. apply IHk. intros m Hm. apply Hsafe.
      right. apply in_or_app. left. exact Hm.
    + apply IHr. intros m Hm. apply Hsafe. right. apply in_or_app. right. exact Hm.
Qed.

Lemma formatAsAscii_single (r : TreeNode) :
  formatAsAscii [r]
  = join LF ((name r ++ suffixOf (type r)) :: asciiTraverseAll (kids r) []).
Proof.
  unfold formatAsAscii. destruct r as [i nm t d e [[|c cs]|]]; reflexivity.
Qed.

Lemma formatAsAscii_several (a b : TreeNode) (rest : list TreeNode) :
  formatAsAscii (a :: b :: rest) = join LF (asciiTraverseAll (a :: b :: rest) []).
Proof. reflexivity. Qed.

(** A text whose lines are all kept, with a box-drawing glyph on one of
    them, goes to the ASCII parser as it is. *)
Lemma ascii_text_route (generateId : nat -> str) (ls : list str) (l0 : str) :
  (forall l, In l ls -> ~ In LF l /\ ~ In HASH l /\ keepLine l = true) ->
  In l0 ls -> In 9472%N l0 ->
  parseDirectoryStructure generateId (join LF ls)
  = finish (root (fst (fold_left (asciiLine generateId) ls (emptyBuilder, 0%nat)))).
Proof.
  intros Hkept Hl0 Hg.
  assert (Hne : ls <> []) by (intros ->; destruct Hl0).
  destruct (sanitize_kept_lines ls Hne Hkept) as [S E].
  assert (G : In 9472%N (join LF ls)) by (eapply in_join_intro; eauto).
  assert (T : trim (join LF ls) <> []) by (apply (trim_not_nil _ _ G); reflexivity).
  unfold parseDirectoryStructure. rewrite E.
  assert (E1 : isEmpty (trim (join LF ls)) = false) by (apply isEmpty_false; exact T).
  assert (E0 : isEmpty (join LF ls) = false).
  { apply isEmpty_false. intros Z. apply T. rewrite Z. reflexivity. }
  rewrite E0, E1. cbn [orb].
  rewrite (detectFormat_glyph 9472%N (join LF ls)); [|vm_compute; tauto | exact G].
  unfold parseAscii. rewrite S. reflexivity.
Qed.

(** X20.  The ASCII text of a tree parses back to a tree with the same
    names, kinds and nesting.  The text must show a connector (the tree has
    several roots, or its only root has children; the text of a lone root is
    a bare name, which goes to the Markdown parser), and the nodes must be as
    for the Markdown text, with no run of four spaces in a name and one
    character of the sanitizer's class in every file name. *)
Theorem ascii_text_parses_back (generateId : nat -> str) (f : list TreeNode)
  (preserve : option bool) (indent : option str) :
  (2 <= length f)%nat \/ (exists r, f = [r] /\ kids r <> []) ->
  (forall n, In n (forest_nodes f) -> ascii_safe n) ->
  exists g,
    parseDirectoryStructure generateId
      (formatTreeToText f (mkOptions preserve indent (Some style_ascii)))
    = Success g
    /\ map outline g = map outline f.
Proof.
  intros Hshape Hsafe.
  destruct f as [|a [|b rest]].
  - destruct Hshape as [H | (r & H & _)]; [simpl in H; lia | discriminate].
  - assert (Hk : kids a <> []).
    { destruct Hshape as [H | (r & H & K)]; [simpl in H; lia|].
      injection H as ->. exact K. }
    assert (Ha : ascii_safe a).
    { apply Hsafe. rewrite forest_nodes_cons. left. reflexivity. }
    assert (T : type a = folder).
    { destruct (type a) eqn:T; [|reflexivity].
      destruct Ha as ((_ & Hf) & _). destruct (Hf T) as [_ K]. congruence. }
    assert (Hsub : forall m, In m (subtree a) -> ascii_safe m).
    { intros m Hm. apply Hsafe. rewrite forest_nodes_cons, app_nil_r.
      rewrite subtree_eq in Hm. exact Hm. }
    cbn [formatTreeToText opt_style]. rewrite formatAsAscii_single.
    destruct (kids a) as [|c cs] eqn:K; [congruence|].
    assert (Hlines := ascii_lines_kept (c :: cs)). specialize (Hlines) with (lasts := @nil bool).
    change (rails []) with (@nil char) in Hlines.
    rewrite asciiTraverseAll_cons in Hlines.
    destruct (asciiTraverse c [] (match cs with [] => true | _ :: _ => false end))
      as [|l0 ls0] eqn:L0.
    { rewrite asciiTraverse_rail in L0. discriminate. }
    rewrite <- K in *.
    assert (Hall : Forall (fun line => ~ In LF line /\ ~ In HASH line
                                       /\ keepLine line = true /\ In 9472%N line)
                          (asciiTraverseAll (kids a) [])).
    { rewrite K, asciiTraverseAll_cons, L0. rewrite K in Hlines. apply Hlines.
      intros m Hm. apply Hsub. rewrite subtree_eq. right. rewrite K. exact Hm. }
    rewrite Forall_forall in Hall.
    rewrite (ascii_text_route generateId _ l0).
    + destruct (ascii_single_root generateId a Hsub T) as (bnode & Ob & Rb).
      rewrite Rb. destruct (finish_outline [bnode]) as (g & Hg & Og); [discriminate|].
      exists g. split; [exact Hg|]. rewrite Og. cbn [map]. rewrite Ob. reflexivity.
    + intros l [<- | Hl].
      * destruct (root_line_kept a Ha) as (A & B & C). auto.
      * destruct (Hall l Hl) as (A & B & C & _). auto.
    + right. rewrite K, asciiTraverseAll_cons, L0. left. reflexivity.
    + apply (Hall l0). rewrite K, asciiTraverseAll_cons, L0. left. reflexivity.
  - cbn [formatTreeToText opt_style]. rewrite formatAsAscii_several.
    assert (Hall := ascii_lines_kept (a :: b :: rest) Hsafe []).
    change (rails []) with (@nil char) in Hall.
    destruct (asciiTraverseAll (a :: b :: rest) []) as [|l0 ls0] eqn:L0.
    { rewrite asciiTraverseAll_cons, asciiTraverse_rail in L0. discriminate. }
    rewrite Forall_forall in Hall.
    rewrite (ascii_text_route generateId _ l0).
    + rewrite <- L0.
      destruct (ascii_forest generateId (a :: b :: rest) Hsafe (emptyBuilder, 0%nat))
        as (bs & Obs & Rbs); [constructor|].
      rewrite Rbs. cbn [fst root emptyBuilder app].
      destruct (finish_outline bs) as (g & Hg & Og).
      * intros ->. discriminate.
      * exists g. split; [exact Hg | congruence].
    + intros l Hl. destruct (Hall l Hl) as (A & B & C & _). auto.
    + left. reflexivity.
    + apply (Hall l0). left. reflexivity.
Qed.

Lemma ascii_text_parses_back_witness :
  exists g,
    parseDirectoryStructure (fun _ => [])
      (formatTreeToText [sample_src; sample_readme]
                        (mkOptions None None (Some style_ascii)))
    = Success g
    /\ map outline g = map outline [sample_src; sample_readme].
Proof.
  apply (ascii_text_parses_back (fun _ => []) [sample_src; sample_readme] None None).
  - left. simpl. lia.
  - assert (P : forall nm, (trim nm = nm
                            /\ forallb (fun c => negb (isLineTerminator c)) nm = true
                            /\ forallb (fun c => negb (str_eqb [c] [HASH])) nm = true
                            /\ forallb (fun c => negb (existsb (str_eqb [c]) asciiChars)) nm
                               = true) ->
                           plain_name nm).
    { intros nm (A & B & C & D). split; [exact A|]. split; [exact B|]. split.
      - intros H. rewrite forallb_forall in C. specialize (C _ H). discriminate.
      - intros c Hc H. rewrite forallb_forall in D. specialize (D _ H).
        apply negb_true_iff in D.
        assert (X : existsb (str_eqb [c]) asciiChars = true).
        { apply existsb_exists. exists [c]. split; [exact Hc | apply str_eqb_refl]. }
        congruence. }
    intros n [<- | [<- | [<- | []]]].
    + split; [split; [apply P; vm_compute; auto | discriminate]|].
      split; [reflexivity | discriminate].
    + split; [split; [apply P; vm_compute; auto | intros _; split; reflexivity]|].
      split; reflexivity.
    + split; [split; [apply P; vm_compute; auto | intros _; split; reflexivity]|].
      split; reflexivity.
Defined.

(* ================================================================== *)
(** * Markdown lines without a bullet *)
(* ================================================================== *)

Lemma skipn_spaces_app (cur rest : str) : skipn (length cur) (cur ++ rest) = rest.
Proof. induction cur as [|c cur IH]; [reflexivity | exact IH]. Qed.

Lemma firstn_spaces_app (cur rest : str) : firstn (length cur) (cur ++ rest) = cur.
Proof. induction cur as [|c cur IH]; [reflexivity | cbn; rewrite IH; reflexivity]. Qed.

(** X21.  In the Markdown parser the bullet is optional: a line whose text
    does not start with a dash is read exactly like the same text behind
    "- ", at the same indentation.  (The text is trimmed, on one line and
    not empty.) *)
Theorem markdown_bullet_is_optional (generateId : nat -> str) (st : Builder)
  (cur body : str) (c : char) (t : str) :
  forallb isSpace cur = true ->
  body = c :: t -> c <> DASH ->
  trim body = body ->
  forallb (fun x => negb (isLineTerminator x)) body = true ->
  markdownLine generateId st (cur ++ body)
  = markdownLine generateId st (cur ++ lit "- " ++ body)
  /\ markdownLine generateId st (cur ++ body)
     = addMarkdownNode generateId st (length cur) body.
Proof.
  intros Hcur Hb Hc Ht Hl.
  rewrite (markdownLine_bullet generateId st cur body Hcur Ht Hl).
  assert (G : markdownLine generateId st (cur ++ body)
              = addMarkdownNode generateId st (length cur) body);
    [|split; [exact G | exact G]].
  assert (Sc : isSpace c = false).
  { apply (trim_starts_not_space body c t). rewrite Ht. exact Hb. }
  unfold markdownLine.
  assert (E : isEmpty (trim (cur ++ body)) = false).
  { apply isEmpty_false. apply (trim_not_nil _ c); [|exact Sc].
    apply in_or_app. right. rewrite Hb. left. reflexivity. }
  rewrite E.
  assert (B : matchBullet (cur ++ body) = None).
  { unfold matchBullet. rewrite dropWhile_spaces_app by exact Hcur.
    rewrite Hb. cbn [dropWhile]. rewrite Sc.
    destruct (N.eqb_spec c DASH); [contradiction | reflexivity]. }
  rewrite B. unfold matchPlain.
  assert (W : takeWhile isSpace (cur ++ body) = cur).
  { rewrite Hb. apply takeWhile_spaces_app; assumption. }
  rewrite W.
  assert (P : spacesThenDotPlus (length cur) (cur ++ body) = Some (cur, body)).
  { destruct (length cur) eqn:L.
    - destruct cur; [|discriminate]. cbn [spacesThenDotPlus skipn firstn app].
      unfold dotPlusToEnd. rewrite Hl, Hb. reflexivity.
    - rewrite <- L. cbn [spacesThenDotPlus].
      assert (D : dotPlusToEnd (skipn (length cur) (cur ++ body)) = true).
      { rewrite skipn_spaces_app. unfold dotPlusToEnd. rewrite Hl, Hb. reflexivity. }
      rewrite L in *. cbn [spacesThenDotPlus]. rewrite D. rewrite <- L.
      rewrite firstn_spaces_app, skipn_spaces_app. reflexivity. }
  rewrite P, Ht.
  assert (N : isEmpty body = false) by (rewrite Hb; reflexivity).
  rewrite N. reflexivity.
Qed.

Lemma markdown_bullet_is_optional_witness :
  markdownLine (fun _ => []) emptyBuilder (lit "  src/")
  = markdownLine (fun _ => []) emptyBuilder (lit "  - src/").
Proof.
  refine (proj1 (markdown_bullet_is_optional (fun _ => []) emptyBuilder
                   (lit "  ") (lit "src/") 115%N (lit "rc/") _ _ _ _ _));
    try reflexivity.
  discriminate.
Defined.
